(** * Non-transitive dice game: fair random protocol, sampler and win
      probabilities

    A shallow embedding of the two variants of the game:

    - the commit-reveal variant (classes [Dice], [FairRandom],
      [Probability], [Game]), embedded in [Module Part000];
    - the plain variant [task3.js] (classes [Dice], [Probability],
      [Game]), embedded in [Module Task3].

    Code that is identical in both files ([Dice], [Probability.winProb],
    [Game.selectDice], [Game.printProbabilityTable], [Game.printDice])
    is embedded once, in [Module Common].

    JavaScript numbers are modelled by [Z] where the code only ever holds
    integers that a double holds exactly (the integers of the protocol
    stay below [2^33]), and by [JS.jsnum] (NaN, the infinities, or a
    rational) where a value comes out of [Number(ans)] on an arbitrary
    string or out of a division.  A division and the [Number] of a face
    round to the nearest IEEE double, [JS.double]. *)

From Stdlib Require Import ZArith QArith Qround List String Ascii Bool Lia Lqa.
From Stdlib Require Import Strings.Byte.
From Stdlib Require Decimal DecimalString DecimalPos DecimalN DecimalZ.
From Stdlib Require Import Permutation.
From Stdlib Require Floats.SpecFloat.
Import ListNotations.
Open Scope Z_scope.

(** ** JavaScript and Node.js builtins used by the program *)

Module JS.

(** A JavaScript number that need not be an integer. *)
Inductive jsnum : Type :=
| NaN
| NegInf
| PosInf
| Fin (q : Q).

Definition isNaN (x : jsnum) : bool :=
  match x with NaN => true | _ => false end.

(** *** Rounding to a double *)

(** [2^e], for an exponent of either sign. *)
Definition pow2 (e : Z) : Q :=
  if 0 <=? e then inject_Z (2 ^ e) else / inject_Z (2 ^ (- e)).

(** The integer nearest to [s], the even one of the two at a tie. *)
Definition roundHalfEven (s : Q) : Z :=
  let f := Qfloor s in
  match Qcompare (s - inject_Z f) (1 # 2) with
  | Lt => f
  | Gt => f + 1
  | Eq => if Z.even f then f else f + 1
  end.

(** The exponent of the last bit of the double nearest to [q > 0]: the [e]
    with [2^52 <= q / 2^e < 2^53], and -1074 for a subnormal. *)
Definition exponent (q : Q) : Z :=
  let e0 := Z.log2 (Qnum q) - Z.log2 (Z.pos (Qden q)) - 52 in
  let e := if Qle_bool (inject_Z (2 ^ 52)) (q / pow2 e0) then e0 else e0 - 1 in
  Z.max e (-1074).

(** [q > 0] rounded to 53 significant bits. *)
Definition nearest (q : Q) : Q :=
  inject_Z (roundHalfEven (q / pow2 (exponent q))) * pow2 (exponent q).

(** The double nearest to the real number [q], as every arithmetic
    operation of JavaScript returns it: IEEE 754 binary64, round to
    nearest, ties to even, an infinity from [2^1024] on. *)
Definition double (q : Q) : jsnum :=
  match Qcompare q 0 with
  | Eq => Fin 0
  | Gt => if Qle_bool (pow2 1024) (nearest q) then PosInf else Fin (nearest q)
  | Lt => if Qle_bool (pow2 1024) (nearest (- q)) then NegInf
          else Fin (- nearest (- q))
  end.

(** [x + y] *)
Definition addD (x y : jsnum) : jsnum :=
  match x, y with
  | NaN, _ | _, NaN => NaN
  | PosInf, NegInf | NegInf, PosInf => NaN
  | PosInf, _ | _, PosInf => PosInf
  | NegInf, _ | _, NegInf => NegInf
  | Fin p, Fin q => double (p + q)
  end.

(** [x - 1] *)
Definition sub1 (x : jsnum) : jsnum :=
  match x with Fin q => Fin (q - 1) | y => y end.

(** [x >= n] for an integer [n] *)
Definition geZ (x : jsnum) (n : Z) : bool :=
  match x with
  | Fin q => Qle_bool (inject_Z n) q
  | PosInf => true
  | _ => false
  end.

(** [x < n] for an integer [n] *)
Definition ltZ (x : jsnum) (n : Z) : bool :=
  match x with
  | Fin q => negb (Qle_bool (inject_Z n) q)
  | NegInf => true
  | _ => false
  end.

(** [x === n] for an integer [n] *)
Definition eqZ (x : jsnum) (n : Z) : bool :=
  match x with
  | Fin q => Qeq_bool q (inject_Z n)
  | _ => false
  end.

(** [a / b] for integers [a], [b] that doubles hold exactly: [0/0] is NaN,
    [a/0] is an infinity, and any other quotient is rounded to the nearest
    double. *)
Definition divZ (a b : Z) : jsnum :=
  if b =? 0 then
    (if a =? 0 then NaN else if 0 <? a then PosInf else NegInf)
  else double (inject_Z a / inject_Z b).

(** [i] is the integer [q], when [q] is one: the array index [arr[x]]
    reads. *)
Definition toIndex (x : jsnum) : option Z :=
  match x with
  | Fin q => if Qeq_bool q (inject_Z (Qfloor q)) then Some (Qfloor q) else None
  | _ => None
  end.

(** [arr[i]] for an integer [i]: [None] is [undefined]. *)
Definition index {A : Type} (arr : list A) (i : Z) : option A :=
  if i <? 0 then None else nth_error arr (Z.to_nat i).

(** [[...Array(n).keys()]] *)
Definition keys (n : nat) : list Z := map Z.of_nat (seq 0 n).

(** *** Buffers and hexadecimal *)

Definition hexDigit (n : N) : ascii :=
  match n with
  | 0%N => "0" | 1%N => "1" | 2%N => "2" | 3%N => "3"
  | 4%N => "4" | 5%N => "5" | 6%N => "6" | 7%N => "7"
  | 8%N => "8" | 9%N => "9" | 10%N => "a" | 11%N => "b"
  | 12%N => "c" | 13%N => "d" | 14%N => "e" | _ => "f"
  end%char.

(** [buf.toString("hex")] *)
Fixpoint toHex (bs : list byte) : string :=
  match bs with
  | [] => EmptyString
  | b :: bs' =>
      String (hexDigit (Byte.to_N b / 16))
        (String (hexDigit (Byte.to_N b mod 16)) (toHex bs'))
  end.

Definition hexValue (c : ascii) : option Z :=
  let n := Z.of_N (N_of_ascii c) in
  if (48 <=? n) && (n <=? 57) then Some (n - 48)
  else if (97 <=? n) && (n <=? 102) then Some (n - 87)
  else if (65 <=? n) && (n <=? 70) then Some (n - 55)
  else None.

Fixpoint parseHex (acc : Z) (s : string) : option Z :=
  match s with
  | EmptyString => Some acc
  | String c s' =>
      match hexValue c with
      | Some d => parseHex (16 * acc + d) s'
      | None => None
      end
  end.

(** [BigInt("0x" + hex)]; [None] is the SyntaxError of a malformed
    literal. *)
Definition BigInt_0x (hex : string) : option Z :=
  match hex with
  | EmptyString => None
  | _ => parseHex 0 hex
  end.

(** The unsigned big-endian value of a byte sequence. *)
Definition beValue (bs : list byte) : Z :=
  fold_left (fun acc b => 256 * acc + Z.of_N (Byte.to_N b)) bs 0.

Definition byteOfZ (z : Z) : byte :=
  match Byte.of_N (Z.to_N (z mod 256)) with
  | Some b => b
  | None => x00
  end.

(** The four bytes [buf.writeUInt32BE(num)] stores, for [num] in range. *)
Definition uint32BE (num : Z) : list byte :=
  [ byteOfZ (num / 16777216); byteOfZ (num / 65536);
    byteOfZ (num / 256); byteOfZ num ].

(** [Buffer.from(s, "hex")] on a string of whole bytes, what a reader of
    the console does with a key printed in hexadecimal; [None] when a
    character is no hexadecimal digit or one is left over. *)
Fixpoint fromHex (s : string) : option (list byte) :=
  match s with
  | EmptyString => Some []
  | String c1 (String c2 s') =>
      match hexValue c1, hexValue c2, fromHex s' with
      | Some hi, Some lo, Some bs => Some (byteOfZ (16 * hi + lo) :: bs)
      | _, _, _ => None
      end
  | String _ EmptyString => None
  end.

(** *** Strings *)

Definition isDigit (c : ascii) : bool :=
  let n := Z.of_N (N_of_ascii c) in (48 <=? n) && (n <=? 57).

Fixpoint allDigits (s : string) : bool :=
  match s with
  | EmptyString => true
  | String c s' => isDigit c && allDigits s'
  end.

(** [/^\d+$/.test(s)] *)
Definition test_digits (s : string) : bool :=
  match s with
  | EmptyString => false
  | _ => allDigits s
  end.

Fixpoint decimalFrom (acc : Z) (s : string) : Z :=
  match s with
  | EmptyString => acc
  | String c s' => decimalFrom (10 * acc + (Z.of_N (N_of_ascii c) - 48)) s'
  end.

(** [Number(s)] on a string of decimal digits, where the number is only
    tested against a range and returned when below it: its decimal value.
    The ranges are below [2^33], where a numeral has its exact value and
    rounding a longer one does not bring it below the range. *)
Definition Number_digits (s : string) : Z := decimalFrom 0 s.

(** [Number(s)] on a string of decimal digits, where the number is kept
    whatever its size, as a face of a die: the decimal value rounded to the
    nearest double, a whole number, or [Infinity] for a numeral from
    [2^1024] on.  Faces are compared and printed and nothing else;
    [Infinity] is kept as [2^1024], above every double as [Infinity] is. *)
Definition Number_rounded (s : string) : Z :=
  match double (inject_Z (Number_digits s)) with
  | Fin q => Qfloor q
  | PosInf => 2 ^ 1024
  | _ => 0
  end.

(** [String(n)] on an integer [n]: its decimal numeral (integers below
    [10^21], which JavaScript prints in full). *)
Definition String_of_int (n : Z) : string :=
  DecimalString.NilEmpty.string_of_int (Z.to_int n).

(** [xs.join(",")] *)
Fixpoint join_comma (xs : list string) : string :=
  match xs with
  | [] => EmptyString
  | [x] => x
  | x :: rest => (x ++ String ","%char (join_comma rest))%string
  end.

(** *** Exceptions, process exit and the outside world *)

(** An exception.  [Error msg] is thrown by the program itself and [msg]
    is its message, letter for letter; for the errors the runtime raises
    the constructor and its string name the error, not the wording of the
    message, which changes with the version of Node. *)
Inductive error : Type :=
| RangeError (msg : string)
| TypeError (msg : string)
| ERR_USE_AFTER_CLOSE
| Error (msg : string).

(** How a piece of code ends: it returns, throws, exits the process, or is
    still waiting for input that the finite [world] below no longer has. *)
Inductive outcome (A : Type) : Type :=
| Done (a : A)
| Throw (e : error)
| Exit (code : Z)
| Pending.

Arguments Done {A} a.
Arguments Throw {A} e.
Arguments Exit {A} code.
Arguments Pending {A}.

End JS.
Export JS.

(** ** The console, the keyboard and the random sources *)

Module IO.

(** What [console.log] prints, by the line of the source that prints it.
    The text of a line is not modelled, its payload is, as the program
    holds it: an index is recorded zero-based where the line shows it plus
    one. *)
Inductive message : Type :=
| Welcome
| DiceLine (i : nat) (faces : list Z)
| Deciding
| HMAC (h : string)
| KeyHex (k : string)
| ComputerNumber (n : Z)
| InvalidInput
| YourNumber (n : Z)
| ComputersNumber (n : Z)
| ResultMod2 (n : Z)
| WhoFirst (userFirst : bool)
| SelectDice
| MenuTaken (i : nat)
| MenuDice (i : nat) (faces : list Z)
| MenuHelp
| MenuExit
| InvalidChoice
| TableTitle
| TableHeader (n : nat)
| TableRow (i : nat) (cells : list (option jsnum))
| TableEnd
| ComputerSelects (c : option Z)
| YourDice (u : jsnum)
| ComputerDice (c : option Z)
| YourTurn
| YouRolled (face : option Z)
| ComputersTurn
| ComputerRolled (face : option Z)
| YouWin
| ComputerWins
| Tie.

(** What [rl.question] asks: a number below [max] (the text shows
    [max - 1]), or a choice in the menu. *)
Inductive prompt : Type :=
| AskNumber (max : Z)
| AskChoice.

(** What reaches the terminal: a line of [console.log], a question of
    [rl.question], or the line of [console.error(e.message)], recorded by
    the exception whose message it prints. *)
Inductive event : Type :=
| Log (m : message)
| Question (p : prompt)
| LogError (e : error).

(** The outside world: the bytes [crypto.randomBytes] will hand out, the
    raw values behind [Math.random] and [crypto.randomInt], the lines the
    user will type, and everything printed so far, oldest first. *)
Record world : Type := mkWorld {
  entropy : list byte;
  randoms : list Q;
  ints : list Z;
  stdin : list string;
  console : list event
}.

Definition emit (e : event) (w : world) : world :=
  mkWorld (entropy w) (randoms w) (ints w) (stdin w) (console w ++ [e]).

Definition emits (es : list event) (w : world) : world :=
  mkWorld (entropy w) (randoms w) (ints w) (stdin w) (console w ++ es).

Definition M (A : Type) : Type := world -> outcome A * world.

Definition ret {A : Type} (a : A) : M A := fun w => (Done a, w).

Definition bind {A B : Type} (m : M A) (k : A -> M B) : M B :=
  fun w =>
    match m w with
    | (Done a, w') => k a w'
    | (Throw e, w') => (Throw e, w')
    | (Exit c, w') => (Exit c, w')
    | (Pending, w') => (Pending, w')
    end.

Definition throw {A : Type} (e : error) : M A := fun w => (Throw e, w).

(** [process.exit(code)] *)
Definition exit {A : Type} (code : Z) : M A := fun w => (Exit code, w).

Definition lift {A : Type} (o : outcome A) : M A := fun w => (o, w).

Declare Scope io_scope.
Delimit Scope io_scope with io.
Notation "x <- c1 ;; c2" := (bind c1 (fun x => c2))
  (at level 61, c1 at next level, right associativity) : io_scope.
Notation "c1 ;; c2" := (bind c1 (fun _ => c2))
  (at level 61, right associativity) : io_scope.
Open Scope io_scope.

(** [console.log(...)] *)
Definition log (m : message) : M unit := fun w => (Done tt, emit (Log m) w).

(** A [forEach] or [for] loop whose body only prints. *)
Definition logAll (ms : list message) : M unit :=
  fun w => (Done tt, emits (map Log ms) w).

(** [await question(p)] on a readline interface.  On an interface that was
    closed the question is never answered: Node throws
    ERR_USE_AFTER_CLOSE (older versions leave the promise unsettled). *)
Definition question (closed : bool) (p : prompt) : M string :=
  fun w =>
    if closed then (Throw ERR_USE_AFTER_CLOSE, w)
    else
      let w' := emit (Question p) w in
      match stdin w' with
      | [] => (Pending, w')
      | a :: rest =>
          (Done a, mkWorld (entropy w') (randoms w') (ints w') rest (console w'))
      end.

(** [crypto.randomBytes(n)] *)
Definition randomBytes (n : nat) : M (list byte) :=
  fun w =>
    if (List.length (entropy w) <? n)%nat then (Pending, w)
    else (Done (firstn n (entropy w)),
          mkWorld (skipn n (entropy w)) (randoms w) (ints w) (stdin w) (console w)).

(** [Math.random()]: some number in [[0, 1)], the fractional part of the
    next raw value. *)
Definition Math_random : M Q :=
  fun w =>
    match randoms w with
    | [] => (Pending, w)
    | q :: rest =>
        (Done (q - inject_Z (Qfloor q))%Q,
         mkWorld (entropy w) rest (ints w) (stdin w) (console w))
    end.

(** [crypto.randomInt(min, max)]: some integer in [[min, max)]; it throws
    when [max <= min]. *)
Definition randomInt (min max : Z) : M Z :=
  fun w =>
    if max <=? min then (Throw (RangeError "ERR_OUT_OF_RANGE"), w)
    else
      match ints w with
      | [] => (Pending, w)
      | z :: rest =>
          (Done (min + z mod (max - min)),
           mkWorld (entropy w) (randoms w) rest (stdin w) (console w))
      end.

(** One round of a [while (true)] body: [continue] with the loop's
    variables, or leave the loop with a value. *)
Inductive step (S A : Type) : Type :=
| Continue (s : S)
| Break (a : A).

Arguments Continue {S A} s.
Arguments Break {S A} a.

Fixpoint iter {S A : Type} (fuel : nat) (body : S -> M (step S A)) (s : S) : M A :=
  match fuel with
  | O => lift Pending
  | Datatypes.S fuel' =>
      r <- body s ;;
      match r with
      | Break a => ret a
      | Continue s' => iter fuel' body s'
      end
  end.

(** [while (true) { body }].  Every round of every loop of the program that
    goes round again has consumed random bytes or a typed line, so the
    rounds are bounded by what the world still holds ([remaining]); with
    that many rounds allowed the loop obeys the equation of [while], see
    [while_true_unfold] below. *)
Definition remaining (w : world) : nat :=
  (List.length (entropy w) + List.length (stdin w))%nat.

Definition while_true {S A : Type} (body : S -> M (step S A)) (s : S) : M A :=
  fun w => iter (Datatypes.S (remaining w)) body s w.

End IO.
Export IO.

(** ** Code shared by the two variants *)

Module Common.

(** *** class Dice *)

(** The faces are the numbers of the array, which the parser makes from
    decimal numerals with [Number]: whole numbers, rounded to a double when
    the numeral is long ([Number_rounded]). *)
Record Dice : Type := mkDice { faces : list Z }.

(** [new Dice(faces)] *)
Definition new_Dice (fs : list Z) : outcome Dice :=
  if (List.length fs <? 1)%nat then Throw (Error "Dice must have faces")
  else Done (mkDice fs).

(** *** class DiceParser *)

(** [arg.split(",")], with [cur] the piece read so far. *)
Fixpoint split_comma (cur : string) (s : string) : list string :=
  match s with
  | EmptyString => [cur]
  | String c s' =>
      if Ascii.eqb c ","%char then cur :: split_comma EmptyString s'
      else split_comma (cur ++ String c EmptyString) s'
  end.

(** [xs.map(f)] for an [f] that may throw. *)
Fixpoint mapO {A B : Type} (f : A -> outcome B) (xs : list A) : outcome (list B) :=
  match xs with
  | [] => Done []
  | x :: xs' =>
      match f x with
      | Done y =>
          match mapO f xs' with
          | Done ys => Done (y :: ys)
          | Throw e => Throw e
          | Exit c => Exit c
          | Pending => Pending
          end
      | Throw e => Throw e
      | Exit c => Exit c
      | Pending => Pending
      end
  end.

(** An array with the index of each element, as [map((x, i) => ...)] and
    [forEach((d, i) => ...)] walk it. *)
Definition indexed {A : Type} (xs : list A) : list (nat * A) :=
  combine (seq 0 (List.length xs)) xs.

Definition newline : string := String (ascii_of_nat 10) EmptyString.

(** The message of the first [throw] of [parse]. *)
Definition tooFewDice : string :=
  ("Error: Need at least 3 dice." ++ newline ++ "Example:" ++ newline
   ++ "node game.js 2,2,4,4,9,9 6,8,1,1,8,6 7,5,3,7,5,3")%string.

(** [`Non-integer face in dice #${i + 1}`] *)
Definition nonIntegerFace (i : nat) : string :=
  ("Non-integer face in dice #" ++ String_of_int (Z.of_nat i + 1))%string.

Definition parseFace (i : nat) (x : string) : outcome Z :=
  if negb (test_digits x) then Throw (Error (nonIntegerFace i))
  else Done (Number_rounded x).

Definition parseDie (i : nat) (arg : string) : outcome Dice :=
  match mapO (parseFace i) (split_comma EmptyString arg) with
  | Done fs => new_Dice fs
  | Throw e => Throw e
  | Exit c => Exit c
  | Pending => Pending
  end.

(** [DiceParser.parse(args)] *)
Definition parse (args : list string) : outcome (list Dice) :=
  if (List.length args <? 3)%nat then Throw (Error tooFewDice)
  else mapO (fun p : nat * string => parseDie (fst p) (snd p)) (indexed args).

(** *** class Probability *)

(** The two nested [for ... of] loops of [winProb], from the counters
    [(wins, total)]. *)
Definition winProb_inner (a : Z) (fs2 : list Z) (st : Z * Z) : Z * Z :=
  fold_left
    (fun (st : Z * Z) (b : Z) =>
       let (wins, total) := st in
       let total := total + 1 in
       if a >? b then (wins + 1, total) else (wins, total))
    fs2 st.

Definition winProb_loops (fs1 fs2 : list Z) : Z * Z :=
  fold_left (fun st a => winProb_inner a fs2 st) fs1 (0, 0).

(** [Probability.winProb(d1, d2)]: the quotient of the two counters, a
    double.  The counters are whole numbers, which a double holds exactly up
    to [2^53], more rounds than a run can make. *)
Definition winProb (d1 d2 : Dice) : jsnum :=
  let (wins, total) := winProb_loops (faces d1) (faces d2) in
  divZ wins total.

(** *** class Game: the methods both files have *)

(** [d.faces.join(",")], the text of a die in [printDice] and in the menu
    of [selectDice]. *)
Definition facesText (d : Dice) : string :=
  join_comma (map String_of_int (faces d)).

(** [printDice()] *)
Definition printDice (dice : list Dice) : M unit :=
  logAll (map (fun p : nat * Dice => DiceLine (fst p) (faces (snd p))) (indexed dice)).

(** One row of the table: no cell on the diagonal. *)
Definition tableRow (dice : list Dice) (i : nat) (di : Dice) : list (option jsnum) :=
  map (fun p : nat * Dice =>
         if Nat.eqb i (fst p) then None else Some (winProb di (snd p)))
      (indexed dice).

(** [printProbabilityTable()] *)
Definition printProbabilityTable (dice : list Dice) : M unit :=
  log TableTitle ;;
  log (TableHeader (List.length dice)) ;;
  logAll (map (fun p : nat * Dice => TableRow (fst p) (tableRow dice (fst p) (snd p)))
              (indexed dice)) ;;
  log TableEnd.

(** [idx !== exclude], where [exclude] is [null] ([None]) or an index. *)
Definition differs (idx : jsnum) (exclude : option Z) : bool :=
  match exclude with
  | None => true
  | Some e => negb (eqZ idx e)
  end.

(** [i === exclude] *)
Definition isExcluded (i : nat) (exclude : option Z) : bool :=
  match exclude with
  | None => false
  | Some e => Z.of_nat i =? e
  end.

Definition menu (dice : list Dice) (exclude : option Z) : list message :=
  map (fun p : nat * Dice =>
         if isExcluded (fst p) exclude then MenuTaken (fst p)
         else MenuDice (fst p) (faces (snd p)))
      (indexed dice).

Section WithNumber.

(** [Number(s)] on an arbitrary string, a builtin of the language. *)
Variable Number : string -> jsnum.

(** One round of the loop of [selectDice]; the loop variable says whether
    [rl] was closed (the Help branch closes it and goes round again). *)
Definition selectDice_body (dice : list Dice) (exclude : option Z)
    (closed : bool) : M (step bool jsnum) :=
  log SelectDice ;;
  logAll (menu dice exclude) ;;
  log MenuHelp ;;
  log MenuExit ;;
  ans <- question closed AskChoice ;;
  if String.eqb ans "e" then exit 0
  else if String.eqb ans "h" then
    printProbabilityTable dice ;;
    ret (Continue true)
  else
    let idx := sub1 (Number ans) in
    if negb (isNaN idx) && geZ idx 0
       && ltZ idx (Z.of_nat (List.length dice)) && differs idx exclude
    then ret (Break idx)
    else
      log InvalidChoice ;;
      ret (Continue closed).

(** [selectDice(exclude)] *)
Definition selectDice (dice : list Dice) (exclude : option Z) : M jsnum :=
  while_true (selectDice_body dice exclude) false.

End WithNumber.

(** [this.dice[x]] followed by a property read: reading a property of
    [undefined] throws. *)
Definition dieAt (dice : list Dice) (i : option Z) : M Dice :=
  match i with
  | Some i =>
      match index dice i with
      | Some d => ret d
      | None => throw (TypeError "Cannot read properties of undefined")
      end
  | None => throw (TypeError "Cannot read properties of undefined")
  end.

(** [d.faces[r]] *)
Definition faceAt (d : Dice) (r : Z) : option Z := index (faces d) r.

(** [x > y] on faces that may be [undefined]. *)
Definition faceGt (x y : option Z) : bool :=
  match x, y with
  | Some a, Some b => a >? b
  | _, _ => false
  end.

(** The final [if / else if / else] of [play]. *)
Definition verdict (userVal compVal : option Z) : message :=
  if faceGt userVal compVal then YouWin
  else if faceGt compVal userVal then ComputerWins
  else Tie.

End Common.
Export Common.

(** ** The commit-reveal variant *)

Module Part000.

Section WithBuiltins.

(** [crypto.createHmac("sha3-256", key).update(buf).digest()], the MAC of
    the Node.js crypto library: key, then message, to the 32-byte tag. *)
Variable hmac_sha3_256 : list byte -> list byte -> list byte.

Variable Number : string -> jsnum.

(** *** class FairRandom *)

Record FairRandom : Type := mkFairRandom {
  range : Z;
  key : list byte;
  number : Z;
  hmac : string
}.

(** [2n ** BigInt(bytesNeeded * 8)] with [bytesNeeded = 4] *)
Definition span : Z := 2 ^ 32.

(** [a % b] on BigInts: the remainder has the sign of [a], and a zero [b]
    throws. *)
Definition bigint_rem (a b : Z) : M Z :=
  if b =? 0 then throw (RangeError "Division by zero")
  else ret (Z.rem a b).

(** One round of the loop of [uniformRandom]. *)
Definition uniformRandom_body (max : Z) (_ : unit) : M (step unit Z) :=
  bytes <- randomBytes 4 ;;
  rnd <- match BigInt_0x (toHex bytes) with
         | Some v => ret v
         | None => throw (Error "SyntaxError")
         end ;;
  m <- bigint_rem span max ;;
  if rnd <? span - m then
    r <- bigint_rem rnd max ;;
    ret (Break r)
  else ret (Continue tt).

(** [uniformRandom()], with [this.range] as argument. *)
Definition uniformRandom (range : Z) : M Z :=
  let max := range in
  while_true (uniformRandom_body max) tt.

(** [buf.writeUInt32BE(num)] on a fresh 4-byte buffer; it throws outside
    the unsigned 32-bit range. *)
Definition writeUInt32BE (num : Z) : outcome (list byte) :=
  if (0 <=? num) && (num <=? 4294967295) then Done (uint32BE num)
  else Throw (RangeError "ERR_OUT_OF_RANGE").

(** [calcHMAC(num)], with [this.key] as argument. *)
Definition calcHMAC (key : list byte) (num : Z) : outcome string :=
  match writeUInt32BE num with
  | Done buf => Done (toHex (hmac_sha3_256 key buf))
  | Throw e => Throw e
  | Exit c => Exit c
  | Pending => Pending
  end.

(** [new FairRandom(range)] *)
Definition new_FairRandom (range : Z) : M FairRandom :=
  key <- randomBytes 32 ;;
  number <- uniformRandom range ;;
  hmac <- lift (calcHMAC key number) ;;
  ret (mkFairRandom range key number hmac).

Definition showHMAC (this : FairRandom) : M unit :=
  log (HMAC (hmac this)).

Definition reveal (this : FairRandom) : M unit :=
  log (KeyHex (toHex (key this))) ;;
  log (ComputerNumber (number this)).

(** One round of the loop of [getUserNumber]. *)
Definition getUserNumber_body (this : FairRandom) (_ : unit) : M (step unit Z) :=
  answer <- question false (AskNumber (range this)) ;;
  if test_digits answer then
    let val := Number_digits answer in
    if (val >=? 0) && (val <? range this) then ret (Break val)
    else log InvalidInput ;; ret (Continue tt)
  else log InvalidInput ;; ret (Continue tt).

Definition getUserNumber (this : FairRandom) : M Z :=
  while_true (getUserNumber_body this) tt.

(** [getResult()].  The [%] is only reached with a value that
    [getUserNumber] accepted, hence with [range >= 1]. *)
Definition getResult (this : FairRandom) : M Z :=
  showHMAC this ;;
  userNum <- getUserNumber this ;;
  reveal this ;;
  ret (Z.rem (userNum + number this) (range this)).

(** *** class Game *)

(** [play()], lines 150-156: who selects first. *)
Definition decideFirst : M bool :=
  log Deciding ;;
  frp <- new_FairRandom 2 ;;
  firstUserNum <- getResult frp ;;
  let firstSum := Z.rem (number frp + firstUserNum) 2 in
  let userFirst := firstSum =? 0 in
  log (ResultMod2 firstSum) ;;
  log (WhoFirst userFirst) ;;
  ret userFirst.

(** [Math.floor(Math.random() * n)] *)
Definition randomBelow (n : Z) : M Z :=
  x <- Math_random ;;
  ret (Qfloor (x * inject_Z n)).

(** [play()], lines 158-169: the two selections, [(userDice, compDice)]. *)
Definition chooseDice (dice : list Dice) (userFirst : bool) : M (jsnum * option Z) :=
  if userFirst then
    userDice <- selectDice Number dice None ;;
    k <- randomBelow (Z.of_nat (List.length dice) - 1) ;;
    let compDice :=
      index (filter (fun i => negb (eqZ userDice i)) (keys (List.length dice))) k in
    log (ComputerSelects compDice) ;;
    ret (userDice, compDice)
  else
    c <- randomBelow (Z.of_nat (List.length dice)) ;;
    let compDice := Some c in
    log (ComputerSelects compDice) ;;
    userDice <- selectDice Number dice compDice ;;
    ret (userDice, compDice).

(** [play()], lines 174-196: the two rolls and the verdict. *)
Definition rollDice (dice : list Dice) (userDice : jsnum) (compDice : option Z) : M unit :=
  log YourTurn ;;
  ud <- dieAt dice (toIndex userDice) ;;
  userRoll <- new_FairRandom (Z.of_nat (List.length (faces ud))) ;;
  userRollRes <- getResult userRoll ;;
  log (YouRolled (faceAt ud userRollRes)) ;;
  log ComputersTurn ;;
  cd <- dieAt dice compDice ;;
  compRoll <- new_FairRandom (Z.of_nat (List.length (faces cd))) ;;
  showHMAC compRoll ;;
  compUserNum <- getUserNumber compRoll ;;
  reveal compRoll ;;
  let compRollRes := Z.rem (number compRoll + compUserNum) (Z.of_nat (List.length (faces cd))) in
  log (ComputerRolled (faceAt cd compRollRes)) ;;
  log (verdict (faceAt ud userRollRes) (faceAt cd compRollRes)).

(** [play()] *)
Definition play (dice : list Dice) : M unit :=
  log Welcome ;;
  printDice dice ;;
  userFirst <- decideFirst ;;
  p <- chooseDice dice userFirst ;;
  let (userDice, compDice) := p in
  log (YourDice userDice) ;;
  log (ComputerDice compDice) ;;
  rollDice dice userDice compDice.

(** The [try / catch] of the entry point: the message of an exception is
    printed with [console.error], and the process exits with code 1. *)
Definition main (args : list string) : M unit :=
  fun w =>
    match (dice <- lift (parse args) ;; play dice) w with
    | (Throw e, w') => (Exit 1, emit (LogError e) w')
    | r => r
    end.

End WithBuiltins.

End Part000.

(** ** The plain variant, [task3.js] *)

Module Task3.

Section WithBuiltins.

Variable Number : string -> jsnum.

(** One round of the loop of [getUserNumber(max)]. *)
Definition getUserNumber_body (max : Z) (_ : unit) : M (step unit Z) :=
  answer <- question false (AskNumber max) ;;
  if test_digits answer then
    let val := Number_digits answer in
    if (val >=? 0) && (val <? max) then ret (Break val)
    else log InvalidInput ;; ret (Continue tt)
  else log InvalidInput ;; ret (Continue tt).

Definition getUserNumber (max : Z) : M Z :=
  while_true (getUserNumber_body max) tt.

(** [play()], lines 117-126: who selects first. *)
Definition decideFirst : M bool :=
  log Deciding ;;
  userNum <- getUserNumber 2 ;;
  compNum <- randomInt 0 2 ;;
  let result := Z.rem (userNum + compNum) 2 in
  let userFirst := result =? 0 in
  log (YourNumber userNum) ;;
  log (ComputersNumber compNum) ;;
  log (ResultMod2 result) ;;
  log (WhoFirst userFirst) ;;
  ret userFirst.

(** [play()], lines 128-138: the two selections, [(userDice, compDice)]. *)
Definition chooseDice (dice : list Dice) (userFirst : bool) : M (jsnum * option Z) :=
  if userFirst then
    userDice <- selectDice Number dice None ;;
    let choices :=
      filter (fun i => negb (eqZ userDice i)) (keys (List.length dice)) in
    k <- randomInt 0 (Z.of_nat (List.length choices)) ;;
    let compDice := index choices k in
    log (ComputerSelects compDice) ;;
    ret (userDice, compDice)
  else
    c <- randomInt 0 (Z.of_nat (List.length dice)) ;;
    let compDice := Some c in
    log (ComputerSelects compDice) ;;
    userDice <- selectDice Number dice compDice ;;
    ret (userDice, compDice).

(** [play()], lines 143-160: the two rolls and the verdict. *)
Definition rollDice (dice : list Dice) (userDice : jsnum) (compDice : option Z) : M unit :=
  log YourTurn ;;
  ud <- dieAt dice (toIndex userDice) ;;
  userRollIdx <- randomInt 0 (Z.of_nat (List.length (faces ud))) ;;
  log (YouRolled (faceAt ud userRollIdx)) ;;
  log ComputersTurn ;;
  cd <- dieAt dice compDice ;;
  compRollIdx <- randomInt 0 (Z.of_nat (List.length (faces cd))) ;;
  log (ComputerRolled (faceAt cd compRollIdx)) ;;
  let userVal := faceAt ud userRollIdx in
  let compVal := faceAt cd compRollIdx in
  log (verdict userVal compVal).

(** [play()] *)
Definition play (dice : list Dice) : M unit :=
  log Welcome ;;
  printDice dice ;;
  userFirst <- decideFirst ;;
  p <- chooseDice dice userFirst ;;
  let (userDice, compDice) := p in
  log (YourDice userDice) ;;
  log (ComputerDice compDice) ;;
  rollDice dice userDice compDice.

(** The same [try / catch] as in the other file. *)
Definition main (args : list string) : M unit :=
  fun w =>
    match (dice <- lift (parse args) ;; play dice) w with
    | (Throw e, w') => (Exit 1, emit (LogError e) w')
    | r => r
    end.

End WithBuiltins.

End Task3.

(** ** Sample builtins and inputs, to run the embedding on *)

Module Sample.

(** A stand-in for the MAC, good enough to run the program: the key
    followed by the message. *)
Definition mac (key msg : list byte) : list byte := key ++ msg.

(** A stand-in for [Number]: decimal digits, NaN on anything else. *)
Definition digitsOrNaN (s : string) : jsnum :=
  if test_digits s then Fin (inject_Z (Number_digits s)) else NaN.

(** A stand-in for [Number] that also reads [1.5]. *)
Definition digitsOrHalf (s : string) : jsnum :=
  if String.eqb s "1.5" then Fin (3 # 2) else digitsOrNaN s.

Definition dieA : Dice := mkDice [2; 2; 4; 4; 9; 9].
Definition dieB : Dice := mkDice [1; 1; 6; 6; 8; 8].
Definition dieC : Dice := mkDice [3; 3; 5; 5; 7; 7].
Definition threeDice : list Dice := [dieA; dieB; dieC].

Definition zeros (n : nat) : list byte := repeat x00 n.

(** Two draws for a range of 3: [0xffffffff], which is discarded, then
    [0x00000105]. *)
Definition twoDraws : list byte := [xff; xff; xff; xff; x00; x00; x01; x05].

Definition draws_only (bs : list byte) : world := mkWorld bs [] [] [] [].

(** A world whose random sources only give zeros. *)
Definition quiet (lines : list string) : world :=
  mkWorld (zeros 200) (repeat 0%Q 8) (repeat 0 8) lines [].

(** A session over a range of 6 whose secret is 4. *)
Definition session : Part000.FairRandom :=
  Part000.mkFairRandom 6 (zeros 32) 4 "00".

End Sample.

(** ** Notions the statements below are phrased with *)

(** The threshold of the rejection sampling, in the words of the
    specification: the largest multiple of [range] not exceeding [2^32]. *)
Definition threshold (range : Z) : Z := 2 ^ 32 - (2 ^ 32) mod range.

(** A draw the sampler discards: four bytes at or above the threshold the
    code computes, [2^32 - (2^32 % max)]. *)
Definition discarded (max : Z) (bs : list byte) : Prop :=
  List.length bs = 4%nat /\ 2 ^ 32 - Z.rem (2 ^ 32) max <= beValue bs.

(** *** The Standard Library's IEEE 754 arithmetic, to check [double] against *)

(** A whole number as a binary64 float of [SpecFloat]. *)
Definition binary64 (z : Z) : SpecFloat.spec_float :=
  SpecFloat.binary_normalize 53 1024 z 0 false.

(** The value of a binary64 float of [SpecFloat]. *)
Definition ofBinary64 (x : SpecFloat.spec_float) : jsnum :=
  match x with
  | SpecFloat.S754_zero _ => Fin 0
  | SpecFloat.S754_infinity s => if s then NegInf else PosInf
  | SpecFloat.S754_nan => NaN
  | SpecFloat.S754_finite s m e =>
      Fin ((if s then -1 else 1) * inject_Z (Z.pos m) * pow2 e)
  end.

(** [k / n] and [k / n + k' / n'] in the arithmetic of [SpecFloat]. *)
Definition quotient64 (k n : Z) : SpecFloat.spec_float :=
  SpecFloat.SFdiv 53 1024 (binary64 k) (binary64 n).

Definition sum64 (x y : SpecFloat.spec_float) : SpecFloat.spec_float :=
  SpecFloat.SFadd 53 1024 x y.

(** The same number: NaN is taken as equal to itself here. *)
Definition sameNumber (x y : jsnum) : bool :=
  match x, y with
  | Fin p, Fin q => Qeq_bool p q
  | NaN, NaN | PosInf, PosInf | NegInf, NegInf => true
  | _, _ => false
  end.

(** The whole numbers from 1 to [n]. *)
Definition upTo (n : nat) : list Z := map Z.of_nat (seq 1 n).

(** *** Pairs of faces *)

(** All ordered pairs [(x, y)], [x] a face of [a] and [y] a face of [b]. *)
Definition pairs (a b : Dice) : list (Z * Z) := list_prod (faces a) (faces b).

Definition beats (p : Z * Z) : bool := fst p >? snd p.

Definition tied (p : Z * Z) : bool := fst p =? snd p.

Definition countIf (f : Z * Z -> bool) (ps : list (Z * Z)) : Z :=
  Z.of_nat (List.length (filter f ps)).

(** The size of the pair space, [|a.faces| * |b.faces|]. *)
Definition pairSpace (a b : Dice) : Z :=
  Z.of_nat (List.length (faces a)) * Z.of_nat (List.length (faces b)).

(** Modelled from the spec: [P(tie)], the fraction of ordered pairs
    [(x, y)] with [x == y] over the same pair space, which the repository
    does not compute; it is taken as [winProb] takes its own fraction, the
    count divided by the size of the pair space in JavaScript arithmetic. *)
Definition tieProb (a b : Dice) : jsnum :=
  divZ (countIf tied (pairs a b)) (pairSpace a b).

(** [x] is a number, and equal to the rational [q]. *)
Definition isRational (x : jsnum) (q : Q) : Prop :=
  match x with
  | Fin p => (p == q)%Q
  | _ => False
  end.

(** *** Loops *)

(** A loop body that has consumed input whenever it goes round again. *)
Definition consumes {S A : Type} (body : S -> M (step S A)) : Prop :=
  forall s w s' w',
    body s w = (Done (Continue s'), w') -> (remaining w' < remaining w)%nat.

(** *** Postconditions of a run *)

(** From the world [w], [m] ends in [Q] when it returns, and in [E] when it
    throws, exits or is left waiting. *)
Definition post {A : Type} (m : M A) (w : world)
    (Q : A -> world -> Prop) (E : world -> Prop) : Prop :=
  match m w with
  | (Done a, w') => Q a w'
  | (_, w') => E w'
  end.

(** [m] prints and asks nothing but events in [P]. *)
Definition emitsOnly {A : Type} (P : event -> Prop) (m : M A) : Prop :=
  forall w, exists es, console (snd (m w)) = console w ++ es /\ Forall P es.

(** *** Answers to a request for a number *)

(** The answers the loop of [getUserNumber] accepts. *)
Definition validAnswer (range : Z) (a : string) : bool :=
  test_digits a && ((Number_digits a >=? 0) && (Number_digits a <? range)).

(** The number the user gives: the first answer that is accepted. *)
Fixpoint firstValid (range : Z) (lines : list string) : option Z :=
  match lines with
  | [] => None
  | a :: rest =>
      if validAnswer range a then Some (Number_digits a)
      else firstValid range rest
  end.

(** What the console shows while the answers [bad] are turned down. *)
Definition retries (range : Z) (bad : list string) : list event :=
  flat_map (fun _ => [Question (AskNumber range); Log InvalidInput]) bad.

(** *** Checking a commitment *)

(** Modelled from the spec: [verify(commitment, secretValue, key)], which
    the repository does not have (the program prints the key and the number
    and leaves the check to the user).  In the words of the specification
    it recomputes [commit(secretValue, key)], here [calcHMAC] of the
    source, and compares it for exact equality against [commitment]. *)
Definition verify (mac : list byte -> list byte -> list byte)
    (commitment : string) (secretValue : Z) (key : list byte) : bool :=
  match Part000.calcHMAC mac key secretValue with
  | Done c => String.eqb c commitment
  | _ => false
  end.

(** A session whose commitment is the MAC of its own secret number under
    its own key. *)
Definition sealed (mac : list byte -> list byte -> list byte)
    (this : Part000.FairRandom) : Prop :=
  Part000.calcHMAC mac (Part000.key this) (Part000.number this)
  = Done (Part000.hmac this).

(** *** The protocol, as it shows on the console *)

(** Where a session stands: nothing shown; the commitment [h] shown; the
    counterpart value requested; the key revealed (the secret number
    follows). *)
Inductive phase : Type :=
| Idle
| Committed (h : string)
| Awaiting (h : string)
| KeyShown (h : string) (key : list byte).

Section Console.

Variable mac : list byte -> list byte -> list byte.

(** One line of the console, read by someone who checks the protocol: the
    steps come in order, and the key and the number revealed must verify
    against the commitment shown before the request. *)
Definition advance (st : phase) (e : event) : option phase :=
  match e with
  | Log (HMAC h) =>
      match st with Idle => Some (Committed h) | _ => None end
  | Question (AskNumber _) =>
      match st with
      | Committed h | Awaiting h => Some (Awaiting h)
      | _ => None
      end
  | Log (KeyHex k) =>
      match st, fromHex k with
      | Awaiting h, Some key => Some (KeyShown h key)
      | _, _ => None
      end
  | Log (ComputerNumber n) =>
      match st with
      | KeyShown h key => if verify mac h n key then Some Idle else None
      | _ => None
      end
  | _ => Some st
  end.

Fixpoint run (st : phase) (tr : list event) : option phase :=
  match tr with
  | [] => Some st
  | e :: tr' =>
      match advance st e with
      | Some st' => run st' tr'
      | None => None
      end
  end.

(** The console shows sessions that go commitment, request, reveal, in
    this order, one session at a time, each reveal verifying. *)
Definition protocol_ok (tr : list event) : bool :=
  match run Idle tr with
  | Some _ => true
  | None => false
  end.

Definition inPhase (st : phase) (w : world) : Prop :=
  run Idle (console w) = Some st.

Definition accepted (w : world) : Prop := exists st, inPhase st w.

End Console.

(** Events that are no step of the protocol. *)
Definition neutral (e : event) : Prop :=
  match e with
  | Log (HMAC _) | Log (KeyHex _) | Log (ComputerNumber _)
  | Question (AskNumber _) => False
  | _ => True
  end.

Definition isReveal (e : event) : Prop :=
  match e with
  | Log (KeyHex _) | Log (ComputerNumber _) => True
  | _ => False
  end.

Definition isCommitment (e : event) : Prop :=
  match e with
  | Log (HMAC _) => True
  | _ => False
  end.

(** Events that neither show a commitment nor reveal anything. *)
Definition withinSession (e : event) : Prop := ~ isReveal e /\ ~ isCommitment e.

(** *** The two selections *)

(** [userDice === compDice] *)
Definition sameIndex (u : jsnum) (c : option Z) : bool :=
  match c with
  | Some c => eqZ u c
  | None => false
  end.

(** What [selectDice] requires of the index it returns. *)
Definition selectable (dice : list Dice) (exclude : option Z) (idx : jsnum) : bool :=
  negb (isNaN idx) && geZ idx 0
  && ltZ idx (Z.of_nat (List.length dice)) && differs idx exclude.

(** The pair [(userDice, compDice)] the selections end with: the two
    differ, the user's passed the test of [selectDice], and with two dice
    or more the computer's is an index of the array. *)
Definition chosenOk (dice : list Dice) (p : jsnum * option Z) : Prop :=
  sameIndex (fst p) (snd p) = false
  /\ selectable dice None (fst p) = true
  /\ ((2 <= List.length dice)%nat ->
      exists c, snd p = Some c /\ 0 <= c < Z.of_nat (List.length dice)).

(** *** The report of the dice chosen *)

(** The two lines [Your dice: #...] and [Computer dice: #...]. *)
Definition isReport (e : event) : Prop :=
  match e with
  | Log (YourDice _) | Log (ComputerDice _) => True
  | _ => False
  end.

(** Events that are neither a step of the protocol nor a report. *)
Definition quietEvent (e : event) : Prop := neutral e /\ ~ isReport e.

Definition noReport (e : event) : Prop := ~ isReport e.

(** Nothing reported yet. *)
Definition unreported (w : world) : Prop := Forall noReport (console w).

(** The dice chosen were reported, once, and they are as [chosenOk] says. *)
Definition reported (dice : list Dice) (w : world) : Prop :=
  exists before p after,
    console w
    = before ++ Log (YourDice (fst p)) :: Log (ComputerDice (snd p)) :: after
    /\ Forall noReport before /\ Forall noReport after /\ chosenOk dice p.

(** *** Counting wins and ties, face by face *)

Fixpoint count_gt (a : Z) (bs : list Z) : Z :=
  match bs with
  | [] => 0
  | b :: bs' => (if a >? b then 1 else 0) + count_gt a bs'
  end.

Fixpoint count_lt (a : Z) (bs : list Z) : Z :=
  match bs with
  | [] => 0
  | b :: bs' => (if b >? a then 1 else 0) + count_lt a bs'
  end.

Fixpoint count_eq (a : Z) (bs : list Z) : Z :=
  match bs with
  | [] => 0
  | b :: bs' => (if a =? b then 1 else 0) + count_eq a bs'
  end.

Fixpoint wins (xs ys : list Z) : Z :=
  match xs with
  | [] => 0
  | x :: xs' => count_gt x ys + wins xs' ys
  end.

Fixpoint draws (xs ys : list Z) : Z :=
  match xs with
  | [] => 0
  | x :: xs' => count_eq x ys + draws xs' ys
  end.

(** *** Answers to the menu *)

(** The number [x] typed is on offer: [1 <= x < dice.length + 1], and
    [x - 1] is not the index excluded.  Nothing asks [x] to be whole. *)
Definition offered (dice : list Dice) (exclude : option Z) (x : jsnum) : Prop :=
  match x with
  | Fin q =>
      (1 <= q)%Q /\ (q < inject_Z (Z.of_nat (List.length dice)) + 1)%Q
      /\ match exclude with
         | Some e => ~ (q - 1 == inject_Z e)%Q
         | None => True
         end
  | _ => False
  end.

(** An answer the loop of [selectDice] turns down with [Invalid choice.]. *)
Definition refused (Number : string -> jsnum) (dice : list Dice)
    (exclude : option Z) (a : string) : bool :=
  negb (String.eqb a "e") && negb (String.eqb a "h")
  && negb (selectable dice exclude (sub1 (Number a))).

(** The lines of the menu, up to the question. *)
Definition menuLines (dice : list Dice) (exclude : option Z) : list event :=
  Log SelectDice :: map Log (menu dice exclude) ++ [Log MenuHelp; Log MenuExit].

(** What the console shows while the answers [bad] are turned down. *)
Definition refusals (dice : list Dice) (exclude : option Z) (bad : list string) : list event :=
  flat_map (fun _ => menuLines dice exclude ++ [Question AskChoice; Log InvalidChoice]) bad.

(** The lines of the table of probabilities. *)
Definition tableLines (dice : list Dice) : list event :=
  Log TableTitle :: Log (TableHeader (List.length dice))
  :: map Log (map (fun p : nat * Dice => TableRow (fst p) (tableRow dice (fst p) (snd p)))
                  (indexed dice))
  ++ [Log TableEnd].

(** *** The faces rolled *)

(** The face [f] shown as rolled is a face of the die at index [i]. *)
Definition faceOf (dice : list Dice) (i : option Z) (f : option Z) : Prop :=
  exists k d x, i = Some k /\ index dice k = Some d /\ f = Some x /\ In x (faces d).

(** The lines [You rolled face: ...] and [Computer rolled face: ...] show
    faces of the dice at [userDice] and at [compDice]. *)
Definition rolledFrom (dice : list Dice) (userDice : jsnum) (compDice : option Z)
    (e : event) : Prop :=
  match e with
  | Log (YouRolled f) => faceOf dice (toIndex userDice) f
  | Log (ComputerRolled f) => faceOf dice compDice f
  | _ => True
  end.

(** *** The random sources *)

(** [m] leaves the part [f] of the world as it was. *)
Definition keeps {A B : Type} (f : world -> B) (m : M A) : Prop :=
  forall w, f (snd (m w)) = f w.

(** *** Events of the plain variant *)

Definition plain (e : event) : Prop := ~ isCommitment e.

(** * Verification *)

(** Unfolds the primitives that only print or return, and projects the
    worlds they build. *)
Ltac io_step :=
  cbv [ret log logAll emit emits throw exit lift];
  cbn [entropy randoms ints stdin console fst snd].

(** Closed comparisons of numbers, by evaluation. *)
Ltac evaluate := vm_compute; repeat split; (discriminate || reflexivity).

(** ** Hexadecimal digits and big-endian values *)

Lemma byte_bound (b : byte) : 0 <= Z.of_N (Byte.to_N b) < 256.
Proof. destruct b; vm_compute; split; congruence. Qed.

Lemma hex_pair (b : byte) :
  exists hi lo,
    hexValue (hexDigit (Byte.to_N b / 16)) = Some hi /\
    hexValue (hexDigit (Byte.to_N b mod 16)) = Some lo /\
    16 * hi + lo = Z.of_N (Byte.to_N b).
Proof.
  destruct b;
    (eexists; eexists; split; [vm_compute; reflexivity
                              | split; [vm_compute; reflexivity | reflexivity]]).
Qed.

Lemma parseHex_toHex (bs : list byte) (acc : Z) :
  parseHex acc (toHex bs)
  = Some (fold_left (fun a b => 256 * a + Z.of_N (Byte.to_N b)) bs acc).
Proof.
  revert acc; induction bs as [|b bs IH]; intros acc; [reflexivity|].
  destruct (hex_pair b) as (hi & lo & Hhi & Hlo & Hsum).
  cbn [toHex parseHex fold_left].
  rewrite Hhi, Hlo, IH.
  do 2 f_equal. lia.
Qed.

(** [BigInt("0x" + bytes.toString("hex"))] is the big-endian value of the
    bytes. *)
Lemma BigInt_0x_toHex (bs : list byte) :
  bs <> [] -> BigInt_0x (toHex bs) = Some (beValue bs).
Proof.
  intros Hne. destruct bs as [|b bs]; [congruence|].
  unfold BigInt_0x, beValue.
  rewrite <- parseHex_toHex. reflexivity.
Qed.

Lemma beValue_word (bs : list byte) :
  List.length bs = 4%nat -> 0 <= beValue bs < 2 ^ 32.
Proof.
  intros Hlen.
  destruct bs as [|b0 [|b1 [|b2 [|b3 [|? ?]]]]]; try discriminate.
  unfold beValue; cbn [fold_left].
  pose proof (byte_bound b0). pose proof (byte_bound b1).
  pose proof (byte_bound b2). pose proof (byte_bound b3).
  change (2 ^ 32) with 4294967296. lia.
Qed.

(** ** Running the primitives *)

Lemma randomBytes_take (n : nat) (bs rest : list byte) (w : world) :
  List.length bs = n ->
  entropy w = bs ++ rest ->
  randomBytes n w
  = (Done bs, mkWorld rest (randoms w) (ints w) (stdin w) (console w)).
Proof.
  intros Hlen Hent. unfold randomBytes. rewrite Hent.
  assert (Hlt : (List.length (bs ++ rest) <? n)%nat = false).
  { apply Nat.ltb_ge. rewrite length_app. lia. }
  rewrite Hlt. subst n.
  rewrite firstn_app, Nat.sub_diag, firstn_all, firstn_O, app_nil_r.
  rewrite skipn_app, Nat.sub_diag, skipn_all. reflexivity.
Qed.

(** ** A small program logic for [M] *)

Lemma post_ret {A : Type} (a : A) (w : world) (Q : A -> world -> Prop) E :
  Q a w -> post (ret a) w Q E.
Proof. intros H. exact H. Qed.

Lemma post_bind {A B : Type} (m : M A) (k : A -> M B) (w : world)
    (Q : B -> world -> Prop) (E : world -> Prop) :
  post m w (fun a w' => post (k a) w' Q E) E -> post (bind m k) w Q E.
Proof.
  unfold post, bind. destruct (m w) as [[a| e | c |] w']; auto.
Qed.

Lemma post_weaken {A : Type} (m : M A) (w : world)
    (Q Q' : A -> world -> Prop) (E E' : world -> Prop) :
  post m w Q E ->
  (forall a w', Q a w' -> Q' a w') ->
  (forall w', E w' -> E' w') ->
  post m w Q' E'.
Proof.
  unfold post. destruct (m w) as [[a| e | c |] w']; auto.
Qed.

Lemma post_seq {A B : Type} (m : M A) (k : A -> M B) (w : world)
    (R : A -> world -> Prop) (Q : B -> world -> Prop) (E : world -> Prop) :
  post m w R E ->
  (forall a w', R a w' -> post (k a) w' Q E) ->
  post (bind m k) w Q E.
Proof.
  intros Hm Hk. apply post_bind.
  eapply post_weaken; [exact Hm | exact Hk | auto].
Qed.

Lemma post_done {A : Type} (m : M A) (w w' : world) (a : A)
    (Q : A -> world -> Prop) (E : world -> Prop) :
  post m w Q E -> m w = (Done a, w') -> Q a w'.
Proof. unfold post. intros H Hrun. rewrite Hrun in H. exact H. Qed.

(** The loop rule: an invariant [I] of the loop variables and the world,
    kept by every round that goes round again. *)
Lemma post_iter {S A : Type} (body : S -> M (step S A))
    (I : S -> world -> Prop) (Q : A -> world -> Prop) (E : world -> Prop) :
  (forall s w, I s w ->
     post (body s) w
       (fun r w' => match r with
                    | Continue s' => I s' w'
                    | Break a => Q a w'
                    end) E) ->
  (forall s w, I s w -> E w) ->
  forall fuel s w, I s w -> post (iter fuel body s) w Q E.
Proof.
  intros Hbody Hout fuel.
  induction fuel as [|fuel IH]; intros s w HI.
  - unfold post. cbn. eauto.
  - cbn [iter]. apply post_bind.
    eapply post_weaken; [apply Hbody; exact HI| |auto].
    intros [s'|a] w' H; [apply IH; exact H | exact H].
Qed.

Lemma post_while_true {S A : Type} (body : S -> M (step S A))
    (I : S -> world -> Prop) (Q : A -> world -> Prop) (E : world -> Prop) :
  (forall s w, I s w ->
     post (body s) w
       (fun r w' => match r with
                    | Continue s' => I s' w'
                    | Break a => Q a w'
                    end) E) ->
  (forall s w, I s w -> E w) ->
  forall s w, I s w -> post (while_true body s) w Q E.
Proof.
  intros Hbody Hout s w HI. unfold post, while_true.
  apply (post_iter body I Q E Hbody Hout _ s w HI).
Qed.

(** ** The loops obey the equation of [while] *)

Lemma iter_enough {S A : Type} (body : S -> M (step S A)) :
  consumes body ->
  forall fuel1 fuel2 s w,
    (remaining w < fuel1)%nat -> (remaining w < fuel2)%nat ->
    iter fuel1 body s w = iter fuel2 body s w.
Proof.
  intros Hbody fuel1.
  induction fuel1 as [|fuel1 IH]; intros fuel2 s w H1 H2; [lia|].
  destruct fuel2 as [|fuel2]; [lia|].
  cbn [iter]. unfold bind.
  destruct (body s w) as [[[s'|a]| | |] w'] eqn:Hrun; try reflexivity.
  pose proof (Hbody s w s' w' Hrun) as Hless.
  apply IH; lia.
Qed.

Lemma while_true_unfold {S A : Type} (body : S -> M (step S A)) (s : S) (w : world) :
  consumes body ->
  while_true body s w
  = (r <- body s ;;
     match r with
     | Break a => ret a
     | Continue s' => while_true body s'
     end) w.
Proof.
  intros Hbody. unfold while_true at 1. cbn [iter]. unfold bind.
  destruct (body s w) as [[[s'|a]| | |] w'] eqn:Hrun; try reflexivity.
  pose proof (Hbody s w s' w' Hrun) as Hless.
  unfold while_true. apply iter_enough; [exact Hbody|lia|lia].
Qed.

Lemma consumes_uniformRandom (max : Z) : consumes (Part000.uniformRandom_body max).
Proof.
  intros [] w s' w'. unfold Part000.uniformRandom_body, bind, randomBytes.
  destruct (List.length (entropy w) <? 4)%nat eqn:Hlen; [discriminate|].
  apply Nat.ltb_ge in Hlen.
  destruct (BigInt_0x (toHex (firstn 4 (entropy w)))) as [rnd|]; [|discriminate].
  io_step. unfold Part000.bigint_rem.
  destruct (max =? 0); [discriminate|]. io_step.
  destruct (rnd <? Part000.span - Z.rem Part000.span max); [discriminate|].
  intros H. injection H as _ <-.
  unfold remaining. cbn [entropy stdin].
  destruct (entropy w) as [|b0 [|b1 [|b2 [|b3 l]]]]; cbn [List.length] in *; lia.
Qed.

Lemma consumes_getUserNumber (max : Z) : consumes (Task3.getUserNumber_body max).
Proof.
  intros [] w s' w'. unfold Task3.getUserNumber_body, bind, question. io_step.
  destruct (stdin w) as [|a rest] eqn:Hin; [discriminate|].
  assert (Hless : forall es,
             (remaining (mkWorld (entropy w) (randoms w) (ints w) rest es)
              < remaining w)%nat).
  { intros es. unfold remaining. cbn [entropy stdin]. rewrite Hin. cbn [List.length]. lia. }
  destruct (test_digits a);
    [destruct ((Number_digits a >=? 0) && (Number_digits a <? max))|];
    io_step; intros H; try discriminate; injection H as _ <-; apply Hless.
Qed.

Lemma consumes_selectDice (Number : string -> jsnum) (dice : list Dice)
    (exclude : option Z) :
  consumes (selectDice_body Number dice exclude).
Proof.
  intros closed w s' w'. unfold selectDice_body, bind, question. io_step.
  destruct closed; [discriminate|].
  destruct (stdin w) as [|ans rest] eqn:Hin; [discriminate|].
  assert (Hless : forall es,
             (remaining (mkWorld (entropy w) (randoms w) (ints w) rest es)
              < remaining w)%nat).
  { intros es. unfold remaining. cbn [entropy stdin]. rewrite Hin. cbn [List.length]. lia. }
  destruct (String.eqb ans "e"); [discriminate|].
  destruct (String.eqb ans "h").
  - unfold printProbabilityTable, bind. io_step.
    intros H. injection H as _ <-. apply Hless.
  - destruct (negb (isNaN (sub1 (Number ans))) && geZ (sub1 (Number ans)) 0
              && ltZ (sub1 (Number ans)) (Z.of_nat (List.length dice))
              && differs (sub1 (Number ans)) exclude);
      io_step; intros H; [discriminate|]. injection H as _ <-. apply Hless.
Qed.

(** The three loops of the program, unfolded once. *)
Lemma uniformRandom_unfold (range : Z) (w : world) :
  Part000.uniformRandom range w
  = (r <- Part000.uniformRandom_body range tt ;;
     match r with
     | Break v => ret v
     | Continue _ => Part000.uniformRandom range
     end) w.
Proof.
  unfold Part000.uniformRandom.
  rewrite (while_true_unfold _ tt w (consumes_uniformRandom range)).
  unfold bind.
  destruct (Part000.uniformRandom_body range tt w) as [[[[]|v]| | |] w']; reflexivity.
Qed.

Lemma getUserNumber_unfold (max : Z) (w : world) :
  Task3.getUserNumber max w
  = (r <- Task3.getUserNumber_body max tt ;;
     match r with
     | Break v => ret v
     | Continue _ => Task3.getUserNumber max
     end) w.
Proof.
  unfold Task3.getUserNumber.
  rewrite (while_true_unfold _ tt w (consumes_getUserNumber max)).
  unfold bind.
  destruct (Task3.getUserNumber_body max tt w) as [[[[]|v]| | |] w']; reflexivity.
Qed.

Lemma selectDice_unfold (Number : string -> jsnum) (dice : list Dice)
    (exclude : option Z) (w : world) :
  selectDice Number dice exclude w
  = (r <- selectDice_body Number dice exclude false ;;
     match r with
     | Break idx => ret idx
     | Continue closed => while_true (selectDice_body Number dice exclude) closed
     end) w.
Proof.
  unfold selectDice.
  apply (while_true_unfold _ false w (consumes_selectDice Number dice exclude)).
Qed.

(** ** What a piece of code can print *)

Section EmitsOnly.

Variable P : event -> Prop.

Lemma emitsOnly_ret {A : Type} (a : A) : emitsOnly P (ret a).
Proof. intros w. exists []. cbn. rewrite app_nil_r. auto. Qed.

Lemma emitsOnly_lift {A : Type} (o : outcome A) : emitsOnly P (lift o).
Proof. intros w. exists []. cbn. rewrite app_nil_r. auto. Qed.

Lemma emitsOnly_throw {A : Type} (e : error) : emitsOnly P (@throw A e).
Proof. intros w. exists []. cbn. rewrite app_nil_r. auto. Qed.

Lemma emitsOnly_exit {A : Type} (c : Z) : emitsOnly P (@exit A c).
Proof. intros w. exists []. cbn. rewrite app_nil_r. auto. Qed.

Lemma emitsOnly_bind {A B : Type} (m : M A) (k : A -> M B) :
  emitsOnly P m -> (forall a, emitsOnly P (k a)) -> emitsOnly P (bind m k).
Proof.
  intros Hm Hk w. destruct (Hm w) as (es & Hes & HP).
  unfold bind. destruct (m w) as [[a| e | c |] w'] eqn:Hrun; cbn [snd] in Hes.
  - destruct (Hk a w') as (es' & Hes' & HP').
    exists (es ++ es'). rewrite Hes', Hes, app_assoc. split; [reflexivity|].
    apply Forall_app; auto.
  - exists es; auto.
  - exists es; auto.
  - exists es; auto.
Qed.

Lemma emitsOnly_log (m : message) : P (Log m) -> emitsOnly P (log m).
Proof. intros H w. exists [Log m]. cbn. auto. Qed.

Lemma emitsOnly_logAll (ms : list message) :
  Forall (fun m => P (Log m)) ms -> emitsOnly P (logAll ms).
Proof.
  intros H w. exists (map Log ms). cbn. split; [reflexivity|].
  apply Forall_map. exact H.
Qed.

Lemma emitsOnly_question (closed : bool) (p : prompt) :
  P (Question p) -> emitsOnly P (question closed p).
Proof.
  intros H w. unfold question. destruct closed.
  - exists []. cbn. rewrite app_nil_r. auto.
  - exists [Question p]. cbn [emit stdin].
    destruct (stdin w); cbn; auto.
Qed.

Lemma emitsOnly_randomBytes (n : nat) : emitsOnly P (randomBytes n).
Proof.
  intros w. exists []. unfold randomBytes.
  destruct (List.length (entropy w) <? n)%nat; cbn; rewrite app_nil_r; auto.
Qed.

Lemma emitsOnly_Math_random : emitsOnly P Math_random.
Proof.
  intros w. exists []. unfold Math_random.
  destruct (randoms w); cbn; rewrite app_nil_r; auto.
Qed.

Lemma emitsOnly_randomInt (lo hi : Z) : emitsOnly P (randomInt lo hi).
Proof.
  intros w. exists []. unfold randomInt.
  destruct (hi <=? lo); [|destruct (ints w)]; cbn; rewrite app_nil_r; auto.
Qed.

Lemma emitsOnly_iter {S A : Type} (body : S -> M (step S A)) :
  (forall s, emitsOnly P (body s)) ->
  forall fuel s, emitsOnly P (iter fuel body s).
Proof.
  intros Hbody fuel. induction fuel as [|fuel IH]; intros s.
  - apply emitsOnly_lift.
  - cbn [iter]. apply emitsOnly_bind; [apply Hbody|].
    intros [s'|a]; [apply IH | apply emitsOnly_ret].
Qed.

Lemma emitsOnly_while_true {S A : Type} (body : S -> M (step S A)) (s : S) :
  (forall s, emitsOnly P (body s)) -> emitsOnly P (while_true body s).
Proof.
  intros Hbody w. unfold while_true.
  apply (emitsOnly_iter body Hbody).
Qed.

End EmitsOnly.

(** ** The sampler *)

Lemma threshold_pos (range : Z) : 1 <= range <= 2 ^ 32 -> 0 < threshold range.
Proof.
  intros H. unfold threshold.
  destruct (Z.eq_dec range (2 ^ 32)) as [->|Hne].
  - rewrite Z.mod_same by (change (2 ^ 32) with 4294967296; lia).
    change (2 ^ 32) with 4294967296. lia.
  - pose proof (Z.mod_pos_bound (2 ^ 32) range ltac:(lia)). lia.
Qed.

(** One accepted draw ends the loop. *)
Lemma uniformRandom_body_accept (max : Z) (bs rest : list byte) (w : world) :
  max <> 0 ->
  List.length bs = 4%nat ->
  entropy w = bs ++ rest ->
  beValue bs < 2 ^ 32 - Z.rem (2 ^ 32) max ->
  Part000.uniformRandom_body max tt w
  = (Done (Break (Z.rem (beValue bs) max)),
     mkWorld rest (randoms w) (ints w) (stdin w) (console w)).
Proof.
  intros Hmax Hlen Hent Hlt.
  unfold Part000.uniformRandom_body, bind.
  rewrite (randomBytes_take 4 bs rest w Hlen Hent).
  rewrite BigInt_0x_toHex by (destruct bs; [discriminate|congruence]).
  unfold ret at 1, Part000.bigint_rem.
  apply Z.eqb_neq in Hmax. rewrite Hmax.
  unfold ret at 1.
  apply Z.ltb_lt in Hlt. unfold Part000.span. rewrite Hlt.
  reflexivity.
Qed.

(** One rejected draw goes round again. *)
Lemma uniformRandom_body_reject (max : Z) (bs rest : list byte) (w : world) :
  max <> 0 ->
  List.length bs = 4%nat ->
  entropy w = bs ++ rest ->
  2 ^ 32 - Z.rem (2 ^ 32) max <= beValue bs ->
  Part000.uniformRandom_body max tt w
  = (Done (Continue tt),
     mkWorld rest (randoms w) (ints w) (stdin w) (console w)).
Proof.
  intros Hmax Hlen Hent Hge.
  unfold Part000.uniformRandom_body, bind.
  rewrite (randomBytes_take 4 bs rest w Hlen Hent).
  rewrite BigInt_0x_toHex by (destruct bs; [discriminate|congruence]).
  unfold ret at 1, Part000.bigint_rem.
  apply Z.eqb_neq in Hmax. rewrite Hmax.
  unfold ret at 1.
  apply Z.ltb_ge in Hge. unfold Part000.span. rewrite Hge.
  reflexivity.
Qed.

Lemma uniformRandom_iter (max : Z) (rejected : list (list byte)) :
  forall (fuel : nat) (accepted rest : list byte) (w : world),
    max <> 0 ->
    (List.length rejected < fuel)%nat ->
    Forall (discarded max) rejected ->
    List.length accepted = 4%nat ->
    beValue accepted < 2 ^ 32 - Z.rem (2 ^ 32) max ->
    entropy w = List.concat rejected ++ accepted ++ rest ->
    iter fuel (Part000.uniformRandom_body max) tt w
    = (Done (Z.rem (beValue accepted) max),
       mkWorld rest (randoms w) (ints w) (stdin w) (console w)).
Proof.
  induction rejected as [|r rs IH]; intros fuel accepted rest w Hmax Hfuel Hrej Hlen Hacc Hent.
  - destruct fuel as [|fuel]; [cbn in Hfuel; lia|].
    cbn [iter]. unfold bind at 1.
    rewrite (uniformRandom_body_accept max accepted rest w Hmax Hlen Hent Hacc).
    reflexivity.
  - destruct fuel as [|fuel]; [cbn in Hfuel; lia|].
    inversion Hrej as [|? ? [Hr4 Hrge] Hrs]; subst.
    cbn [List.concat] in Hent. rewrite <- app_assoc in Hent.
    cbn [iter]. unfold bind at 1.
    rewrite (uniformRandom_body_reject max r _ w Hmax Hr4 Hent Hrge).
    rewrite (IH fuel accepted rest _ Hmax); try assumption; try reflexivity.
    cbn [List.length] in Hfuel. lia.
Qed.

Lemma concat_words_length (max : Z) (rejected : list (list byte)) :
  Forall (discarded max) rejected ->
  (List.length rejected <= List.length (List.concat rejected))%nat.
Proof.
  induction 1 as [|r rs [Hr _] _ IH]; [reflexivity|].
  cbn [List.concat List.length]. rewrite length_app. lia.
Qed.

(** The sampler on any non-zero [range]: the first draw that is not
    discarded decides, and what is returned is its remainder. *)
Lemma uniformRandom_run (range : Z) (rejected : list (list byte))
    (accepted rest : list byte) (w : world) :
  range <> 0 ->
  Forall (discarded range) rejected ->
  List.length accepted = 4%nat ->
  beValue accepted < 2 ^ 32 - Z.rem (2 ^ 32) range ->
  entropy w = List.concat rejected ++ accepted ++ rest ->
  Part000.uniformRandom range w
  = (Done (Z.rem (beValue accepted) range),
     mkWorld rest (randoms w) (ints w) (stdin w) (console w)).
Proof.
  intros Hne Hrej Hlen Hacc Hent.
  unfold Part000.uniformRandom, while_true.
  apply uniformRandom_iter with (rejected := rejected); try assumption.
  pose proof (concat_words_length range rejected Hrej) as Hc.
  unfold remaining. rewrite Hent, length_app. lia.
Qed.

Lemma rem_word (rnd max : Z) :
  0 <= rnd < 2 ^ 32 -> max <> 0 ->
  0 <= Z.rem rnd max < 2 ^ 32 /\ (1 <= max -> Z.rem rnd max < max).
Proof.
  intros Hrnd Hmax.
  pose proof (Z.rem_nonneg rnd max Hmax ltac:(lia)) as H0.
  assert (Hle : Z.rem rnd max <= rnd).
  { rewrite <- (Z.rem_abs_r rnd max Hmax). apply Z.rem_le; lia. }
  split; [lia|].
  intros H1. apply Z.rem_bound_pos; lia.
Qed.

(** What the sampler returns, on any entropy. *)
Lemma uniformRandom_post (range : Z) (w : world) :
  post (Part000.uniformRandom range) w
    (fun v _ => 0 <= v < 2 ^ 32 /\ (1 <= range -> v < range))
    (fun _ => True).
Proof.
  unfold Part000.uniformRandom.
  apply (post_while_true (Part000.uniformRandom_body range) (fun _ _ => True)); auto.
  intros [] w0 _.
  unfold post, Part000.uniformRandom_body, bind, randomBytes.
  destruct (List.length (entropy w0) <? 4)%nat eqn:Hlen; [exact I|].
  apply Nat.ltb_ge in Hlen.
  assert (H4 : List.length (firstn 4 (entropy w0)) = 4%nat)
    by (rewrite length_firstn; lia).
  rewrite BigInt_0x_toHex
    by (destruct (firstn 4 (entropy w0)); [discriminate|congruence]).
  io_step. unfold Part000.bigint_rem.
  destruct (Z.eqb_spec range 0) as [Hz|Hnz]; [exact I|].
  io_step.
  destruct (beValue (firstn 4 (entropy w0)) <? Part000.span - Z.rem Part000.span range);
    [|exact I].
  apply rem_word; [apply beValue_word; exact H4 | exact Hnz].
Qed.

(** C1. For every range with [1 <= range <= 2^32], the sampler returns
    [r mod range], where [r] is the first unsigned 32-bit big-endian draw
    (four bytes of the entropy source) below the threshold
    [2^32 - (2^32 mod range)]; the draws before it, all at or above the
    threshold, are discarded.  The returned value lies in [[0, range)],
    and so does every value the sampler returns, on any entropy. *)
Theorem uniformRandom_first_accepted (range : Z) (rejected : list (list byte))
    (accepted rest : list byte) (w : world) :
  1 <= range <= 2 ^ 32 ->
  Forall (fun bs => List.length bs = 4%nat /\ threshold range <= beValue bs) rejected ->
  List.length accepted = 4%nat ->
  beValue accepted < threshold range ->
  entropy w = List.concat rejected ++ accepted ++ rest ->
  Part000.uniformRandom range w
  = (Done (beValue accepted mod range),
     mkWorld rest (randoms w) (ints w) (stdin w) (console w))
  /\ 0 <= beValue accepted mod range < range
  /\ (forall w0 v w1, Part000.uniformRandom range w0 = (Done v, w1) -> 0 <= v < range).
Proof.
  intros Hrange Hrej Hlen Hacc Hent.
  assert (Hrem : Z.rem (2 ^ 32) range = (2 ^ 32) mod range).
  { apply Z.rem_mod_nonneg; [change (2 ^ 32) with 4294967296|]; lia. }
  pose proof (beValue_word accepted Hlen) as Hword.
  split; [|split].
  - rewrite <- (Z.rem_mod_nonneg (beValue accepted) range) by lia.
    apply uniformRandom_run with (rejected := rejected); try assumption.
    + lia.
    + eapply Forall_impl; [|exact Hrej].
      intros bs [H4 Hge]. split; [exact H4|].
      rewrite Hrem. exact Hge.
    + rewrite Hrem. exact Hacc.
  - apply Z.mod_pos_bound. lia.
  - intros w0 v w1 Hrun.
    pose proof (post_done _ _ _ _ _ _ (uniformRandom_post range w0) Hrun) as [Hv Hlt].
    split; [lia | apply Hlt; lia].
Qed.

(** With [1 <= range <= 2^32] a draw of zero is never discarded: the
    threshold is positive, so the loop can always end. *)
Lemma zero_draw_accepted (range : Z) :
  1 <= range <= 2 ^ 32 -> beValue [x00; x00; x00; x00] < threshold range.
Proof.
  intros H. pose proof (threshold_pos range H) as Hpos.
  change (beValue [x00; x00; x00; x00]) with 0. exact Hpos.
Qed.

(** A range of zero: the first draw is read, then the threshold divides by
    zero. *)
Lemma uniformRandom_zero (bs rest : list byte) (w : world) :
  List.length bs = 4%nat ->
  entropy w = bs ++ rest ->
  Part000.uniformRandom 0 w
  = (Throw (RangeError "Division by zero"),
     mkWorld rest (randoms w) (ints w) (stdin w) (console w)).
Proof.
  intros Hlen Hent.
  unfold Part000.uniformRandom, while_true.
  cbn [iter]. unfold bind at 1.
  unfold Part000.uniformRandom_body, bind.
  rewrite (randomBytes_take 4 bs rest w Hlen Hent).
  rewrite BigInt_0x_toHex by (destruct bs; [discriminate|congruence]).
  reflexivity.
Qed.

(** C5, as the code has it.  A range of zero makes the sampler throw (the
    RangeError of a BigInt division by zero, once the first draw has been
    read) and return no value.  A negative range is not rejected: with
    [range = - m] and [1 <= m <= 2^32] the sampler returns [r mod m] for the
    first draw [r] below [2^32 - (2^32 mod m)]. *)
Theorem uniformRandom_range_below_one (m : Z) (rejected : list (list byte))
    (accepted rest : list byte) (w : world) :
  1 <= m <= 2 ^ 32 ->
  Forall (fun bs => List.length bs = 4%nat /\ threshold m <= beValue bs) rejected ->
  List.length accepted = 4%nat ->
  beValue accepted < threshold m ->
  entropy w = List.concat rejected ++ accepted ++ rest ->
  fst (Part000.uniformRandom 0 w) = Throw (RangeError "Division by zero")
  /\ Part000.uniformRandom (- m) w
     = (Done (beValue accepted mod m),
        mkWorld rest (randoms w) (ints w) (stdin w) (console w)).
Proof.
  intros Hm Hrej Hlen Hacc Hent. split.
  - destruct rejected as [|r rs].
    + cbn [List.concat app] in Hent.
      rewrite (uniformRandom_zero accepted rest w Hlen Hent). reflexivity.
    + inversion Hrej as [|? ? [Hr4 _] _]; subst.
      cbn [List.concat] in Hent. rewrite <- app_assoc in Hent.
      rewrite (uniformRandom_zero r _ w Hr4 Hent). reflexivity.
  - assert (Hrem : Z.rem (2 ^ 32) (- m) = (2 ^ 32) mod m).
    { rewrite Z.rem_opp_r by lia.
      apply Z.rem_mod_nonneg; [change (2 ^ 32) with 4294967296|]; lia. }
    pose proof (beValue_word accepted Hlen) as Hword.
    rewrite <- (Z.rem_mod_nonneg (beValue accepted) m) by lia.
    rewrite <- (Z.rem_opp_r (beValue accepted) m) by lia.
    apply uniformRandom_run with (rejected := rejected); try assumption.
    + lia.
    + eapply Forall_impl; [|exact Hrej].
      intros bs [H4 Hge]. split; [exact H4|].
      rewrite Hrem. exact Hge.
    + rewrite Hrem. exact Hacc.
Qed.

(** ** The dice the parser hands to the game *)

Lemma mapO_Done {A B : Type} (f : A -> outcome B) (xs : list A) (ys : list B) :
  mapO f xs = Done ys ->
  List.length ys = List.length xs
  /\ Forall (fun y => exists x, f x = Done y) ys.
Proof.
  revert ys. induction xs as [|x xs IH]; intros ys Hmap; cbn [mapO] in Hmap.
  - injection Hmap as <-. split; [reflexivity|constructor].
  - destruct (f x) as [y| | |] eqn:Hfx; try discriminate.
    destruct (mapO f xs) as [ys'| | |]; try discriminate.
    injection Hmap as <-.
    destruct (IH ys' eq_refl) as [Hlen Hall].
    split; [cbn [List.length]; rewrite Hlen; reflexivity|].
    constructor; [exists x; exact Hfx | exact Hall].
Qed.

(** ** Rounding to a double *)

Lemma pow2_pos (e : Z) : (0 < pow2 e)%Q.
Proof.
  unfold pow2. destruct (Z.leb_spec 0 e).
  - change 0%Q with (inject_Z 0). rewrite <- Zlt_Qlt. apply Z.pow_pos_nonneg; lia.
  - apply Qinv_lt_0_compat. change 0%Q with (inject_Z 0). rewrite <- Zlt_Qlt.
    apply Z.pow_pos_nonneg; lia.
Qed.

(** [2^e * 2^(-e) = 1] for [e <= 0]: [1 / 2^e] is the integer [2^(-e)]. *)
Lemma pow2_inv (e : Z) : e <= 0 -> (pow2 e * inject_Z (2 ^ (- e)) == 1)%Q.
Proof.
  intros He. unfold pow2. destruct (Z.leb_spec 0 e).
  - assert (e = 0) by lia. subst e. reflexivity.
  - rewrite Qmult_comm. apply Qmult_inv_r.
    intros E. assert (0 < 2 ^ (- e)) by (apply Z.pow_pos_nonneg; lia).
    unfold Qeq in E. cbn in E. lia.
Qed.

Lemma roundHalfEven_near (s : Q) :
  (inject_Z (roundHalfEven s) - s <= 1 # 2)%Q /\ (s - inject_Z (roundHalfEven s) <= 1 # 2)%Q.
Proof.
  unfold roundHalfEven.
  pose proof (Qfloor_le s) as Hlo. pose proof (Qlt_floor s) as Hhi.
  rewrite inject_Z_plus in Hhi. change (inject_Z 1) with 1%Q in Hhi.
  destruct (Qcompare (s - inject_Z (Qfloor s)) (1 # 2)) eqn:Hc.
  - apply Qeq_alt in Hc.
    destruct (Z.even (Qfloor s)); [|rewrite inject_Z_plus; change (inject_Z 1) with 1%Q];
      split; lra.
  - apply Qlt_alt in Hc. split; lra.
  - apply Qgt_alt in Hc. rewrite inject_Z_plus. change (inject_Z 1) with 1%Q. split; lra.
Qed.

(** Rounding does not cross an integer. *)
Lemma roundHalfEven_le (s : Q) (n : Z) : (s <= inject_Z n)%Q -> roundHalfEven s <= n.
Proof.
  intros Hs. unfold roundHalfEven.
  pose proof (Qfloor_le s) as Hlo.
  assert (Hf : Qfloor s <= n).
  { rewrite Zle_Qle. lra. }
  destruct (Z.eq_dec (Qfloor s) n) as [E|D].
  - assert (Hc : Qcompare (s - inject_Z (Qfloor s)) (1 # 2) = Lt).
    { apply (proj1 (Qlt_alt _ _)). rewrite E. lra. }
    rewrite Hc. exact Hf.
  - destruct (Qcompare _ _); [destruct (Z.even _)|..]; lia.
Qed.

Lemma roundHalfEven_nonneg (s : Q) : (0 <= s)%Q -> 0 <= roundHalfEven s.
Proof.
  intros Hs. unfold roundHalfEven.
  assert (Hf : 0 <= Qfloor s).
  { change 0 with (Qfloor 0). apply Qfloor_resp_le. exact Hs. }
  destruct (Qcompare _ _); [destruct (Z.even _)|..]; lia.
Qed.

Lemma pow2_mono_neg (e k : Z) : e <= k -> k <= 0 -> (pow2 e <= pow2 k)%Q.
Proof.
  intros Hek Hk.
  pose proof (pow2_inv e ltac:(lia)) as He. pose proof (pow2_inv k Hk) as Hk'.
  pose proof (pow2_pos e) as Pe. pose proof (pow2_pos k) as Pk.
  assert (Hpow : (inject_Z (2 ^ (- k)) <= inject_Z (2 ^ (- e)))%Q).
  { rewrite <- Zle_Qle. apply Z.pow_le_mono_r; lia. }
  assert (Hkpos : (0 < inject_Z (2 ^ (- k)))%Q).
  { change 0%Q with (inject_Z 0). rewrite <- Zlt_Qlt. apply Z.pow_pos_nonneg; lia. }
  (* pow2 e * A = 1 = pow2 k * B with B <= A *)
  destruct (Qlt_le_dec (pow2 k) (pow2 e)) as [Hlt|Hle]; [|exact Hle].
  exfalso.
  assert (H1 : (pow2 k * inject_Z (2 ^ (- k)) < pow2 e * inject_Z (2 ^ (- k)))%Q).
  { apply Qmult_lt_compat_r; assumption. }
  assert (H2 : (pow2 e * inject_Z (2 ^ (- k)) <= pow2 e * inject_Z (2 ^ (- e)))%Q).
  { rewrite !(Qmult_comm (pow2 e)). apply Qmult_le_compat_r; [exact Hpow|]. lra. }
  lra.
Qed.

Lemma exponent_unit (q : Q) : (0 < q)%Q -> (q <= 1)%Q -> -1074 <= exponent q <= -52.
Proof.
  intros H0 H1. unfold exponent.
  destruct q as [n d]. unfold Qlt, Qle in H0, H1. cbn in H0, H1. cbn [Qnum Qden].
  assert (Hlog : Z.log2 n <= Z.log2 (Z.pos d)) by (apply Z.log2_le_mono; lia).
  destruct (Qle_bool _ _); lia.
Qed.

Lemma double_unit (q : Q) :
  (0 <= q)%Q -> (q <= 1)%Q ->
  exists r, double q = Fin r /\ (0 <= r)%Q /\ (r <= 1)%Q
            /\ (q - pow2 (-53) <= r)%Q /\ (r <= q + pow2 (-53))%Q.
Proof.
  intros H0 H1. pose proof (pow2_pos (-53)) as P53.
  unfold double. destruct (Qcompare q 0) eqn:Hc.
  - apply Qeq_alt in Hc. exists 0%Q. split; [reflexivity|]. repeat split; lra.
  - apply Qlt_alt in Hc. lra.
  - apply Qgt_alt in Hc.
    pose proof (exponent_unit q Hc H1) as He.
    pose proof (pow2_pos (exponent q)) as Pe.
    pose proof (pow2_inv (exponent q) ltac:(lia)) as Hinv.
    set (e := exponent q) in *. set (N := 2 ^ (- e)) in *.
    assert (Hs : (q / pow2 e == q * inject_Z N)%Q).
    { assert (Hi : (/ pow2 e == inject_Z N)%Q).
      { apply (Qmult_inj_l _ _ (pow2 e)); [lra|].
        rewrite Qmult_inv_r by lra. rewrite Hinv. reflexivity. }
      unfold Qdiv. rewrite Hi. reflexivity. }
    assert (Hnear := roundHalfEven_near (q / pow2 e)).
    assert (Hm0 : 0 <= roundHalfEven (q / pow2 e)).
    { apply roundHalfEven_nonneg. rewrite Hs.
      apply Qmult_le_0_compat; [exact H0|].
      change 0%Q with (inject_Z 0). rewrite <- Zle_Qle. apply Z.pow_nonneg. lia. }
    assert (HmN : roundHalfEven (q / pow2 e) <= N).
    { apply roundHalfEven_le. rewrite Hs.
      assert (HN : (0 <= inject_Z N)%Q).
      { change 0%Q with (inject_Z 0). rewrite <- Zle_Qle. apply Z.pow_nonneg. lia. }
      rewrite <- (Qmult_1_l (inject_Z N)) at 2.
      apply Qmult_le_compat_r; assumption. }
    set (m := roundHalfEven (q / pow2 e)) in *.
    assert (Hr : nearest q = (inject_Z m * pow2 e)%Q) by reflexivity.
    assert (Hr0 : (0 <= inject_Z m * pow2 e)%Q).
    { apply Qmult_le_0_compat; [|lra].
      change 0%Q with (inject_Z 0). rewrite <- Zle_Qle. exact Hm0. }
    assert (Hr1 : (inject_Z m * pow2 e <= 1)%Q).
    { rewrite <- Hinv, (Qmult_comm (pow2 e)).
      apply Qmult_le_compat_r; [|lra]. rewrite <- Zle_Qle. exact HmN. }
    assert (Hhalf : (pow2 e * (1 # 2) <= pow2 (-53))%Q).
    { assert (H52 : (pow2 e <= pow2 (-52))%Q) by (apply pow2_mono_neg; lia).
      assert (E : (pow2 (-52) * (1 # 2) == pow2 (-53))%Q) by reflexivity.
      rewrite <- E. apply Qmult_le_compat_r; [exact H52|]. discriminate. }
    assert (Hq : (q == (q / pow2 e) * pow2 e)%Q) by (field; lra).
    destruct Hnear as [Hup Hdown].
    assert (Hup' : ((inject_Z m - q / pow2 e) * pow2 e <= (1 # 2) * pow2 e)%Q)
      by (apply Qmult_le_compat_r; lra).
    assert (Hdown' : ((q / pow2 e - inject_Z m) * pow2 e <= (1 # 2) * pow2 e)%Q)
      by (apply Qmult_le_compat_r; lra).
    assert (Hbig : Qle_bool (pow2 1024) (nearest q) = false).
    { destruct (Qle_bool (pow2 1024) (nearest q)) eqn:Hb; [|reflexivity].
      apply Qle_bool_iff in Hb. rewrite Hr in Hb.
      assert ((1 < pow2 1024)%Q) by reflexivity. lra. }
    rewrite Hbig. exists (nearest q). rewrite Hr.
    split; [reflexivity|]. split; [exact Hr0|]. split; [exact Hr1|].
    split.
    + assert (E : (q - inject_Z m * pow2 e == (q / pow2 e - inject_Z m) * pow2 e)%Q).
      { rewrite Hq at 1. ring. }
      lra.
    + assert (E : (inject_Z m * pow2 e - q == (inject_Z m - q / pow2 e) * pow2 e)%Q).
      { rewrite Hq at 1. ring. }
      lra.
Qed.

Lemma double_not_NaN (q : Q) : double q <> NaN.
Proof.
  unfold double. destruct (Qcompare q 0); [discriminate|..];
    destruct (Qle_bool _ _); discriminate.
Qed.

(** [double] rounds as the Standard Library's specification of IEEE 754
    does: on every count out of every total up to 48, [divZ] is the binary64
    quotient of [SpecFloat], and on every two such fractions out of a total
    up to 12, [addD] is its binary64 sum. *)
Lemma divZ_is_binary64_quotient (k n : Z) :
  In k (0 :: upTo 48) -> In n (upTo 48) ->
  sameNumber (divZ k n) (ofBinary64 (quotient64 k n)) = true.
Proof.
  revert k n.
  assert (H : forallb (fun k => forallb (fun n =>
                 sameNumber (divZ k n) (ofBinary64 (quotient64 k n)))
               (upTo 48)) (0 :: upTo 48) = true) by (vm_compute; reflexivity).
  intros k n Hk Hn.
  rewrite forallb_forall in H. specialize (H k Hk).
  rewrite forallb_forall in H. exact (H n Hn).
Qed.

Lemma addD_is_binary64_sum (k k' n : Z) :
  In k (0 :: upTo 12) -> In k' (0 :: upTo 12) -> In n (upTo 12) ->
  sameNumber (addD (divZ k n) (divZ k' n))
             (ofBinary64 (sum64 (quotient64 k n) (quotient64 k' n))) = true.
Proof.
  revert k k' n.
  assert (H : forallb (fun k => forallb (fun k' => forallb (fun n =>
                 sameNumber (addD (divZ k n) (divZ k' n))
                   (ofBinary64 (sum64 (quotient64 k n) (quotient64 k' n))))
               (upTo 12)) (0 :: upTo 12)) (0 :: upTo 12) = true)
    by (vm_compute; reflexivity).
  intros k k' n Hk Hk' Hn.
  rewrite forallb_forall in H. specialize (H k Hk).
  rewrite forallb_forall in H. specialize (H k' Hk').
  rewrite forallb_forall in H. exact (H n Hn).
Qed.

Lemma roundHalfEven_Z (s : Q) (k : Z) : (s == inject_Z k)%Q -> roundHalfEven s = k.
Proof.
  intros Hs. unfold roundHalfEven.
  assert (Hf : Qfloor s = k) by (rewrite Hs; apply Qfloor_Z).
  rewrite Hf.
  assert (Hc : Qcompare (s - inject_Z k) (1 # 2) = Lt).
  { apply (proj1 (Qlt_alt _ _)). lra. }
  rewrite Hc. reflexivity.
Qed.

Lemma double_nonneg (q : Q) :
  (0 <= q)%Q ->
  match double q with
  | Fin r => (0 <= r)%Q
  | PosInf => True
  | _ => False
  end.
Proof.
  intros Hq. unfold double. destruct (Qcompare q 0) eqn:Hc.
  - lra.
  - apply Qlt_alt in Hc. lra.
  - apply Qgt_alt in Hc.
    destruct (Qle_bool (pow2 1024) (nearest q)); [exact I|].
    unfold nearest. pose proof (pow2_pos (exponent q)) as Pe.
    apply Qmult_le_0_compat; [|lra].
    change 0%Q with (inject_Z 0). rewrite <- Zle_Qle.
    apply roundHalfEven_nonneg. apply Qle_shift_div_l; [exact Pe|lra].
Qed.

Lemma exponent_integer (n : Z) : 0 < n < 2 ^ 53 -> -1074 <= exponent (inject_Z n) <= 0.
Proof.
  intros Hn. unfold exponent. cbn [Qnum Qden inject_Z].
  change (Z.log2 1) with 0.
  assert (Hlog : 0 <= Z.log2 n < 53).
  { split; [apply Z.log2_nonneg|]. apply Z.log2_lt_pow2; lia. }
  destruct (Qle_bool _ _); lia.
Qed.

(** A whole number up to [2^53] is a double. *)
Lemma double_exact (n : Z) :
  0 <= n <= 2 ^ 53 -> exists r, double (inject_Z n) = Fin r /\ (r == inject_Z n)%Q.
Proof.
  intros Hn.
  destruct (Z.eq_dec n 0) as [->|Hn0]; [exists 0%Q; split; reflexivity|].
  destruct (Z.eq_dec n (2 ^ 53)) as [->|Hn53].
  { eexists. split; [vm_compute; reflexivity|reflexivity]. }
  assert (Hpos : (0 < inject_Z n)%Q).
  { change 0%Q with (inject_Z 0). rewrite <- Zlt_Qlt. lia. }
  pose proof (exponent_integer n ltac:(lia)) as He.
  pose proof (pow2_pos (exponent (inject_Z n))) as Pe.
  pose proof (pow2_inv (exponent (inject_Z n)) ltac:(lia)) as Hinv.
  set (e := exponent (inject_Z n)) in *. set (N := 2 ^ (- e)) in *.
  assert (Hs : (inject_Z n / pow2 e == inject_Z (n * N))%Q).
  { assert (Hi : (/ pow2 e == inject_Z N)%Q).
    { apply (Qmult_inj_l _ _ (pow2 e)); [lra|].
      rewrite Qmult_inv_r by lra. rewrite Hinv. reflexivity. }
    unfold Qdiv. rewrite Hi, inject_Z_mult. reflexivity. }
  assert (Hr : (nearest (inject_Z n) == inject_Z n)%Q).
  { unfold nearest. fold e. rewrite (roundHalfEven_Z _ _ Hs).
    rewrite inject_Z_mult, <- Qmult_assoc, (Qmult_comm (inject_Z N)), Hinv.
    ring. }
  unfold double.
  assert (Hc : Qcompare (inject_Z n) 0 = Gt) by (apply (proj1 (Qgt_alt _ _)); exact Hpos).
  rewrite Hc.
  assert (Hbig : Qle_bool (pow2 1024) (nearest (inject_Z n)) = false).
  { destruct (Qle_bool (pow2 1024) (nearest (inject_Z n))) eqn:Hb; [|reflexivity].
    apply Qle_bool_iff in Hb. rewrite Hr in Hb.
    change (pow2 1024) with (inject_Z (2 ^ 1024)) in Hb.
    rewrite <- Zle_Qle in Hb.
    assert (2 ^ 53 < 2 ^ 1024) by (apply Z.pow_lt_mono_r; lia). lia. }
  rewrite Hbig. exists (nearest (inject_Z n)). split; [reflexivity|exact Hr].
Qed.


(** ** Win probabilities *)

Lemma winProb_inner_counts (a : Z) (bs : list Z) :
  forall w t, winProb_inner a bs (w, t) = (w + count_gt a bs, t + Z.of_nat (List.length bs)).
Proof.
  unfold winProb_inner.
  induction bs as [|b bs IH]; intros w t.
  - cbn. f_equal; lia.
  - cbn [fold_left count_gt List.length].
    destruct (a >? b); rewrite IH; f_equal; lia.
Qed.

Lemma winProb_loops_counts (xs ys : list Z) :
  forall w t,
    fold_left (fun st a => winProb_inner a ys st) xs (w, t)
    = (w + wins xs ys, t + Z.of_nat (List.length xs) * Z.of_nat (List.length ys)).
Proof.
  induction xs as [|x xs IH]; intros w t.
  - cbn. f_equal; lia.
  - cbn [fold_left wins List.length].
    rewrite winProb_inner_counts, IH. f_equal; lia.
Qed.

Lemma count_gt_filter (x : Z) (ys : list Z) :
  count_gt x ys = countIf beats (map (pair x) ys).
Proof.
  unfold countIf.
  induction ys as [|y ys IH]; [reflexivity|].
  cbn [count_gt map filter]. unfold beats at 1. cbn [fst snd].
  destruct (x >? y); cbn [List.length]; rewrite IH; lia.
Qed.

Lemma count_eq_filter (x : Z) (ys : list Z) :
  count_eq x ys = countIf tied (map (pair x) ys).
Proof.
  unfold countIf.
  induction ys as [|y ys IH]; [reflexivity|].
  cbn [count_eq map filter]. unfold tied at 1. cbn [fst snd].
  destruct (x =? y); cbn [List.length]; rewrite IH; lia.
Qed.

Lemma countIf_app (f : Z * Z -> bool) (ps qs : list (Z * Z)) :
  countIf f (ps ++ qs) = countIf f ps + countIf f qs.
Proof. unfold countIf. rewrite filter_app, length_app. lia. Qed.

Lemma wins_filter (xs ys : list Z) :
  wins xs ys = countIf beats (list_prod xs ys).
Proof.
  induction xs as [|x xs IH]; [reflexivity|].
  cbn [wins list_prod]. rewrite countIf_app, <- count_gt_filter, IH. reflexivity.
Qed.

Lemma draws_filter (xs ys : list Z) :
  draws xs ys = countIf tied (list_prod xs ys).
Proof.
  induction xs as [|x xs IH]; [reflexivity|].
  cbn [draws list_prod]. rewrite countIf_app, <- count_eq_filter, IH. reflexivity.
Qed.

(** Adding a face to the second die. *)
Lemma wins_cons_r (x : Z) (xs ys : list Z) :
  wins ys (x :: xs) = count_lt x ys + wins ys xs.
Proof.
  induction ys as [|y ys IH]; [reflexivity|].
  cbn [wins count_lt count_gt]. rewrite IH. lia.
Qed.

Lemma trichotomy_counts (x : Z) (ys : list Z) :
  count_gt x ys + count_lt x ys + count_eq x ys = Z.of_nat (List.length ys).
Proof.
  induction ys as [|y ys IH]; [reflexivity|].
  cbn [count_gt count_lt count_eq List.length].
  destruct (x >? y) eqn:Hgt, (y >? x) eqn:Hlt, (x =? y) eqn:Heq; lia.
Qed.

(** Every ordered pair is a win for one side or a tie, and only one of the
    three. *)
Lemma wins_draws_total (xs ys : list Z) :
  wins xs ys + wins ys xs + draws xs ys
  = Z.of_nat (List.length xs) * Z.of_nat (List.length ys).
Proof.
  induction xs as [|x xs IH].
  - cbn [wins draws List.length].
    assert (H0 : wins ys [] = 0) by (induction ys as [|y ys IHy]; cbn; lia).
    rewrite H0. reflexivity.
  - cbn [wins draws List.length]. rewrite wins_cons_r.
    pose proof (trichotomy_counts x ys). lia.
Qed.

Lemma pairSpace_pos (a b : Dice) :
  faces a <> [] -> faces b <> [] -> 0 < pairSpace a b.
Proof.
  intros Ha Hb. unfold pairSpace.
  destruct (faces a) as [|x xs]; [congruence|].
  destruct (faces b) as [|y ys]; [congruence|].
  cbn [List.length]. lia.
Qed.

Lemma winProb_counts (a b : Dice) :
  faces a <> [] -> faces b <> [] ->
  winProb a b
  = double (inject_Z (wins (faces a) (faces b)) / inject_Z (pairSpace a b)).
Proof.
  intros Ha Hb. pose proof (pairSpace_pos a b Ha Hb) as Hpos.
  unfold winProb, winProb_loops.
  rewrite winProb_loops_counts. cbn [Z.add].
  unfold divZ. fold (pairSpace a b).
  destruct (Z.eqb_spec (pairSpace a b) 0) as [E|_]; [lia | reflexivity].
Qed.

(** A count out of a total, as a fraction between 0 and 1. *)
Lemma fraction_unit (k n : Z) :
  0 <= k <= n -> 0 < n ->
  (0 <= inject_Z k / inject_Z n)%Q /\ (inject_Z k / inject_Z n <= 1)%Q.
Proof.
  intros Hk Hn.
  assert (HnQ : (0 < inject_Z n)%Q).
  { change 0%Q with (inject_Z 0). rewrite <- Zlt_Qlt. exact Hn. }
  split.
  - apply Qle_shift_div_l; [exact HnQ|].
    rewrite Qmult_0_l. change 0%Q with (inject_Z 0). rewrite <- Zle_Qle. lia.
  - apply Qle_shift_div_r; [exact HnQ|].
    rewrite Qmult_1_l. rewrite <- Zle_Qle. lia.
Qed.

Lemma wins_bounds (xs ys : list Z) :
  0 <= wins xs ys <= Z.of_nat (List.length xs) * Z.of_nat (List.length ys).
Proof.
  induction xs as [|x xs IH]; cbn [wins List.length]; [lia|].
  assert (Hc : 0 <= count_gt x ys <= Z.of_nat (List.length ys)).
  { clear IH. induction ys as [|y ys IHy]; cbn [count_gt List.length]; [lia|].
    destruct (x >? y); lia. }
  nia.
Qed.

Lemma draws_bounds (xs ys : list Z) : 0 <= draws xs ys.
Proof.
  induction xs as [|x xs IH]; cbn [draws]; [lia|].
  assert (Hc : 0 <= count_eq x ys).
  { clear IH. induction ys as [|y ys IHy]; cbn [count_eq]; [lia|].
    destruct (x =? y); lia. }
  lia.
Qed.

(** C6. For dice [a] and [b] with at least one face each, the loops of
    [winProb(a, b)] count in [wins] the ordered pairs [(x, y)], [x] a face
    of [a] and [y] a face of [b], with [x > y], and in [total] all the
    [|a.faces| * |b.faces|] pairs, and [winProb] returns the first divided
    by the second: the quotient as JavaScript computes it, which is the
    double nearest to the fraction and within [2^-53] of it.  A tied pair
    [(x, x)] is counted in the wins of neither side. *)
Theorem winProb_counts_strict_wins (a b : Dice) :
  faces a <> [] -> faces b <> [] ->
  winProb a b
  = double (inject_Z (countIf beats (pairs a b)) / inject_Z (pairSpace a b))
  /\ winProb_loops (faces a) (faces b) = (countIf beats (pairs a b), pairSpace a b)
  /\ (exists p : Q,
        winProb a b = Fin p
        /\ (inject_Z (countIf beats (pairs a b)) / inject_Z (pairSpace a b)
               - pow2 (-53) <= p)%Q
        /\ (p <= inject_Z (countIf beats (pairs a b)) / inject_Z (pairSpace a b)
                 + pow2 (-53))%Q)
  /\ (forall x y, In (x, y) (pairs a b) -> x = y ->
        ~ In (x, y) (filter beats (pairs a b))
        /\ ~ In (y, x) (filter beats (pairs b a))).
Proof.
  intros Ha Hb.
  pose proof (pairSpace_pos a b Ha Hb) as Hpos.
  pose proof (wins_bounds (faces a) (faces b)) as Hw. fold (pairSpace a b) in Hw.
  assert (Hcount : wins (faces a) (faces b) = countIf beats (pairs a b))
    by (unfold pairs; apply wins_filter).
  split; [|split; [|split]].
  - rewrite (winProb_counts a b Ha Hb), Hcount. reflexivity.
  - unfold winProb_loops. rewrite winProb_loops_counts, Hcount. reflexivity.
  - rewrite (winProb_counts a b Ha Hb), Hcount. rewrite Hcount in Hw.
    destruct (fraction_unit _ _ Hw Hpos) as [H0 H1].
    destruct (double_unit _ H0 H1) as (p & Hp & _ & _ & Hlo & Hhi).
    exists p. auto.
  - intros x y _ ->. split; intros Hin; apply filter_In in Hin;
      destruct Hin as [_ Hgt]; unfold beats in Hgt; cbn [fst snd] in Hgt;
      apply Z.gtb_lt in Hgt; lia.
Qed.

(** C7. For [A = [2,2,4,4,9,9]], [B = [1,1,6,6,8,8]] and
    [C = [3,3,5,5,7,7]], [winProb(A, B)], [winProb(B, C)] and
    [winProb(C, A)] are all [5/9] as JavaScript has it, the double
    [2501999792983609 / 2^52], which is more than 1/2: a cycle. *)
Theorem winProb_cycle_ABC :
  winProb Sample.dieA Sample.dieB = double (5 # 9)
  /\ winProb Sample.dieB Sample.dieC = double (5 # 9)
  /\ winProb Sample.dieC Sample.dieA = double (5 # 9)
  /\ isRational (winProb Sample.dieA Sample.dieB) (2501999792983609 # 4503599627370496)
  /\ isRational (winProb Sample.dieB Sample.dieC) (2501999792983609 # 4503599627370496)
  /\ isRational (winProb Sample.dieC Sample.dieA) (2501999792983609 # 4503599627370496)
  /\ (1 # 2 < 2501999792983609 # 4503599627370496)%Q.
Proof.
  do 6 (split; [vm_compute; reflexivity|]). reflexivity.
Qed.

(** C8, as the code has it.  For dice [a] and [b] with at least one face
    each (of equal face count in particular), every ordered pair is a win
    of [a], a win of [b] or a tie: the three counts add up to
    [|a.faces| * |b.faces|], and the three exact fractions to 1.
    [winProb] returns its fraction rounded to a double, so the three values
    add up to 1 up to rounding only: their exact sum is within
    [3 * 2^-53] of 1. *)
Theorem winProb_sum_with_ties (a b : Dice) :
  faces a <> [] -> faces b <> [] ->
  countIf beats (pairs a b) + countIf beats (pairs b a) + countIf tied (pairs a b)
  = pairSpace a b
  /\ (inject_Z (countIf beats (pairs a b)) / inject_Z (pairSpace a b)
      + inject_Z (countIf beats (pairs b a)) / inject_Z (pairSpace a b)
      + inject_Z (countIf tied (pairs a b)) / inject_Z (pairSpace a b) == 1)%Q
  /\ exists pab pba pt : Q,
       winProb a b = Fin pab /\ winProb b a = Fin pba /\ tieProb a b = Fin pt
       /\ (1 - 3 * pow2 (-53) <= pab + pba + pt)%Q
       /\ (pab + pba + pt <= 1 + 3 * pow2 (-53))%Q.
Proof.
  intros Ha Hb.
  pose proof (pairSpace_pos a b Ha Hb) as Hpos.
  assert (Hsym : pairSpace b a = pairSpace a b) by (unfold pairSpace; lia).
  pose proof (wins_draws_total (faces a) (faces b)) as Htot.
  fold (pairSpace a b) in Htot.
  pose proof (wins_bounds (faces a) (faces b)) as Hab.
  pose proof (wins_bounds (faces b) (faces a)) as Hba.
  pose proof (draws_bounds (faces a) (faces b)) as Ht.
  rewrite wins_filter in Htot, Hab. rewrite (wins_filter (faces b)) in Htot, Hba.
  rewrite draws_filter in Htot, Ht.
  fold (pairs a b) in Htot, Hab, Ht. fold (pairs b a) in Htot, Hba.
  set (wab := countIf beats (pairs a b)) in *.
  set (wba := countIf beats (pairs b a)) in *.
  set (t := countIf tied (pairs a b)) in *.
  set (n := pairSpace a b) in *.
  assert (HposQ : ~ (inject_Z n == 0)%Q).
  { intros E. unfold Qeq in E. cbn in E. lia. }
  assert (Hexact : (inject_Z wab / inject_Z n + inject_Z wba / inject_Z n
                    + inject_Z t / inject_Z n == 1)%Q).
  { transitivity ((inject_Z wab + inject_Z wba + inject_Z t) / inject_Z n)%Q.
    - field. exact HposQ.
    - rewrite <- !inject_Z_plus, Htot. field. exact HposQ. }
  split; [exact Htot|]. split; [exact Hexact|].
  destruct (fraction_unit wab n ltac:(lia) Hpos) as [A0 A1].
  destruct (fraction_unit wba n ltac:(lia) Hpos) as [B0 B1].
  destruct (fraction_unit t n ltac:(lia) Hpos) as [T0 T1].
  destruct (double_unit _ A0 A1) as (pab & Hpab & _ & _ & Alo & Ahi).
  destruct (double_unit _ B0 B1) as (pba & Hpba & _ & _ & Blo & Bhi).
  destruct (double_unit _ T0 T1) as (pt & Hpt & _ & _ & Tlo & Thi).
  exists pab, pba, pt.
  split.
  { rewrite (winProb_counts a b Ha Hb), wins_filter. exact Hpab. }
  split.
  { rewrite (winProb_counts b a Hb Ha), wins_filter, Hsym. exact Hpba. }
  split.
  { unfold tieProb, divZ. fold t n.
    destruct (Z.eqb_spec n 0) as [E|_]; [lia|exact Hpt]. }
  split; lra.
Qed.

(** ** Asking the user for a number *)

(** The loop is the same in both files, up to where the bound is kept. *)
Lemma getUserNumber_same (this : Part000.FairRandom) :
  Part000.getUserNumber this = Task3.getUserNumber (Part000.range this).
Proof. reflexivity. Qed.

Lemma getUserNumber_body_valid (max : Z) (a : string) (rest : list string) (w : world) :
  stdin w = a :: rest ->
  validAnswer max a = true ->
  Task3.getUserNumber_body max tt w
  = (Done (Break (Number_digits a)),
     mkWorld (entropy w) (randoms w) (ints w) rest
             (console w ++ [Question (AskNumber max)])).
Proof.
  intros Hin Hok. unfold validAnswer in Hok.
  apply andb_true_iff in Hok. destruct Hok as [Hdig Hrange].
  unfold Task3.getUserNumber_body, bind, question. cbn [emit stdin].
  rewrite Hin, Hdig, Hrange. reflexivity.
Qed.

Lemma getUserNumber_body_invalid (max : Z) (a : string) (rest : list string) (w : world) :
  stdin w = a :: rest ->
  validAnswer max a = false ->
  Task3.getUserNumber_body max tt w
  = (Done (Continue tt),
     mkWorld (entropy w) (randoms w) (ints w) rest
             (console w ++ [Question (AskNumber max); Log InvalidInput])).
Proof.
  intros Hin Hbad. unfold validAnswer in Hbad.
  unfold Task3.getUserNumber_body, bind, question. cbn [emit stdin].
  rewrite Hin.
  destruct (test_digits a); cbn [andb] in Hbad.
  - rewrite Hbad. io_step. rewrite <- app_assoc. reflexivity.
  - io_step. rewrite <- app_assoc. reflexivity.
Qed.

Lemma getUserNumber_iter (max : Z) (bad : list string) :
  forall (fuel : nat) (a : string) (rest : list string) (w : world),
    (List.length bad < fuel)%nat ->
    stdin w = bad ++ a :: rest ->
    Forall (fun b => validAnswer max b = false) bad ->
    validAnswer max a = true ->
    iter fuel (Task3.getUserNumber_body max) tt w
    = (Done (Number_digits a),
       mkWorld (entropy w) (randoms w) (ints w) rest
               (console w ++ retries max bad ++ [Question (AskNumber max)])).
Proof.
  induction bad as [|b bad IH]; intros fuel a rest w Hfuel Hin Hbad Hok.
  - destruct fuel as [|fuel]; [cbn in Hfuel; lia|].
    cbn [iter]. unfold bind at 1.
    rewrite (getUserNumber_body_valid max a rest w Hin Hok). reflexivity.
  - destruct fuel as [|fuel]; [cbn in Hfuel; lia|].
    inversion Hbad as [|? ? Hb Hbad']; subst.
    cbn [iter]. unfold bind at 1.
    rewrite (getUserNumber_body_invalid max b (bad ++ a :: rest) w Hin Hb).
    rewrite (IH fuel a rest); try assumption; try reflexivity.
    + cbn [entropy randoms ints console retries flat_map].
      rewrite <- !app_assoc. reflexivity.
    + cbn [List.length] in Hfuel. lia.
Qed.

(** The user's number is the first valid answer. *)
Lemma getUserNumber_run (max : Z) (bad : list string) (a : string)
    (rest : list string) (w : world) :
  stdin w = bad ++ a :: rest ->
  Forall (fun b => validAnswer max b = false) bad ->
  validAnswer max a = true ->
  Task3.getUserNumber max w
  = (Done (Number_digits a),
     mkWorld (entropy w) (randoms w) (ints w) rest
             (console w ++ retries max bad ++ [Question (AskNumber max)])).
Proof.
  intros Hin Hbad Hok. unfold Task3.getUserNumber, while_true.
  apply getUserNumber_iter; try assumption.
  unfold remaining. rewrite Hin, length_app. lia.
Qed.

(** Whatever is typed, a number that comes back is within the bound. *)
Lemma getUserNumber_range (max : Z) (w : world) :
  post (Task3.getUserNumber max) w (fun v _ => 0 <= v < max) (fun _ => True).
Proof.
  apply (post_while_true (Task3.getUserNumber_body max) (fun _ _ => True)); auto.
  intros [] w0 _. unfold post, Task3.getUserNumber_body, bind, question.
  cbn [emit stdin].
  destruct (stdin w0) as [|a rest]; [exact I|].
  destruct (test_digits a); cbn; [|exact I].
  destruct (Number_digits a >=? 0) eqn:Hge; cbn; [|exact I].
  destruct (Number_digits a <? max) eqn:Hlt; cbn; [|exact I].
  apply Z.geb_le in Hge. apply Z.ltb_lt in Hlt. lia.
Qed.

(** A number that comes back is the first valid answer among the lines
    typed. *)
Lemma getUserNumber_firstValid (max : Z) (w : world) :
  post (Task3.getUserNumber max) w
    (fun v _ => firstValid max (stdin w) = Some v) (fun _ => True).
Proof.
  apply (post_while_true (Task3.getUserNumber_body max)
           (fun _ w0 => firstValid max (stdin w0) = firstValid max (stdin w))); auto.
  intros [] w0 Hinv. unfold post.
  destruct (stdin w0) as [|a rest] eqn:Hin.
  - unfold Task3.getUserNumber_body, bind, question. io_step. rewrite Hin. exact I.
  - destruct (validAnswer max a) eqn:Hok.
    + rewrite (getUserNumber_body_valid max a rest w0 Hin Hok).
      rewrite <- Hinv. cbn [firstValid]. rewrite Hok. reflexivity.
    + rewrite (getUserNumber_body_invalid max a rest w0 Hin Hok).
      cbn [stdin]. rewrite <- Hinv. cbn [firstValid]. rewrite Hok. reflexivity.
Qed.

(** ** One session *)

Lemma getResult_run (this : Part000.FairRandom) (bad : list string) (a : string)
    (rest : list string) (w : world) :
  stdin w = bad ++ a :: rest ->
  Forall (fun b => validAnswer (Part000.range this) b = false) bad ->
  validAnswer (Part000.range this) a = true ->
  Part000.getResult this w
  = (Done (Z.rem (Number_digits a + Part000.number this) (Part000.range this)),
     mkWorld (entropy w) (randoms w) (ints w) rest
       (console w
          ++ Log (HMAC (Part000.hmac this))
          :: retries (Part000.range this) bad
          ++ [Question (AskNumber (Part000.range this));
              Log (KeyHex (toHex (Part000.key this)));
              Log (ComputerNumber (Part000.number this))])).
Proof.
  intros Hin Hbad Hok.
  unfold Part000.getResult, Part000.showHMAC, Part000.reveal.
  unfold bind at 1. unfold log at 1.
  rewrite getUserNumber_same.
  unfold bind at 1.
  rewrite (getUserNumber_run (Part000.range this) bad a rest
             (emit (Log (HMAC (Part000.hmac this))) w) Hin Hbad Hok).
  unfold bind. io_step.
  rewrite <- !app_assoc. reflexivity.
Qed.

(** C2. For every session over a range [r >= 1] (and at most [2^32], the
    bound of the sampler that makes the secret) with secret [s] in
    [[0, r)], when the first valid answer of the user is [v] (a decimal
    numeral with [v] in [[0, r)]), [getResult] returns [(s + v) mod r],
    which lies in [[0, r)]. *)
Theorem getResult_is_sum_mod_range (this : Part000.FairRandom)
    (bad : list string) (a : string) (rest : list string) (w : world) :
  1 <= Part000.range this <= 2 ^ 32 ->
  0 <= Part000.number this < Part000.range this ->
  stdin w = bad ++ a :: rest ->
  Forall (fun b => validAnswer (Part000.range this) b = false) bad ->
  test_digits a = true ->
  0 <= Number_digits a < Part000.range this ->
  fst (Part000.getResult this w)
  = Done ((Part000.number this + Number_digits a) mod Part000.range this)
  /\ 0 <= (Part000.number this + Number_digits a) mod Part000.range this
       < Part000.range this
  /\ stdin (snd (Part000.getResult this w)) = rest.
Proof.
  intros Hr Hs Hin Hbad Hdig Hv.
  assert (Hok : validAnswer (Part000.range this) a = true).
  { unfold validAnswer. rewrite Hdig. cbn [andb].
    apply andb_true_iff. split; [apply Z.geb_le | apply Z.ltb_lt]; lia. }
  rewrite (getResult_run this bad a rest w Hin Hbad Hok). cbn [fst snd stdin].
  split; [|split].
  - rewrite Z.rem_mod_nonneg by lia. rewrite Z.add_comm. reflexivity.
  - apply Z.mod_pos_bound. lia.
  - reflexivity.
Qed.

(** ** What the constructor returns, on any input *)

(** The sampler reads no typed line. *)
Lemma uniformRandom_stdin (range : Z) (w : world) :
  stdin (snd (Part000.uniformRandom range w)) = stdin w.
Proof.
  pose proof (post_while_true (Part000.uniformRandom_body range)
                (fun _ w0 => stdin w0 = stdin w)
                (fun _ w0 => stdin w0 = stdin w)
                (fun w0 => stdin w0 = stdin w)) as Hloop.
  unfold Part000.uniformRandom.
  assert (Hpost : post (while_true (Part000.uniformRandom_body range) tt) w
                    (fun _ w0 => stdin w0 = stdin w) (fun w0 => stdin w0 = stdin w)).
  { apply Hloop; auto.
    intros [] w0 Hinv.
    unfold post, Part000.uniformRandom_body, bind, randomBytes.
    destruct (List.length (entropy w0) <? 4)%nat; [exact Hinv|].
    destruct (BigInt_0x (toHex (firstn 4 (entropy w0)))); io_step; [|exact Hinv].
    unfold Part000.bigint_rem.
    destruct (range =? 0); io_step; [exact Hinv|].
    destruct (_ <? _); io_step; exact Hinv. }
  unfold post in Hpost.
  destruct (while_true (Part000.uniformRandom_body range) tt w) as [[v| | |] w'];
    exact Hpost.
Qed.

Section Constructor.

Variable hmac_sha3_256 : list byte -> list byte -> list byte.

(** What [new FairRandom(range)] builds: the secret is an unsigned 32-bit
    number, below [range] when [range >= 1], and the commitment is the
    MAC of that secret under the key of the session. *)
Lemma new_FairRandom_post (range : Z) (w : world) :
  post (Part000.new_FairRandom hmac_sha3_256 range) w
    (fun this _ =>
       Part000.range this = range
       /\ 0 <= Part000.number this < 2 ^ 32
       /\ (1 <= range -> Part000.number this < range)
       /\ Part000.calcHMAC hmac_sha3_256 (Part000.key this) (Part000.number this)
          = Done (Part000.hmac this))
    (fun _ => True).
Proof.
  unfold Part000.new_FairRandom.
  apply post_bind.
  unfold post at 1. destruct (randomBytes 32 w) as [[k| | |] w1]; try exact I.
  apply post_bind.
  eapply post_weaken; [apply uniformRandom_post | | auto].
  intros v w2 [Hv Hlt]. cbv beta.
  apply post_bind. unfold post at 1, lift.
  destruct (Part000.calcHMAC hmac_sha3_256 k v) as [h| | |] eqn:Hh; try exact I.
  apply post_ret. cbn. auto.
Qed.

(** The constructor reads no typed line. *)
Lemma new_FairRandom_stdin (range : Z) (w : world) :
  stdin (snd (Part000.new_FairRandom hmac_sha3_256 range w)) = stdin w.
Proof.
  unfold Part000.new_FairRandom, bind, randomBytes.
  destruct (List.length (entropy w) <? 32)%nat; [reflexivity|].
  match goal with
  | |- context [Part000.uniformRandom range ?w1] =>
      pose proof (uniformRandom_stdin range w1) as Hs;
      destruct (Part000.uniformRandom range w1) as [[v| | |] w2]
  end; cbn [snd stdin] in *; try exact Hs.
  unfold lift. destruct (Part000.calcHMAC hmac_sha3_256 _ v); exact Hs.
Qed.

(** C9. In the turn-order phase of the commit-reveal variant the deciding
    value is [(frp.number + frp.getResult()) mod 2], where [getResult]
    already returns [(userNum + frp.number) mod 2]: it equals
    [userNum mod 2], whatever secret number the session [frp] holds, and
    [userNum] is the first valid answer among the lines the user types. *)
Theorem decideFirst_ignores_secret (w w0 w1 : world) (frp : Part000.FairRandom)
    (userNum : Z) :
  Part000.new_FairRandom hmac_sha3_256 2 (emit (Log Deciding) w) = (Done frp, w0) ->
  Part000.getUserNumber frp (emit (Log (HMAC (Part000.hmac frp))) w0)
  = (Done userNum, w1) ->
  Z.rem (Part000.number frp + Z.rem (userNum + Part000.number frp) 2) 2 = userNum mod 2
  /\ firstValid 2 (stdin w) = Some userNum
  /\ Part000.decideFirst hmac_sha3_256 w
     = (Done (userNum mod 2 =? 0),
        emits [ Log (KeyHex (toHex (Part000.key frp)));
                Log (ComputerNumber (Part000.number frp));
                Log (ResultMod2 (userNum mod 2));
                Log (WhoFirst (userNum mod 2 =? 0)) ] w1).
Proof.
  intros Hnew Hask.
  pose proof (post_done _ _ _ _ _ _ (new_FairRandom_post 2 _) Hnew)
    as (Hrange & Hnum & _ & _).
  pose proof (getUserNumber_range (Part000.range frp) (emit (Log (HMAC (Part000.hmac frp))) w0))
    as Huser.
  rewrite <- getUserNumber_same in Huser.
  pose proof (post_done _ _ _ _ _ _ Huser Hask) as Hu. cbv beta in Hu.
  assert (Hsum : Z.rem (Part000.number frp + Z.rem (userNum + Part000.number frp) 2) 2
                 = userNum mod 2).
  { rewrite !Z.rem_mod_nonneg; try lia.
    - rewrite Zplus_mod_idemp_r.
      replace (Part000.number frp + (userNum + Part000.number frp))
        with (userNum + Part000.number frp * 2) by lia.
      apply Z_mod_plus_full.
    - assert (0 <= Z.rem (userNum + Part000.number frp) 2)
        by (apply Z.rem_nonneg; lia).
      lia. }
  split; [exact Hsum|].
  split.
  { pose proof (getUserNumber_firstValid (Part000.range frp)
                  (emit (Log (HMAC (Part000.hmac frp))) w0)) as Hfirst.
    rewrite <- getUserNumber_same in Hfirst.
    pose proof (post_done _ _ _ _ _ _ Hfirst Hask) as Hv. cbv beta in Hv.
    pose proof (new_FairRandom_stdin 2 (emit (Log Deciding) w)) as Hs.
    rewrite Hnew in Hs. cbn [snd emit stdin] in Hs, Hv.
    rewrite Hrange, Hs in Hv. exact Hv. }
  unfold Part000.decideFirst.
  unfold bind at 1. unfold log at 1.
  unfold bind at 1. rewrite Hnew.
  unfold bind at 1. unfold Part000.getResult.
  unfold bind at 1. unfold Part000.showHMAC at 1, log at 1.
  unfold bind at 1. rewrite Hask.
  unfold Part000.reveal, bind. io_step.
  rewrite Hrange, Hsum.
  rewrite <- !app_assoc. reflexivity.
Qed.

End Constructor.

(** ** Code that takes no step of the protocol *)

(** The menus, the table, the sampler, the constructor and the two
    selections print no step of the protocol and no report of the dice
    chosen. *)
Section Quiet.

Variable P : event -> Prop.
Hypothesis quiet_in_P : forall e, quietEvent e -> P e.

Ltac quiet := apply quiet_in_P; split; [exact I | intros []].

Lemma quiet_printDice (dice : list Dice) : emitsOnly P (printDice dice).
Proof.
  apply emitsOnly_logAll. apply Forall_map, Forall_forall. intros p _. quiet.
Qed.

Lemma quiet_printProbabilityTable (dice : list Dice) :
  emitsOnly P (printProbabilityTable dice).
Proof.
  unfold printProbabilityTable.
  repeat (apply emitsOnly_bind; [|intros _]);
    try (apply emitsOnly_log; quiet).
  apply emitsOnly_logAll. apply Forall_map, Forall_forall. intros p _. quiet.
Qed.

Lemma quiet_menu (dice : list Dice) (exclude : option Z) :
  Forall (fun m => P (Log m)) (menu dice exclude).
Proof.
  apply Forall_map, Forall_forall. intros p _.
  destruct (isExcluded (fst p) exclude); quiet.
Qed.

Lemma quiet_selectDice (Number : string -> jsnum) (dice : list Dice)
    (exclude : option Z) :
  emitsOnly P (selectDice Number dice exclude).
Proof.
  apply emitsOnly_while_true. intros closed.
  unfold selectDice_body.
  apply emitsOnly_bind; [apply emitsOnly_log; quiet|intros _].
  apply emitsOnly_bind; [apply emitsOnly_logAll, quiet_menu|intros _].
  apply emitsOnly_bind; [apply emitsOnly_log; quiet|intros _].
  apply emitsOnly_bind; [apply emitsOnly_log; quiet|intros _].
  apply emitsOnly_bind; [apply emitsOnly_question; quiet|intros ans].
  destruct (String.eqb ans "e"); [apply emitsOnly_exit|].
  destruct (String.eqb ans "h").
  - apply emitsOnly_bind; [apply quiet_printProbabilityTable|intros _].
    apply emitsOnly_ret.
  - destruct (negb (isNaN (sub1 (Number ans))) && geZ (sub1 (Number ans)) 0
              && ltZ (sub1 (Number ans)) (Z.of_nat (List.length dice))
              && differs (sub1 (Number ans)) exclude).
    + apply emitsOnly_ret.
    + apply emitsOnly_bind; [apply emitsOnly_log; quiet|intros _].
      apply emitsOnly_ret.
Qed.

Lemma quiet_uniformRandom (range : Z) : emitsOnly P (Part000.uniformRandom range).
Proof.
  apply emitsOnly_while_true. intros [].
  unfold Part000.uniformRandom_body, Part000.bigint_rem.
  apply emitsOnly_bind; [apply emitsOnly_randomBytes|intros bytes].
  apply emitsOnly_bind.
  { destruct (BigInt_0x (toHex bytes)); [apply emitsOnly_ret|apply emitsOnly_throw]. }
  intros rnd.
  apply emitsOnly_bind.
  { destruct (range =? 0); [apply emitsOnly_throw|apply emitsOnly_ret]. }
  intros m.
  destruct (rnd <? Part000.span - m); [|apply emitsOnly_ret].
  apply emitsOnly_bind; [|intros r; apply emitsOnly_ret].
  destruct (range =? 0); [apply emitsOnly_throw|apply emitsOnly_ret].
Qed.

Lemma quiet_new_FairRandom (mac : list byte -> list byte -> list byte) (range : Z) :
  emitsOnly P (Part000.new_FairRandom mac range).
Proof.
  unfold Part000.new_FairRandom.
  apply emitsOnly_bind; [apply emitsOnly_randomBytes|intros k].
  apply emitsOnly_bind; [apply quiet_uniformRandom|intros v].
  apply emitsOnly_bind; [apply emitsOnly_lift|intros h].
  apply emitsOnly_ret.
Qed.

Lemma quiet_dieAt (dice : list Dice) (i : option Z) : emitsOnly P (dieAt dice i).
Proof.
  unfold dieAt. destruct i as [i|]; [|apply emitsOnly_throw].
  destruct (index dice i); [apply emitsOnly_ret|apply emitsOnly_throw].
Qed.

Lemma quiet_randomBelow (n : Z) : emitsOnly P (Part000.randomBelow n).
Proof.
  unfold Part000.randomBelow.
  apply emitsOnly_bind; [apply emitsOnly_Math_random|intros x; apply emitsOnly_ret].
Qed.

Lemma quiet_chooseDice_part000 (Number : string -> jsnum) (dice : list Dice)
    (userFirst : bool) :
  emitsOnly P (Part000.chooseDice Number dice userFirst).
Proof.
  unfold Part000.chooseDice. destruct userFirst.
  - apply emitsOnly_bind; [apply quiet_selectDice|intros u].
    apply emitsOnly_bind; [apply quiet_randomBelow|intros k].
    apply emitsOnly_bind; [apply emitsOnly_log; quiet|intros _].
    apply emitsOnly_ret.
  - apply emitsOnly_bind; [apply quiet_randomBelow|intros c].
    apply emitsOnly_bind; [apply emitsOnly_log; quiet|intros _].
    apply emitsOnly_bind; [apply quiet_selectDice|intros u].
    apply emitsOnly_ret.
Qed.

Lemma quiet_chooseDice_task3 (Number : string -> jsnum) (dice : list Dice)
    (userFirst : bool) :
  emitsOnly P (Task3.chooseDice Number dice userFirst).
Proof.
  unfold Task3.chooseDice. destruct userFirst.
  - apply emitsOnly_bind; [apply quiet_selectDice|intros u].
    apply emitsOnly_bind; [apply emitsOnly_randomInt|intros k].
    apply emitsOnly_bind; [apply emitsOnly_log; quiet|intros _].
    apply emitsOnly_ret.
  - apply emitsOnly_bind; [apply emitsOnly_randomInt|intros c].
    apply emitsOnly_bind; [apply emitsOnly_log; quiet|intros _].
    apply emitsOnly_bind; [apply quiet_selectDice|intros u].
    apply emitsOnly_ret.
Qed.

End Quiet.

Lemma quiet_neutral (e : event) : quietEvent e -> neutral e.
Proof. intros [H _]. exact H. Qed.

Lemma quiet_plain (e : event) : quietEvent e -> plain e.
Proof.
  intros [H _]. unfold plain. destruct e as [m|p|err]; [destruct m|destruct p|]; cbn in *; tauto.
Qed.

(** ** The order of the protocol on the console *)

Lemma byteOfZ_byte (b : byte) : byteOfZ (Z.of_N (Byte.to_N b)) = b.
Proof. destruct b; reflexivity. Qed.

(** Reading back a key printed in hexadecimal gives the key. *)
Lemma fromHex_toHex (bs : list byte) : fromHex (toHex bs) = Some bs.
Proof.
  induction bs as [|b bs IH]; [reflexivity|].
  destruct (hex_pair b) as (hi & lo & Hhi & Hlo & Hsum).
  cbn [toHex fromHex]. rewrite Hhi, Hlo, IH, Hsum, byteOfZ_byte. reflexivity.
Qed.

Section Order.

Variable mac : list byte -> list byte -> list byte.
Variable Number : string -> jsnum.

Lemma run_app (tr1 tr2 : list event) :
  forall st,
    run mac st (tr1 ++ tr2)
    = match run mac st tr1 with
      | Some st' => run mac st' tr2
      | None => None
      end.
Proof.
  induction tr1 as [|e tr1 IH]; intros st; [reflexivity|].
  cbn [app run]. destruct (advance mac st e); [apply IH|reflexivity].
Qed.

Lemma advance_neutral (st : phase) (e : event) : neutral e -> advance mac st e = Some st.
Proof.
  destruct e as [m|p|err]; [destruct m|destruct p|]; cbn; intros H;
    try reflexivity; destruct H.
Qed.

Lemma run_neutral (es : list event) (st : phase) :
  Forall neutral es -> run mac st es = Some st.
Proof.
  induction 1 as [|e es He _ IH]; [reflexivity|].
  cbn [run]. rewrite (advance_neutral st e He). exact IH.
Qed.

Lemma inPhase_accepted (st : phase) (w : world) : inPhase mac st w -> accepted mac w.
Proof. intros H. exists st. exact H. Qed.

Lemma inPhase_emit (st st' : phase) (e : event) (w : world) :
  inPhase mac st w -> advance mac st e = Some st' -> inPhase mac st' (emit e w).
Proof.
  unfold inPhase. intros Hst Hadv. cbn [emit console].
  rewrite run_app, Hst. cbn [run]. rewrite Hadv. reflexivity.
Qed.

(** Code that only emits neutral events leaves the session where it is,
    however it ends. *)
Lemma neutral_post {A : Type} (m : M A) (st : phase) (w : world) :
  emitsOnly neutral m -> inPhase mac st w ->
  post m w (fun _ w' => inPhase mac st w') (fun w' => inPhase mac st w').
Proof.
  intros Hm Hst. destruct (Hm w) as (es & Hes & Hneutral).
  assert (H : inPhase mac st (snd (m w))).
  { unfold inPhase. rewrite Hes, run_app, Hst. apply run_neutral, Hneutral. }
  unfold post. destruct (m w) as [[a| | |] w']; exact H.
Qed.

Lemma neutral_post_accepted {A : Type} (m : M A) (st : phase) (w : world) :
  emitsOnly neutral m -> inPhase mac st w ->
  post m w (fun _ w' => inPhase mac st w') (accepted mac).
Proof.
  intros Hm Hst.
  eapply post_weaken; [apply (neutral_post m st w Hm Hst) | auto |].
  intros w'. apply inPhase_accepted.
Qed.

Lemma log_post (m : message) (st st' : phase) (w : world) :
  inPhase mac st w -> advance mac st (Log m) = Some st' ->
  post (log m) w (fun _ w' => inPhase mac st' w') (accepted mac).
Proof. intros Hst Hadv. unfold post, log. eapply inPhase_emit; eauto. Qed.

(** The request for the counterpart's value needs the commitment on the
    console; it may be repeated. *)
Lemma getUserNumber_post (max : Z) (h : string) (w : world) :
  inPhase mac (Committed h) w \/ inPhase mac (Awaiting h) w ->
  post (Task3.getUserNumber max) w (fun _ w' => inPhase mac (Awaiting h) w') (accepted mac).
Proof.
  intros Hw.
  apply (post_while_true (Task3.getUserNumber_body max)
           (fun _ w0 => inPhase mac (Committed h) w0 \/ inPhase mac (Awaiting h) w0)).
  - intros [] w0 Hw0.
    assert (Hq : inPhase mac (Awaiting h) (emit (Question (AskNumber max)) w0)).
    { destruct Hw0 as [H|H]; eapply inPhase_emit; eauto. }
    unfold post, Task3.getUserNumber_body, bind, question. cbn [emit stdin].
    destruct (stdin w0) as [|a rest].
    + eapply inPhase_accepted. exact Hq.
    + assert (Hq' : inPhase mac (Awaiting h)
                (mkWorld (entropy w0) (randoms w0) (ints w0) rest
                         (console w0 ++ [Question (AskNumber max)]))) by exact Hq.
      assert (Hbad : inPhase mac (Awaiting h)
                (emit (Log InvalidInput)
                   (mkWorld (entropy w0) (randoms w0) (ints w0) rest
                            (console w0 ++ [Question (AskNumber max)]))))
        by (eapply inPhase_emit; [exact Hq'|reflexivity]).
      destruct (test_digits a); [|io_step; right; exact Hbad].
      destruct ((Number_digits a >=? 0) && (Number_digits a <? max));
        [io_step; exact Hq' | io_step; right; exact Hbad].
  - intros _ w0 [H|H]; eapply inPhase_accepted; exact H.
  - exact Hw.
Qed.

Lemma showHMAC_post (this : Part000.FairRandom) (w : world) :
  inPhase mac Idle w ->
  post (Part000.showHMAC this) w
    (fun _ w' => inPhase mac (Committed (Part000.hmac this)) w') (accepted mac).
Proof. intros H. apply (log_post _ Idle _ w H). reflexivity. Qed.

(** The key and the number a sealed session reveals verify against its
    commitment. *)
Lemma reveal_post (this : Part000.FairRandom) (w : world) :
  sealed mac this ->
  inPhase mac (Awaiting (Part000.hmac this)) w ->
  post (Part000.reveal this) w (fun _ w' => inPhase mac Idle w') (accepted mac).
Proof.
  intros Hsealed H. unfold Part000.reveal.
  eapply post_seq.
  - apply (log_post _ _ (KeyShown (Part000.hmac this) (Part000.key this)) w H).
    cbn. rewrite fromHex_toHex. reflexivity.
  - intros ? w1 H1. apply (log_post _ _ Idle w1 H1).
    cbn. unfold verify. rewrite Hsealed, String.eqb_refl. reflexivity.
Qed.

(** Commitment, request, reveal: the three steps of a session, as
    [getResult] runs them. *)
Lemma getResult_post (this : Part000.FairRandom) (w : world) :
  sealed mac this ->
  inPhase mac Idle w ->
  post (Part000.getResult this) w (fun _ w' => inPhase mac Idle w') (accepted mac).
Proof.
  intros Hsealed H. unfold Part000.getResult.
  eapply post_seq; [apply showHMAC_post; exact H|].
  intros ? w1 H1.
  eapply post_seq; [rewrite getUserNumber_same; apply getUserNumber_post; left; exact H1|].
  intros v w2 H2.
  eapply post_seq; [apply reveal_post; [exact Hsealed|exact H2]|].
  intros ? w3 H3. apply post_ret. exact H3.
Qed.

(** The constructor returns a sealed session and prints nothing. *)
Lemma new_FairRandom_sealed (range : Z) (st : phase) (w : world) :
  inPhase mac st w ->
  post (Part000.new_FairRandom mac range) w
    (fun this w' => sealed mac this /\ inPhase mac st w') (accepted mac).
Proof.
  intros Hst.
  pose proof (new_FairRandom_post mac range w) as Hvalue.
  pose proof (neutral_post_accepted _ st w
                (quiet_new_FairRandom neutral mac range) Hst) as Hphase.
  unfold post in *.
  destruct (Part000.new_FairRandom mac range w) as [[this| | |] w']; auto.
  split; [apply Hvalue | exact Hphase].
Qed.

Lemma decideFirst_post (w : world) :
  inPhase mac Idle w ->
  post (Part000.decideFirst mac) w (fun _ w' => inPhase mac Idle w') (accepted mac).
Proof.
  intros H. unfold Part000.decideFirst.
  eapply post_seq; [apply (log_post _ Idle Idle w H); reflexivity|].
  intros ? w1 H1.
  eapply post_seq; [apply new_FairRandom_sealed; exact H1|].
  intros frp w2 [Hfrp H2].
  eapply post_seq; [apply getResult_post; [exact Hfrp|exact H2]|].
  intros v w3 H3.
  eapply post_seq; [apply (log_post _ Idle Idle w3 H3); reflexivity|].
  intros ? w4 H4.
  eapply post_seq; [apply (log_post _ Idle Idle w4 H4); reflexivity|].
  intros ? w5 H5. apply post_ret. exact H5.
Qed.

Lemma rollDice_post (dice : list Dice) (userDice : jsnum) (compDice : option Z)
    (w : world) :
  inPhase mac Idle w ->
  post (Part000.rollDice mac dice userDice compDice) w
    (fun _ w' => inPhase mac Idle w') (accepted mac).
Proof.
  intros H. unfold Part000.rollDice.
  eapply post_seq; [apply (log_post _ Idle Idle w H); reflexivity|].
  intros ? w1 H1.
  eapply post_seq; [apply neutral_post_accepted; [apply (quiet_dieAt neutral)|exact H1]|].
  intros ud w2 H2.
  eapply post_seq; [apply new_FairRandom_sealed; exact H2|].
  intros userRoll w3 [HuserRoll H3].
  eapply post_seq; [apply getResult_post; [exact HuserRoll|exact H3]|].
  intros userRollRes w4 H4.
  eapply post_seq; [apply (log_post _ Idle Idle w4 H4); reflexivity|].
  intros ? w5 H5.
  eapply post_seq; [apply (log_post _ Idle Idle w5 H5); reflexivity|].
  intros ? w6 H6.
  eapply post_seq; [apply neutral_post_accepted; [apply (quiet_dieAt neutral)|exact H6]|].
  intros cd w7 H7.
  eapply post_seq; [apply new_FairRandom_sealed; exact H7|].
  intros compRoll w8 [HcompRoll H8].
  eapply post_seq; [apply showHMAC_post; exact H8|].
  intros ? w9 H9.
  eapply post_seq; [rewrite getUserNumber_same; apply getUserNumber_post; left; exact H9|].
  intros compUserNum w10 H10.
  eapply post_seq; [apply reveal_post; [exact HcompRoll|exact H10]|].
  intros ? w11 H11.
  eapply post_seq; [apply (log_post _ Idle Idle w11 H11); reflexivity|].
  intros ? w12 H12.
  apply (log_post _ Idle Idle w12 H12).
  unfold verdict.
  destruct (faceGt _ _); [reflexivity|].
  destruct (faceGt _ _); reflexivity.
Qed.

Lemma play_post (dice : list Dice) (w : world) :
  inPhase mac Idle w ->
  post (Part000.play mac Number dice) w
    (fun _ w' => inPhase mac Idle w') (accepted mac).
Proof.
  intros H. unfold Part000.play.
  eapply post_seq; [apply (log_post _ Idle Idle w H); reflexivity|].
  intros ? w1 H1.
  eapply post_seq;
    [apply neutral_post_accepted; [apply (quiet_printDice neutral quiet_neutral)|exact H1]|].
  intros ? w2 H2.
  eapply post_seq; [apply decideFirst_post; exact H2|].
  intros userFirst w3 H3.
  eapply post_seq;
    [apply neutral_post_accepted;
       [apply (quiet_chooseDice_part000 neutral quiet_neutral)|exact H3]|].
  intros [userDice compDice] w4 H4.
  eapply post_seq; [apply (log_post _ Idle Idle w4 H4); reflexivity|].
  intros ? w5 H5.
  eapply post_seq; [apply (log_post _ Idle Idle w5 H5); reflexivity|].
  intros ? w6 H6.
  apply rollDice_post. exact H6.
Qed.

Lemma play_accepted (dice : list Dice) (w : world) :
  console w = [] ->
  accepted mac (snd (Part000.play mac Number dice w)).
Proof.
  intros Hempty.
  assert (H : inPhase mac Idle w) by (unfold inPhase; rewrite Hempty; reflexivity).
  pose proof (play_post dice w H) as Hpost. unfold post in Hpost.
  destruct (Part000.play mac Number dice w) as [[[]| | |] w'];
    cbn [snd]; [eapply inPhase_accepted; exact Hpost | exact Hpost ..].
Qed.

(** While a session is open (commitment [h] shown, no reveal yet) the
    console ends with that commitment and events within the session. *)
Lemma run_open_session (tr : list event) :
  forall st h,
    run mac Idle tr = Some st ->
    st = Committed h \/ st = Awaiting h ->
    exists before since,
      tr = before ++ Log (HMAC h) :: since
      /\ Forall withinSession since.
Proof.
  induction tr as [|e tr IH] using rev_ind; intros st h Hrun Hst.
  - cbn in Hrun. destruct Hst; congruence.
  - rewrite run_app in Hrun.
    destruct (run mac Idle tr) as [st0|] eqn:Hrun0; [|discriminate].
    cbn [run] in Hrun.
    destruct (advance mac st0 e) as [st1|] eqn:Hadv; [|discriminate].
    injection Hrun as <-.
    assert (Hkeep : (st0 = Committed h \/ st0 = Awaiting h) -> withinSession e ->
                    exists before since,
                      tr ++ [e] = before ++ Log (HMAC h) :: since
                      /\ Forall withinSession since).
    { intros Hst0 He.
      destruct (IH st0 h eq_refl Hst0) as (before & since & -> & Hsince).
      exists before, (since ++ [e]).
      split; [rewrite <- app_assoc; reflexivity|].
      apply Forall_app. split; [exact Hsince|]. constructor; [exact He|constructor]. }
    assert (Hsame : st1 = st0 -> withinSession e ->
                    exists before since,
                      tr ++ [e] = before ++ Log (HMAC h) :: since
                      /\ Forall withinSession since).
    { intros -> He. apply Hkeep; assumption. }
    destruct e as [m|p|err].
    + destruct m; cbn in Hadv;
        try (injection Hadv as Hadv; apply Hsame; [congruence | split; intros []]).
      * (* the commitment *)
        destruct st0; try discriminate. injection Hadv as <-.
        destruct Hst as [Hst|Hst]; [|discriminate]. injection Hst as ->.
        exists tr, []. split; [reflexivity|constructor].
      * (* the key *)
        destruct st0; try discriminate.
        destruct (fromHex k); [|discriminate]. injection Hadv as <-.
        destruct Hst; discriminate.
      * (* the number *)
        destruct st0; try discriminate.
        destruct (verify mac h0 n key); [|discriminate].
        injection Hadv as <-. destruct Hst; discriminate.
    + destruct p; cbn in Hadv.
      * destruct st0 as [|h0|h0|h0 k0]; try discriminate; injection Hadv as <-;
          (destruct Hst as [Hst|Hst]; [discriminate|]); injection Hst as ->;
          apply Hkeep; auto; split; intros [].
      * injection Hadv as Hadv. apply Hsame; [congruence | split; intros []].
    + cbn in Hadv. injection Hadv as Hadv.
      apply Hsame; [congruence | split; intros []].
Qed.

(** On an accepted console every request for a number comes after a
    commitment, with no reveal and no other commitment in between. *)
Lemma request_after_commitment (tr : list event) :
  protocol_ok mac tr = true ->
  forall before max after,
    tr = before ++ Question (AskNumber max) :: after ->
    exists h shown since,
      before = shown ++ Log (HMAC h) :: since
      /\ Forall withinSession since.
Proof.
  unfold protocol_ok. intros Hok before max after ->.
  rewrite run_app in Hok.
  destruct (run mac Idle before) as [st|] eqn:Hrun; [|discriminate].
  cbn [run] in Hok.
  destruct st as [|h|h|h k]; cbn in Hok; try discriminate.
  - exists h. apply (run_open_session before (Committed h) h Hrun). left. reflexivity.
  - exists h. apply (run_open_session before (Awaiting h) h Hrun). right. reflexivity.
Qed.

(** On an accepted console the key and the number of every reveal verify
    against the commitment of the session they close. *)
Lemma reveal_verifies (tr : list event) :
  protocol_ok mac tr = true ->
  forall before k n after,
    tr = before ++ Log (KeyHex k) :: Log (ComputerNumber n) :: after ->
    exists h key shown since,
      before = shown ++ Log (HMAC h) :: since
      /\ Forall withinSession since
      /\ fromHex k = Some key
      /\ verify mac h n key = true.
Proof.
  unfold protocol_ok. intros Hok before k n after ->.
  rewrite run_app in Hok.
  destruct (run mac Idle before) as [st|] eqn:Hrun; [|discriminate].
  cbn [run advance] in Hok.
  destruct st as [|h|h|h k0]; try discriminate.
  destruct (fromHex k) as [key|] eqn:Hkey; [|discriminate].
  destruct (verify mac h n key) eqn:Hverify; [|discriminate].
  destruct (run_open_session before (Awaiting h) h Hrun (or_intror eq_refl))
    as (shown & since & Hbefore & Hsince).
  exists h, key, shown, since. auto.
Qed.

Lemma neutral_withinSession (e : event) : neutral e -> withinSession e.
Proof.
  destruct e as [m|p|err]; [destruct m|destruct p|]; cbn; intros H;
    try (destruct H); split; intros [].
Qed.

(** What moves a session on: any other event that is accepted leaves the
    phase as it is. *)
Lemma advance_stays (st st' : phase) (e : event) :
  advance mac st e = Some st' ->
  neutral e -> st' = st.
Proof.
  intros Hadv He. rewrite (advance_neutral st e He) in Hadv. congruence.
Qed.

(** Once the key is shown, the console goes on to the number, which
    verifies. *)
Lemma run_from_KeyShown (tr : list event) (h : string) (key : list byte) :
  run mac (KeyShown h key) tr = Some Idle ->
  exists shown n rest,
    tr = shown ++ Log (ComputerNumber n) :: rest
    /\ Forall neutral shown
    /\ verify mac h n key = true.
Proof.
  induction tr as [|e tr IH]; intros Hrun; [discriminate|].
  cbn [run] in Hrun.
  destruct (advance mac (KeyShown h key) e) as [st|] eqn:Hadv; [|discriminate].
  assert (Hstay : neutral e ->
            exists shown n rest,
              e :: tr = shown ++ Log (ComputerNumber n) :: rest
              /\ Forall neutral shown /\ verify mac h n key = true).
  { intros He. rewrite (advance_stays _ _ _ Hadv He) in Hrun.
    destruct (IH Hrun) as (shown & n & rest & -> & Hshown & Hv).
    exists (e :: shown), n, rest. split; [reflexivity|]. split; [|exact Hv].
    constructor; assumption. }
  destruct e as [m|p|err]; [destruct m|destruct p|];
    try (apply Hstay; exact I); cbn in Hadv; try discriminate.
  destruct (verify mac h n key) eqn:Hv; [|discriminate].
  exists [], n, tr. split; [reflexivity|]. split; [constructor|exact Hv].
Qed.

(** Once the number is requested, the console goes on to the key and the
    number. *)
Lemma run_from_Awaiting (tr : list event) (h : string) :
  run mac (Awaiting h) tr = Some Idle ->
  exists answered k key shown n rest,
    tr = answered ++ Log (KeyHex k) :: shown ++ Log (ComputerNumber n) :: rest
    /\ Forall withinSession answered
    /\ fromHex k = Some key
    /\ Forall neutral shown
    /\ verify mac h n key = true.
Proof.
  induction tr as [|e tr IH]; intros Hrun; [discriminate|].
  cbn [run] in Hrun.
  destruct (advance mac (Awaiting h) e) as [st|] eqn:Hadv; [|discriminate].
  assert (Hstay : st = Awaiting h -> withinSession e ->
            exists answered k key shown n rest,
              e :: tr = answered ++ Log (KeyHex k) :: shown
                          ++ Log (ComputerNumber n) :: rest
              /\ Forall withinSession answered /\ fromHex k = Some key
              /\ Forall neutral shown /\ verify mac h n key = true).
  { intros -> He.
    destruct (IH Hrun) as (answered & k & key & shown & n & rest & -> & Ha & Hk & Hs & Hv).
    exists (e :: answered), k, key, shown, n, rest.
    split; [reflexivity|]. split; [constructor; assumption|]. auto. }
  destruct e as [m|p|err]; [destruct m|destruct p|];
    try (apply Hstay;
         [apply (advance_stays _ _ _ Hadv); exact I
         |apply neutral_withinSession; exact I]);
    cbn in Hadv; try discriminate.
  - destruct (fromHex k) as [key|] eqn:Hk; [|discriminate].
    injection Hadv as <-.
    destruct (run_from_KeyShown tr h key Hrun) as (shown & n & rest & -> & Hs & Hv).
    exists [], k, key, shown, n, rest.
    split; [reflexivity|]. split; [constructor|]. auto.
  - injection Hadv as <-. apply Hstay; [reflexivity|]. split; intros [].
Qed.

(** Once the commitment is shown, the console goes on to the request, the
    key and the number. *)
Lemma run_from_Committed (tr : list event) (h : string) :
  run mac (Committed h) tr = Some Idle ->
  exists asked max answered k key shown n rest,
    tr = asked ++ Question (AskNumber max) :: answered
           ++ Log (KeyHex k) :: shown ++ Log (ComputerNumber n) :: rest
    /\ Forall neutral asked
    /\ Forall withinSession answered
    /\ fromHex k = Some key
    /\ Forall neutral shown
    /\ verify mac h n key = true.
Proof.
  induction tr as [|e tr IH]; intros Hrun; [discriminate|].
  cbn [run] in Hrun.
  destruct (advance mac (Committed h) e) as [st|] eqn:Hadv; [|discriminate].
  assert (Hstay : neutral e ->
            exists asked max answered k key shown n rest,
              e :: tr = asked ++ Question (AskNumber max) :: answered
                          ++ Log (KeyHex k) :: shown
                          ++ Log (ComputerNumber n) :: rest
              /\ Forall neutral asked /\ Forall withinSession answered
              /\ fromHex k = Some key /\ Forall neutral shown
              /\ verify mac h n key = true).
  { intros He. rewrite (advance_stays _ _ _ Hadv He) in Hrun.
    destruct (IH Hrun)
      as (asked & max & answered & k & key & shown & n & rest & -> & Hq & Ha & Hk & Hs & Hv).
    exists (e :: asked), max, answered, k, key, shown, n, rest.
    split; [reflexivity|]. split; [constructor; assumption|]. auto. }
  destruct e as [m|p|err]; [destruct m|destruct p|];
    try (apply Hstay; exact I); cbn in Hadv; try discriminate.
  injection Hadv as <-.
  destruct (run_from_Awaiting tr h Hrun)
    as (answered & k & key & shown & n & rest & -> & Ha & Hk & Hs & Hv).
  exists [], max, answered, k, key, shown, n, rest.
  split; [reflexivity|]. split; [constructor|]. auto.
Qed.

(** On a console that ends with no session open, no step of a session was
    skipped: every commitment shown is followed by the request for the
    user's number, then by the key, then by the number, and the two verify
    against the commitment. *)
Lemma closed_sessions (tr : list event) :
  run mac Idle tr = Some Idle ->
  forall before h after,
    tr = before ++ Log (HMAC h) :: after ->
    exists asked max answered k key shown n rest,
      after = asked ++ Question (AskNumber max) :: answered
                ++ Log (KeyHex k) :: shown ++ Log (ComputerNumber n) :: rest
      /\ Forall neutral asked
      /\ Forall withinSession answered
      /\ fromHex k = Some key
      /\ Forall neutral shown
      /\ verify mac h n key = true.
Proof.
  intros Hrun before h after ->.
  rewrite run_app in Hrun.
  destruct (run mac Idle before) as [st|]; [|discriminate].
  cbn [run advance] in Hrun.
  destruct st; try discriminate.
  apply run_from_Committed. exact Hrun.
Qed.

(** A play that returns leaves no session open. *)
Lemma play_closed (dice : list Dice) (w w' : world) :
  console w = [] ->
  Part000.play mac Number dice w = (Done tt, w') ->
  run mac Idle (console w') = Some Idle.
Proof.
  intros Hempty Hplay.
  assert (H : inPhase mac Idle w) by (unfold inPhase; rewrite Hempty; reflexivity).
  exact (post_done _ _ _ _ _ _ (play_post dice w H) Hplay).
Qed.


End Order.

(** ** The two selections *)

Lemma Math_random_post (w : world) :
  post Math_random w (fun x _ => (0 <= x < 1)%Q) (fun _ => True).
Proof.
  unfold post, Math_random. destruct (randoms w) as [|q rest]; [exact I|].
  pose proof (Qfloor_le q) as Hlo. pose proof (Qlt_floor q) as Hhi.
  rewrite inject_Z_plus in Hhi. change (inject_Z 1) with 1%Q in Hhi.
  split; lra.
Qed.

Lemma floor_scaled (x : Q) (n : Z) :
  (0 <= x < 1)%Q -> 0 < n -> 0 <= Qfloor (x * inject_Z n) < n.
Proof.
  intros [Hx0 Hx1] Hn.
  assert (HnQ : (inject_Z 0 < inject_Z n)%Q) by (rewrite <- Zlt_Qlt; exact Hn).
  change (inject_Z 0) with 0%Q in HnQ.
  split.
  - change 0 with (Qfloor 0). apply Qfloor_resp_le.
    apply Qmult_le_0_compat; [exact Hx0|apply Qlt_le_weak, HnQ].
  - rewrite Zlt_Qlt.
    apply Qle_lt_trans with (x * inject_Z n)%Q; [apply Qfloor_le|].
    rewrite <- (Qmult_1_l (inject_Z n)) at 2.
    apply Qmult_lt_compat_r; assumption.
Qed.

Lemma randomBelow_post (n : Z) (w : world) :
  0 < n ->
  post (Part000.randomBelow n) w (fun k _ => 0 <= k < n) (fun _ => True).
Proof.
  intros Hn. unfold Part000.randomBelow.
  eapply post_seq; [apply Math_random_post|].
  intros x w' Hx. apply post_ret. apply floor_scaled; assumption.
Qed.

Lemma randomInt_post (lo hi : Z) (w : world) :
  post (randomInt lo hi) w (fun k _ => lo <= k < hi) (fun _ => True).
Proof.
  unfold post, randomInt.
  destruct (Z.leb_spec hi lo) as [Hle|Hlt]; [exact I|].
  destruct (ints w) as [|z rest]; [exact I|].
  pose proof (Z.mod_pos_bound z (hi - lo) ltac:(lia)). lia.
Qed.

(** What [selectDice] returns passed the test of its loop. *)
Lemma selectDice_post (Number : string -> jsnum) (dice : list Dice)
    (exclude : option Z) (w : world) :
  post (selectDice Number dice exclude) w
    (fun idx _ => selectable dice exclude idx = true) (fun _ => True).
Proof.
  apply (post_while_true (selectDice_body Number dice exclude) (fun _ _ => True)); auto.
  intros closed w0 _.
  unfold post, selectDice_body, bind, question. io_step.
  destruct closed; [exact I|].
  destruct (stdin w0) as [|ans rest]; [exact I|].
  destruct (String.eqb ans "e"); [exact I|].
  destruct (String.eqb ans "h").
  - unfold printProbabilityTable, bind. io_step. exact I.
  - fold (selectable dice exclude (sub1 (Number ans))).
    destruct (selectable dice exclude (sub1 (Number ans))) eqn:Hsel; io_step;
      [exact Hsel | exact I].
Qed.

Lemma keys_range (n : nat) (i : Z) : In i (keys n) -> 0 <= i < Z.of_nat n.
Proof.
  unfold keys. intros Hin. apply in_map_iff in Hin.
  destruct Hin as (k & <- & Hk). apply in_seq in Hk. lia.
Qed.

Lemma keys_NoDup (n : nat) : NoDup (keys n).
Proof.
  unfold keys. apply NoDup_map_NoDup_ForallPairs; [|apply seq_NoDup].
  intros x y _ _ H. lia.
Qed.

Lemma index_In {A : Type} (xs : list A) (k : Z) (x : A) :
  index xs k = Some x -> In x xs.
Proof.
  unfold index. destruct (k <? 0); [discriminate|]. apply nth_error_In.
Qed.

Lemma index_Some {A : Type} (xs : list A) (k : Z) :
  0 <= k < Z.of_nat (List.length xs) -> exists x, index xs k = Some x.
Proof.
  intros Hk. unfold index.
  destruct (Z.ltb_spec k 0) as [Hneg|_]; [lia|].
  destruct (nth_error xs (Z.to_nat k)) as [x|] eqn:Hnth; [eauto|].
  apply nth_error_None in Hnth. lia.
Qed.

(** At most one index is [=== u]. *)
Lemma same_as_at_most_one (u : jsnum) (xs : list Z) :
  NoDup xs -> (List.length (filter (fun i => eqZ u i) xs) <= 1)%nat.
Proof.
  intros Hnd.
  pose proof (NoDup_filter (fun i => eqZ u i) Hnd) as Hf.
  destruct (filter (fun i => eqZ u i) xs) as [|a [|b l]] eqn:E; cbn; try lia.
  assert (Ha : In a (filter (fun i => eqZ u i) xs)) by (rewrite E; left; reflexivity).
  assert (Hb : In b (filter (fun i => eqZ u i) xs)) by (rewrite E; right; left; reflexivity).
  apply filter_In in Ha, Hb. destruct Ha as [_ Ha], Hb as [_ Hb].
  destruct u as [| | |q]; try discriminate. cbn in Ha, Hb.
  apply Qeq_bool_eq in Ha, Hb.
  assert (Hab : (inject_Z a == inject_Z b)%Q) by (rewrite <- Ha, <- Hb; reflexivity).
  apply (proj1 (inject_Z_injective a b)) in Hab.
  subst b. inversion Hf as [|? ? Hnot _]. exfalso. apply Hnot. left. reflexivity.
Qed.

Lemma randomBelow_post_if (n : Z) (w : world) :
  post (Part000.randomBelow n) w (fun k _ => 0 < n -> 0 <= k < n) (fun _ => True).
Proof.
  destruct (Z_lt_dec 0 n) as [Hn|Hn].
  - eapply post_weaken; [apply (randomBelow_post n w Hn) | auto | auto].
  - unfold post. destruct (Part000.randomBelow n w) as [[k| | |] w']; auto.
    intros H. contradiction.
Qed.

Lemma selectable_any (dice : list Dice) (exclude : option Z) (u : jsnum) :
  selectable dice exclude u = true -> selectable dice None u = true.
Proof.
  unfold selectable. intros H.
  apply andb_true_iff in H. destruct H as [H _].
  rewrite H. reflexivity.
Qed.

Lemma selectable_differs (dice : list Dice) (c : Z) (u : jsnum) :
  selectable dice (Some c) u = true -> sameIndex u (Some c) = false.
Proof.
  unfold selectable. intros H.
  apply andb_true_iff in H. destruct H as [_ H].
  cbn in H |- *. apply negb_true_iff in H. exact H.
Qed.

(** The indices left once the user's is filtered out. *)
Lemma remaining_length (u : jsnum) (n : nat) :
  (n - 1 <= List.length (filter (fun i => negb (eqZ u i)) (keys n)))%nat.
Proof.
  pose proof (filter_length (fun i => eqZ u i) (keys n)) as Hsplit.
  cbv beta in Hsplit.
  pose proof (same_as_at_most_one u (keys n) (keys_NoDup n)) as Hone.
  assert (Hlen : List.length (keys n) = n)
    by (unfold keys; rewrite length_map, length_seq; reflexivity).
  lia.
Qed.

Lemma remaining_pick (dice : list Dice) (u : jsnum) (k : Z) :
  selectable dice None u = true ->
  (0 < Z.of_nat (List.length dice) - 1 -> 0 <= k < Z.of_nat (List.length dice) - 1)
  \/ 0 <= k < Z.of_nat (List.length (filter (fun i => negb (eqZ u i))
                                       (keys (List.length dice)))) ->
  chosenOk dice
    (u, index (filter (fun i => negb (eqZ u i)) (keys (List.length dice))) k).
Proof.
  intros Hu Hk. unfold chosenOk. cbn [fst snd].
  split; [|split; [exact Hu|]].
  - destruct (index _ k) as [c|] eqn:Hc; [|reflexivity].
    apply index_In, filter_In in Hc. destruct Hc as [_ Hc].
    cbn. apply negb_true_iff in Hc. exact Hc.
  - intros H2.
    pose proof (remaining_length u (List.length dice)) as Hrem.
    assert (Hin : 0 <= k < Z.of_nat (List.length (filter (fun i => negb (eqZ u i))
                                                   (keys (List.length dice))))).
    { destruct Hk as [Hk|Hk]; [|exact Hk].
      specialize (Hk ltac:(lia)). lia. }
    destruct (index_Some _ k Hin) as (c & Hc).
    exists c. split; [exact Hc|].
    apply index_In, filter_In in Hc. destruct Hc as [Hc _].
    apply keys_range. exact Hc.
Qed.

Section Selections.

Variable Number : string -> jsnum.

Lemma chooseDice_post_part000 (dice : list Dice) (userFirst : bool) (w : world) :
  post (Part000.chooseDice Number dice userFirst) w
    (fun p _ => chosenOk dice p) (fun _ => True).
Proof.
  unfold Part000.chooseDice.
  destruct userFirst.
  - eapply post_seq; [apply selectDice_post|]. intros u w1 Hu.
    eapply post_seq; [apply randomBelow_post_if|]. intros k w2 Hk.
    eapply post_seq with (R := fun _ _ => True); [unfold post, log; exact I|].
    intros ? w3 _. apply post_ret.
    apply remaining_pick; [exact Hu | left; exact Hk].
  - eapply post_seq; [apply randomBelow_post_if|]. intros c w1 Hc.
    eapply post_seq with (R := fun _ _ => True); [unfold post, log; exact I|].
    intros ? w2 _.
    eapply post_seq; [apply selectDice_post|]. intros u w3 Hu.
    apply post_ret. unfold chosenOk. cbn [fst snd].
    split; [apply (selectable_differs dice); exact Hu|].
    split; [apply (selectable_any dice (Some c)); exact Hu|].
    intros H2. exists c. split; [reflexivity|]. apply Hc. lia.
Qed.

Lemma chooseDice_post_task3 (dice : list Dice) (userFirst : bool) (w : world) :
  post (Task3.chooseDice Number dice userFirst) w
    (fun p _ => chosenOk dice p) (fun _ => True).
Proof.
  unfold Task3.chooseDice.
  destruct userFirst.
  - eapply post_seq; [apply selectDice_post|]. intros u w1 Hu.
    eapply post_seq; [apply randomInt_post|]. intros k w2 Hk.
    eapply post_seq with (R := fun _ _ => True); [unfold post, log; exact I|].
    intros ? w3 _. apply post_ret.
    apply remaining_pick; [exact Hu | right; exact Hk].
  - eapply post_seq; [apply randomInt_post|]. intros c w1 Hc.
    eapply post_seq with (R := fun _ _ => True); [unfold post, log; exact I|].
    intros ? w2 _.
    eapply post_seq; [apply selectDice_post|]. intros u w3 Hu.
    apply post_ret. unfold chosenOk. cbn [fst snd].
    split; [apply (selectable_differs dice); exact Hu|].
    split; [apply (selectable_any dice (Some c)); exact Hu|].
    intros H2. exists c. split; [reflexivity|]. exact Hc.
Qed.

End Selections.

(** Whoever selects first, in both variants, the two selections differ. *)
Lemma chooseDice_differ (Number : string -> jsnum) (dice : list Dice)
    (userFirst : bool) (w w' : world) (userDice : jsnum) (compDice : option Z) :
  Part000.chooseDice Number dice userFirst w = (Done (userDice, compDice), w')
  \/ Task3.chooseDice Number dice userFirst w = (Done (userDice, compDice), w') ->
  chosenOk dice (userDice, compDice).
Proof.
  intros [Hrun|Hrun].
  - exact (post_done _ _ _ _ _ _ (chooseDice_post_part000 Number dice userFirst w) Hrun).
  - exact (post_done _ _ _ _ _ _ (chooseDice_post_task3 Number dice userFirst w) Hrun).
Qed.

(** ** The plain variant never shows a commitment *)

(** The turn-order draw and the rolls of the plain variant show no
    commitment and no report of the dice chosen. *)
Section PlainDraws.

Variable P : event -> Prop.
Hypothesis draw_in_P : forall e, ~ isCommitment e -> ~ isReport e -> P e.

Ltac draw := apply draw_in_P; intros [].

Lemma draw_getUserNumber (max : Z) : emitsOnly P (Task3.getUserNumber max).
Proof.
  apply emitsOnly_while_true. intros [].
  unfold Task3.getUserNumber_body.
  apply emitsOnly_bind; [apply emitsOnly_question; draw|intros a].
  destruct (test_digits a);
    [destruct ((Number_digits a >=? 0) && (Number_digits a <? max))|];
    try apply emitsOnly_ret;
    (apply emitsOnly_bind; [apply emitsOnly_log; draw|intros _; apply emitsOnly_ret]).
Qed.

Lemma draw_decideFirst : emitsOnly P Task3.decideFirst.
Proof.
  unfold Task3.decideFirst.
  apply emitsOnly_bind; [apply emitsOnly_log; draw|intros _].
  apply emitsOnly_bind; [apply draw_getUserNumber|intros userNum].
  apply emitsOnly_bind; [apply emitsOnly_randomInt|intros compNum].
  repeat (apply emitsOnly_bind; [apply emitsOnly_log; draw|intros _]).
  apply emitsOnly_ret.
Qed.

Lemma draw_rollDice (dice : list Dice) (userDice : jsnum) (compDice : option Z) :
  emitsOnly P (Task3.rollDice dice userDice compDice).
Proof.
  unfold Task3.rollDice.
  apply emitsOnly_bind; [apply emitsOnly_log; draw|intros _].
  apply emitsOnly_bind; [apply (quiet_dieAt P)|intros ud].
  apply emitsOnly_bind; [apply emitsOnly_randomInt|intros userRollIdx].
  apply emitsOnly_bind; [apply emitsOnly_log; draw|intros _].
  apply emitsOnly_bind; [apply emitsOnly_log; draw|intros _].
  apply emitsOnly_bind; [apply (quiet_dieAt P)|intros cd].
  apply emitsOnly_bind; [apply emitsOnly_randomInt|intros compRollIdx].
  apply emitsOnly_bind; [apply emitsOnly_log; draw|intros _].
  apply emitsOnly_log. unfold verdict.
  destruct (faceGt _ _); [draw|].
  destruct (faceGt _ _); draw.
Qed.

End PlainDraws.

Lemma plain_play (Number : string -> jsnum) (dice : list Dice) :
  emitsOnly plain (Task3.play Number dice).
Proof.
  unfold Task3.play.
  apply emitsOnly_bind; [apply emitsOnly_log; intros []|intros _].
  apply emitsOnly_bind; [apply (quiet_printDice plain quiet_plain)|intros _].
  apply emitsOnly_bind; [apply (draw_decideFirst plain); auto|intros userFirst].
  apply emitsOnly_bind;
    [apply (quiet_chooseDice_task3 plain quiet_plain)|intros [userDice compDice]].
  apply emitsOnly_bind; [apply emitsOnly_log; intros []|intros _].
  apply emitsOnly_bind; [apply emitsOnly_log; intros []|intros _].
  apply (draw_rollDice plain); auto.
Qed.


(** ** The report of the dice chosen, over a whole play-through *)

Lemma quiet_noReport (e : event) : quietEvent e -> noReport e.
Proof. intros [_ H]. exact H. Qed.

Lemma unreported_post {A : Type} (m : M A) (w : world) :
  emitsOnly noReport m -> unreported w ->
  post m w (fun _ w' => unreported w') unreported.
Proof.
  intros Hm Hw. destruct (Hm w) as (es & Hes & Hno).
  assert (H : unreported (snd (m w))).
  { unfold unreported. rewrite Hes. apply Forall_app. split; assumption. }
  unfold post. destruct (m w) as [[a| | |] w']; exact H.
Qed.

Lemma reported_post {A : Type} (dice : list Dice) (m : M A) (w : world) :
  emitsOnly noReport m -> reported dice w ->
  post m w (fun _ w' => reported dice w') (reported dice).
Proof.
  intros Hm (before & p & after & Hc & Hb & Ha & Hp).
  destruct (Hm w) as (es & Hes & Hno).
  assert (H : reported dice (snd (m w))).
  { exists before, p, (after ++ es). rewrite Hes, Hc.
    split; [rewrite <- app_assoc; reflexivity|].
    split; [exact Hb|]. split; [|exact Hp].
    apply Forall_app. split; assumption. }
  unfold post. destruct (m w) as [[a| | |] w']; exact H.
Qed.

(** A value property and a console property, together. *)
Lemma post_unreported {A : Type} (m : M A) (w : world) (Q : A -> world -> Prop) :
  post m w Q (fun _ => True) ->
  emitsOnly noReport m -> unreported w ->
  post m w (fun a w' => Q a w' /\ unreported w') unreported.
Proof.
  intros HQ Hm Hw. pose proof (unreported_post m w Hm Hw) as Hu.
  unfold post in *. destruct (m w) as [[a| | |] w']; auto.
Qed.

(** The two lines of the report, printed after the selections. *)
Lemma report_post (dice : list Dice) (p : jsnum * option Z) (w : world) :
  chosenOk dice p -> unreported w ->
  reported dice
    (emit (Log (ComputerDice (snd p))) (emit (Log (YourDice (fst p))) w)).
Proof.
  intros Hp Hw. exists (console w), p, [].
  cbn [emit console]. rewrite <- app_assoc.
  split; [reflexivity|]. split; [exact Hw|]. split; [constructor|exact Hp].
Qed.

Section Reports.

Variable hmac_sha3_256 : list byte -> list byte -> list byte.
Variable Number : string -> jsnum.

Lemma noReport_getUserNumber (max : Z) : emitsOnly noReport (Task3.getUserNumber max).
Proof. apply draw_getUserNumber. intros e _ H. exact H. Qed.

Lemma noReport_getResult (this : Part000.FairRandom) :
  emitsOnly noReport (Part000.getResult this).
Proof.
  unfold Part000.getResult, Part000.showHMAC, Part000.reveal.
  apply emitsOnly_bind; [apply emitsOnly_log; intros []|intros _].
  apply emitsOnly_bind; [rewrite getUserNumber_same; apply noReport_getUserNumber|intros v].
  apply emitsOnly_bind; [|intros _; apply emitsOnly_ret].
  apply emitsOnly_bind; [apply emitsOnly_log; intros []|intros _].
  apply emitsOnly_log; intros [].
Qed.

Lemma noReport_decideFirst_part000 :
  emitsOnly noReport (Part000.decideFirst hmac_sha3_256).
Proof.
  unfold Part000.decideFirst.
  apply emitsOnly_bind; [apply emitsOnly_log; intros []|intros _].
  apply emitsOnly_bind; [apply quiet_new_FairRandom|intros frp].
  apply emitsOnly_bind; [apply noReport_getResult|intros v].
  apply emitsOnly_bind; [apply emitsOnly_log; intros []|intros _].
  apply emitsOnly_bind; [apply emitsOnly_log; intros []|intros _].
  apply emitsOnly_ret.
Qed.

Lemma noReport_rollDice_part000 (dice : list Dice) (userDice : jsnum)
    (compDice : option Z) :
  emitsOnly noReport (Part000.rollDice hmac_sha3_256 dice userDice compDice).
Proof.
  unfold Part000.rollDice, Part000.showHMAC, Part000.reveal.
  apply emitsOnly_bind; [apply emitsOnly_log; intros []|intros _].
  apply emitsOnly_bind; [apply quiet_dieAt|intros ud].
  apply emitsOnly_bind; [apply quiet_new_FairRandom|intros userRoll].
  apply emitsOnly_bind; [apply noReport_getResult|intros userRollRes].
  apply emitsOnly_bind; [apply emitsOnly_log; intros []|intros _].
  apply emitsOnly_bind; [apply emitsOnly_log; intros []|intros _].
  apply emitsOnly_bind; [apply quiet_dieAt|intros cd].
  apply emitsOnly_bind; [apply quiet_new_FairRandom|intros compRoll].
  apply emitsOnly_bind; [apply emitsOnly_log; intros []|intros _].
  apply emitsOnly_bind; [rewrite getUserNumber_same; apply noReport_getUserNumber|intros v].
  apply emitsOnly_bind.
  { apply emitsOnly_bind; [apply emitsOnly_log; intros []|intros _].
    apply emitsOnly_log; intros []. }
  intros _.
  apply emitsOnly_bind; [apply emitsOnly_log; intros []|intros _].
  apply emitsOnly_log. unfold verdict.
  destruct (faceGt _ _); [intros []|].
  destruct (faceGt _ _); intros [].
Qed.

(** From the selections on, [play] is the same in both files up to the
    rolls: the report, then the rolls. *)
Lemma report_then_roll (dice : list Dice) (roll : jsnum -> option Z -> M unit)
    (p : jsnum * option Z) (w : world) :
  (forall u c, emitsOnly noReport (roll u c)) ->
  chosenOk dice p -> unreported w ->
  post (let (userDice, compDice) := p in
        log (YourDice userDice) ;; log (ComputerDice compDice) ;; roll userDice compDice) w
    (fun _ w' => reported dice w') (fun w' => unreported w' \/ reported dice w').
Proof.
  intros Hroll Hp Hw. destruct p as [u c].
  pose proof (report_post dice (u, c) w Hp Hw) as Hrep. cbn [fst snd] in Hrep.
  unfold bind, log.
  eapply post_weaken; [apply (reported_post dice (roll u c) _ (Hroll u c) Hrep) | auto | auto].
Qed.

Lemma unreported_step {A : Type} (dice : list Dice) (m : M A) (w : world) :
  emitsOnly noReport m -> unreported w ->
  post m w (fun _ w' => unreported w') (fun w' => unreported w' \/ reported dice w').
Proof.
  intros Hm Hw.
  eapply post_weaken; [apply (unreported_post m w Hm Hw) | auto | auto].
Qed.

Lemma chosen_step (dice : list Dice) (m : M (jsnum * option Z)) (w : world) :
  post m w (fun p _ => chosenOk dice p) (fun _ => True) ->
  emitsOnly noReport m -> unreported w ->
  post m w (fun p w' => chosenOk dice p /\ unreported w')
    (fun w' => unreported w' \/ reported dice w').
Proof.
  intros Hp Hm Hw.
  eapply post_weaken; [apply (post_unreported m w _ Hp Hm Hw) | auto | auto].
Qed.

Lemma play_reports_part000 (dice : list Dice) (w : world) :
  unreported w ->
  post (Part000.play hmac_sha3_256 Number dice) w
    (fun _ w' => reported dice w') (fun w' => unreported w' \/ reported dice w').
Proof.
  intros Hw. unfold Part000.play.
  eapply post_seq;
    [apply unreported_step; [apply emitsOnly_log; intros []|exact Hw]|].
  intros ? w1 H1.
  eapply post_seq;
    [apply unreported_step; [apply (quiet_printDice noReport quiet_noReport)|exact H1]|].
  intros ? w2 H2.
  eapply post_seq;
    [apply unreported_step; [apply noReport_decideFirst_part000|exact H2]|].
  intros userFirst w3 H3.
  eapply post_seq;
    [apply chosen_step;
       [apply chooseDice_post_part000
       |apply (quiet_chooseDice_part000 noReport quiet_noReport)
       |exact H3]|].
  intros p w4 [Hp H4].
  apply report_then_roll; [intros u c; apply noReport_rollDice_part000 | exact Hp | exact H4].
Qed.

Lemma play_reports_task3 (dice : list Dice) (w : world) :
  unreported w ->
  post (Task3.play Number dice) w
    (fun _ w' => reported dice w') (fun w' => unreported w' \/ reported dice w').
Proof.
  intros Hw. unfold Task3.play.
  eapply post_seq;
    [apply unreported_step; [apply emitsOnly_log; intros []|exact Hw]|].
  intros ? w1 H1.
  eapply post_seq;
    [apply unreported_step; [apply (quiet_printDice noReport quiet_noReport)|exact H1]|].
  intros ? w2 H2.
  eapply post_seq;
    [apply unreported_step;
       [apply (draw_decideFirst noReport (fun e _ H => H))|exact H2]|].
  intros userFirst w3 H3.
  eapply post_seq;
    [apply chosen_step;
       [apply chooseDice_post_task3
       |apply (quiet_chooseDice_task3 noReport quiet_noReport)
       |exact H3]|].
  intros p w4 [Hp H4].
  apply report_then_roll;
    [intros u c; apply (draw_rollDice noReport (fun e _ H => H)) | exact Hp | exact H4].
Qed.

End Reports.

(** On a console with at most one report, the dice it names are the pair
    chosen. *)
Lemma reported_dice (dice : list Dice) (w : world) (u : jsnum) (c : option Z) :
  unreported w \/ reported dice w ->
  In (Log (YourDice u)) (console w) ->
  In (Log (ComputerDice c)) (console w) ->
  chosenOk dice (u, c).
Proof.
  intros [Hno|(before & p & after & Hc & Hb & Ha & Hp)] Hu Hcd.
  - unfold unreported in Hno. rewrite Forall_forall in Hno.
    exfalso. apply (Hno _ Hu). exact I.
  - rewrite Forall_forall in Hb, Ha. rewrite Hc in Hu, Hcd.
    assert (Hfst : u = fst p).
    { apply in_app_or in Hu. destruct Hu as [Hu|[Hu|[Hu|Hu]]].
      - exfalso. apply (Hb _ Hu). exact I.
      - congruence.
      - discriminate.
      - exfalso. apply (Ha _ Hu). exact I. }
    assert (Hsnd : c = snd p).
    { apply in_app_or in Hcd. destruct Hcd as [Hcd|[Hcd|[Hcd|Hcd]]].
      - exfalso. apply (Hb _ Hcd). exact I.
      - discriminate.
      - congruence.
      - exfalso. apply (Ha _ Hcd). exact I. }
    destruct p as [u' c']. cbn [fst snd] in *. subst. exact Hp.
Qed.

(** C10. In every play-through of either variant, the dice the console
    reports as chosen, [userDice] and [compDice], differ
    ([userDice === compDice] is false), whoever selected first.  The
    user's index passed the test of [selectDice], and with two dice or more
    (the parser requires three) the computer's is an index of the array. *)
Theorem chosen_dice_differ (mac : list byte -> list byte -> list byte)
    (Number : string -> jsnum) (dice : list Dice) (w : world)
    (userDice : jsnum) (compDice : option Z) :
  console w = [] ->
  (In (Log (YourDice userDice)) (console (snd (Part000.play mac Number dice w)))
   /\ In (Log (ComputerDice compDice)) (console (snd (Part000.play mac Number dice w))))
  \/ (In (Log (YourDice userDice)) (console (snd (Task3.play Number dice w)))
      /\ In (Log (ComputerDice compDice)) (console (snd (Task3.play Number dice w)))) ->
  sameIndex userDice compDice = false
  /\ selectable dice None userDice = true
  /\ ((2 <= List.length dice)%nat ->
      exists c, compDice = Some c /\ 0 <= c < Z.of_nat (List.length dice)).
Proof.
  intros Hempty Hin.
  assert (Hw : unreported w) by (unfold unreported; rewrite Hempty; constructor).
  destruct Hin as [[Hu Hc]|[Hu Hc]].
  - apply (reported_dice dice (snd (Part000.play mac Number dice w))); try assumption.
    pose proof (play_reports_part000 mac Number dice w Hw) as Hpost.
    unfold post in Hpost.
    destruct (Part000.play mac Number dice w) as [[[]| | |] w']; cbn [snd]; auto.
  - apply (reported_dice dice (snd (Task3.play Number dice w))); try assumption.
    pose proof (play_reports_task3 Number dice w Hw) as Hpost.
    unfold post in Hpost.
    destruct (Task3.play Number dice w) as [[[]| | |] w']; cbn [snd]; auto.
Qed.

(** ** The commitment *)

Lemma byteOfZ_value (z : Z) : Z.of_N (Byte.to_N (byteOfZ z)) = z mod 256.
Proof.
  unfold byteOfZ.
  pose proof (Z.mod_pos_bound z 256 ltac:(lia)) as Hb.
  pose proof (Byte.to_of_N_option_map (Z.to_N (z mod 256))) as Hmap.
  assert (Hle : (Z.to_N (z mod 256) <=? 255)%N = true) by (apply N.leb_le; lia).
  rewrite Hle in Hmap.
  destruct (Byte.of_N (Z.to_N (z mod 256))) as [b|]; [|discriminate].
  cbn in Hmap. injection Hmap as ->. lia.
Qed.

(** [writeUInt32BE] stores the number big-endian. *)
Lemma uint32BE_value (num : Z) :
  0 <= num < 2 ^ 32 -> beValue (uint32BE num) = num.
Proof.
  intros Hnum. change (2 ^ 32) with 4294967296 in Hnum.
  unfold beValue, uint32BE. cbn [fold_left].
  rewrite !byteOfZ_value.
  Z.to_euclidean_division_equations. lia.
Qed.

(** C4. For every key and every secret value (an unsigned 32-bit number,
    as the sampler returns), the commitment [calcHMAC] computes is accepted
    by [verify], which recomputes it and compares: [calcHMAC] is a function
    of the key and the number alone. *)
Theorem commitment_verifies (mac : list byte -> list byte -> list byte)
    (key : list byte) (secretValue : Z) :
  0 <= secretValue < 2 ^ 32 ->
  exists c,
    Part000.calcHMAC mac key secretValue = Done c
    /\ verify mac c secretValue key = true.
Proof.
  intros Hs. change (2 ^ 32) with 4294967296 in Hs.
  exists (toHex (mac key (uint32BE secretValue))).
  assert (Hc : Part000.calcHMAC mac key secretValue
               = Done (toHex (mac key (uint32BE secretValue)))).
  { unfold Part000.calcHMAC, Part000.writeUInt32BE.
    destruct (Z.leb_spec 0 secretValue) as [_|]; [|lia].
    destruct (Z.leb_spec secretValue 4294967295) as [_|]; [|lia].
    reflexivity. }
  split; [exact Hc|].
  unfold verify. rewrite Hc. apply String.eqb_refl.
Qed.

(** The commitment a session shows is the one its revealed key and number
    verify against. *)
Lemma session_commitment_verifies (mac : list byte -> list byte -> list byte)
    (range : Z) (w w' : world) (this : Part000.FairRandom) :
  Part000.new_FairRandom mac range w = (Done this, w') ->
  verify mac (Part000.hmac this) (Part000.number this) (Part000.key this) = true.
Proof.
  intros Hnew.
  pose proof (post_done _ _ _ _ _ _ (new_FairRandom_post mac range w) Hnew)
    as (_ & _ & _ & Hh).
  unfold verify. rewrite Hh. apply String.eqb_refl.
Qed.

(** * More of the program *)

(** ** The parser of the dice *)

Lemma mapO_Throw {A B : Type} (f : A -> outcome B) (xs : list A) (e : error) :
  mapO f xs = Throw e -> exists x, In x xs /\ f x = Throw e.
Proof.
  induction xs as [|x xs IH]; cbn [mapO]; [discriminate|].
  destruct (f x) as [y| e' | |] eqn:Hfx; try discriminate.
  - destruct (mapO f xs) as [ys| e' | |]; try discriminate.
    intros H. injection H as ->.
    destruct (IH eq_refl) as (x' & Hin & Hx'). exists x'. split; [right|]; assumption.
  - intros H. injection H as ->. exists x. split; [left; reflexivity|exact Hfx].
Qed.

Lemma mapO_outcome {A B : Type} (f : A -> outcome B) (xs : list A) :
  (forall x, f x <> Pending /\ forall c, f x <> Exit c) ->
  mapO f xs <> Pending /\ forall c, mapO f xs <> Exit c.
Proof.
  intros Hf. induction xs as [|x xs [IHp IHe]]; cbn [mapO]; [split; intros; discriminate|].
  destruct (Hf x) as [Hp He].
  destruct (f x) as [y| e | c |]; [| split; intros; discriminate | |].
  - destruct (mapO f xs) as [ys| e | c |]; split; intros; try discriminate.
    + exfalso. apply (IHe c). reflexivity.
    + exfalso. apply IHp. reflexivity.
  - exfalso. apply (He c). reflexivity.
  - exfalso. apply Hp. reflexivity.
Qed.

(** The first element that throws decides, once those before it went
    through. *)
Lemma mapO_first_throw {A B : Type} (f : A -> outcome B) (good : list A) (x : A)
    (rest : list A) (e : error) :
  Forall (fun a => exists b, f a = Done b) good ->
  f x = Throw e ->
  mapO f (good ++ x :: rest) = Throw e.
Proof.
  intros Hgood Hx. induction Hgood as [|a good [b Hb] _ IH]; cbn [app mapO].
  - rewrite Hx. reflexivity.
  - rewrite Hb, IH. reflexivity.
Qed.

Lemma mapO_all_Done {A B : Type} (f : A -> outcome B) (g : A -> B) (xs : list A) :
  Forall (fun a => f a = Done (g a)) xs -> mapO f xs = Done (map g xs).
Proof.
  induction 1 as [|a xs Ha _ IH]; cbn [mapO map]; [reflexivity|].
  rewrite Ha, IH. reflexivity.
Qed.

Lemma split_comma_nonempty (s cur : string) : split_comma cur s <> [].
Proof.
  revert cur. induction s as [|c s IH]; intros cur; cbn [split_comma]; [discriminate|].
  destruct (Ascii.eqb c ","%char); [discriminate|apply IH].
Qed.

Lemma indexed_app_from {A : Type} (xs : list A) :
  forall (k : nat) (y : A) (ys : list A),
    combine (seq k (List.length (xs ++ y :: ys))) (xs ++ y :: ys)
    = combine (seq k (List.length xs)) xs
      ++ (k + List.length xs, y)%nat
      :: combine (seq (S (k + List.length xs)) (List.length ys)) ys.
Proof.
  induction xs as [|x xs IH]; intros k y ys.
  - cbn [app List.length seq combine]. rewrite Nat.add_0_r. reflexivity.
  - cbn [app List.length seq combine]. rewrite IH.
    cbn [app]. rewrite <- !Nat.add_succ_comm. reflexivity.
Qed.

Lemma Number_digits_nonneg (x : string) : test_digits x = true -> 0 <= Number_digits x.
Proof.
  intros Hx. unfold Number_digits.
  assert (Hall : allDigits x = true) by (destruct x; [discriminate|exact Hx]).
  assert (Hgen : forall acc, 0 <= acc -> 0 <= decimalFrom acc x).
  { clear Hx. induction x as [|c x IH]; intros acc Hacc; cbn [decimalFrom]; [exact Hacc|].
    cbn [allDigits] in Hall. apply andb_true_iff in Hall. destruct Hall as [Hc Hrest].
    apply IH; [exact Hrest|].
    unfold isDigit in Hc. apply andb_true_iff in Hc. destruct Hc as [Hlo _].
    apply Z.leb_le in Hlo. lia. }
  apply Hgen. lia.
Qed.

(** The face a numeral gives is not negative, and it is the number
    written when this is no more than [2^53]. *)
Lemma Number_rounded_nonneg (x : string) :
  test_digits x = true -> 0 <= Number_rounded x.
Proof.
  intros Hx. pose proof (Number_digits_nonneg x Hx) as Hv.
  assert (HvQ : (0 <= inject_Z (Number_digits x))%Q).
  { change 0%Q with (inject_Z 0). rewrite <- Zle_Qle. exact Hv. }
  pose proof (double_nonneg _ HvQ) as Hd. unfold Number_rounded.
  destruct (double (inject_Z (Number_digits x))) as [| | |r]; try lia.
  change 0 with (Qfloor 0). apply Qfloor_resp_le. exact Hd.
Qed.

(** Long numerals, as [Number] reads them: [2^53 + 1] is a tie and goes to
    the even neighbour, [2^53 + 3] to [2^53 + 4], and a one followed by
    309 zeros is [Infinity]. *)
Lemma Number_rounded_long :
  Number_rounded "9007199254740993" = 9007199254740992
  /\ Number_rounded "9007199254740995" = 9007199254740996
  /\ Number_rounded "123456789012345678901234567890" = 123456789012345677877719597056
  /\ Number_rounded (String_of_int (10 ^ 309)) = 2 ^ 1024.
Proof. repeat split; vm_compute; reflexivity. Qed.

Lemma Number_rounded_exact (x : string) :
  0 <= Number_digits x <= 2 ^ 53 -> Number_rounded x = Number_digits x.
Proof.
  intros Hv. destruct (double_exact _ Hv) as (r & Hr & Heq).
  unfold Number_rounded. rewrite Hr, Heq. apply Qfloor_Z.
Qed.

Lemma parseFaces_cases (i : nat) (xs : list string) :
  (Forall (fun x => test_digits x = true) xs
   /\ mapO (parseFace i) xs = Done (map Number_rounded xs))
  \/ (Exists (fun x => test_digits x = false) xs
      /\ mapO (parseFace i) xs = Throw (Error (nonIntegerFace i))).
Proof.
  induction xs as [|x xs IH]; [left; split; [constructor|reflexivity]|].
  cbn [mapO map]. unfold parseFace at 1 3.
  destruct (test_digits x) eqn:Hx; cbn [negb].
  - destruct IH as [[Hall Hmap]|[Hex Hmap]]; rewrite Hmap.
    + left. split; [constructor; assumption|reflexivity].
    + right. split; [right; exact Hex|reflexivity].
  - right. split; [left; exact Hx|reflexivity].
Qed.

(** What one argument gives: a die of the faces written, or the exception
    of a face that is no numeral; never the exception of the constructor. *)
Lemma parseDie_cases (i : nat) (arg : string) :
  (Forall (fun x => test_digits x = true) (split_comma EmptyString arg)
   /\ parseDie i arg
      = Done (mkDice (map Number_rounded (split_comma EmptyString arg))))
  \/ (Exists (fun x => test_digits x = false) (split_comma EmptyString arg)
      /\ parseDie i arg = Throw (Error (nonIntegerFace i))).
Proof.
  unfold parseDie.
  pose proof (split_comma_nonempty arg EmptyString) as Hne.
  destruct (parseFaces_cases i (split_comma EmptyString arg)) as [[Hall Hmap]|[Hex Hmap]];
    rewrite Hmap.
  - left. split; [exact Hall|].
    destruct (split_comma EmptyString arg); [congruence|reflexivity].
  - right. split; [exact Hex|reflexivity].
Qed.

(** X2. Whatever [DiceParser.parse] returns has one die per argument, three
    or more, each with a face or more, and no negative face. *)
Theorem parse_dice (args : list string) (dice : list Dice) :
  parse args = Done dice ->
  List.length dice = List.length args
  /\ (3 <= List.length dice)%nat
  /\ Forall (fun d => faces d <> [] /\ Forall (fun f => 0 <= f) (faces d)) dice.
Proof.
  unfold parse.
  destruct (Nat.ltb_spec (List.length args) 3) as [|Hlen]; [discriminate|].
  intros Hmap. apply mapO_Done in Hmap. destruct Hmap as [Hsame Hall].
  unfold indexed in Hsame. rewrite length_combine, length_seq, Nat.min_id in Hsame.
  split; [exact Hsame|]. split; [lia|].
  eapply Forall_impl; [|exact Hall].
  intros d ([i arg] & Hd). cbn [fst snd] in Hd.
  destruct (parseDie_cases i arg) as [[Hdigits Hdie]|[_ Hdie]];
    rewrite Hdie in Hd; [|discriminate].
  injection Hd as <-. cbn [faces].
  pose proof (split_comma_nonempty arg EmptyString) as Hne.
  split.
  - destruct (split_comma EmptyString arg); [congruence|discriminate].
  - apply Forall_map. eapply Forall_impl; [|exact Hdigits].
    intros x Hx. apply Number_rounded_nonneg. exact Hx.
Qed.

(** X1. With fewer than three arguments [parse] throws its first error,
    and the entry point of either file prints the message of that error,
    the usage text, with [console.error], prints and reads nothing else,
    and exits with code 1. *)
Theorem main_too_few_dice (mac : list byte -> list byte -> list byte)
    (Number : string -> jsnum) (args : list string) (w : world) :
  (List.length args < 3)%nat ->
  parse args = Throw (Error tooFewDice)
  /\ Part000.main mac Number args w
     = (Exit 1, emit (LogError (Error tooFewDice)) w)
  /\ Task3.main Number args w
     = (Exit 1, emit (LogError (Error tooFewDice)) w).
Proof.
  intros Hlen.
  assert (Hparse : parse args = Throw (Error tooFewDice)).
  { unfold parse. apply Nat.ltb_lt in Hlen. rewrite Hlen. reflexivity. }
  split; [exact Hparse|].
  unfold Part000.main, Task3.main, bind, lift. rewrite Hparse. split; reflexivity.
Qed.

(** X3. With three arguments or more, when the dice before the [i]-th are
    well written and the [i]-th has a piece that is no decimal numeral (an
    empty piece or a sign included), [parse] throws
    [Non-integer face in dice #i]; the entry point of either file prints
    that message with [console.error], nothing else, and exits with
    code 1. *)
Theorem parse_non_integer_face (mac : list byte -> list byte -> list byte)
    (Number : string -> jsnum) (good : list string) (arg : string)
    (rest : list string) (w : world) :
  (3 <= List.length (good ++ arg :: rest))%nat ->
  Forall (fun a => Forall (fun x => test_digits x = true) (split_comma EmptyString a))
         good ->
  Exists (fun x => test_digits x = false) (split_comma EmptyString arg) ->
  parse (good ++ arg :: rest) = Throw (Error (nonIntegerFace (List.length good)))
  /\ Part000.main mac Number (good ++ arg :: rest) w
     = (Exit 1, emit (LogError (Error (nonIntegerFace (List.length good)))) w)
  /\ Task3.main Number (good ++ arg :: rest) w
     = (Exit 1, emit (LogError (Error (nonIntegerFace (List.length good)))) w).
Proof.
  intros Hlen Hgood Hbad.
  assert (Hparse : parse (good ++ arg :: rest)
                   = Throw (Error (nonIntegerFace (List.length good)))).
  { unfold parse.
    destruct (Nat.ltb_spec (List.length (good ++ arg :: rest)) 3) as [|_]; [lia|].
    unfold indexed. rewrite indexed_app_from. cbn [Nat.add].
    apply mapO_first_throw.
    - apply Forall_forall. intros [i a] Hin.
      apply in_combine_r in Hin. rewrite Forall_forall in Hgood.
      specialize (Hgood a Hin). cbn [fst snd].
      destruct (parseDie_cases i a) as [[_ Hdie]|[Hex _]]; [eauto|].
      exfalso. apply Exists_exists in Hex. destruct Hex as (x & Hx & Hfalse).
      rewrite Forall_forall in Hgood. rewrite (Hgood x Hx) in Hfalse. discriminate.
    - cbn [fst snd].
      destruct (parseDie_cases (List.length good) arg) as [[Hall _]|[_ Hdie]];
        [|exact Hdie].
      exfalso. apply Exists_exists in Hbad. destruct Hbad as (x & Hx & Hfalse).
      rewrite Forall_forall in Hall. rewrite (Hall x Hx) in Hfalse. discriminate. }
  split; [exact Hparse|].
  unfold Part000.main, Task3.main, bind, lift. rewrite Hparse. split; reflexivity.
Qed.

(** X4. [parse] ends by returning or by throwing one of its own two
    messages.  The exception of the [Dice] constructor, "Dice must have
    faces", is never thrown: splitting an argument always gives a piece, and
    an empty piece is no numeral. *)
Theorem parse_exceptions (args : list string) :
  ((exists dice, parse args = Done dice)
   \/ parse args = Throw (Error tooFewDice)
   \/ (exists i, (i < List.length args)%nat
                /\ parse args = Throw (Error (nonIntegerFace i))))
  /\ parse args <> Throw (Error "Dice must have faces").
Proof.
  assert (Hcases : (exists dice, parse args = Done dice)
                   \/ parse args = Throw (Error tooFewDice)
                   \/ (exists i, (i < List.length args)%nat
                                /\ parse args = Throw (Error (nonIntegerFace i)))).
  2: { split; [exact Hcases|].
       destruct Hcases as [(dice & ->)|[->|(i & _ & ->)]]; discriminate. }
  unfold parse.
  destruct (Nat.ltb_spec (List.length args) 3) as [|_]; [right; left; reflexivity|].
  destruct (mapO (fun p : nat * string => parseDie (fst p) (snd p)) (indexed args))
    as [dice| e | c |] eqn:Hmap.
  - left. eauto.
  - right. right. apply mapO_Throw in Hmap. destruct Hmap as ([i a] & Hin & Hdie).
    cbn [fst snd] in Hdie.
    exists i. split.
    + unfold indexed in Hin. apply in_combine_l in Hin. apply in_seq in Hin. lia.
    + destruct (parseDie_cases i a) as [[_ Hd]|[_ Hd]]; rewrite Hd in Hdie;
        [discriminate|]. injection Hdie as <-. reflexivity.
  - exfalso.
    refine (proj2 (mapO_outcome _ (indexed args) _) c Hmap).
    intros [i a]. cbn [fst snd].
    destruct (parseDie_cases i a) as [[_ Hd]|[_ Hd]]; rewrite Hd;
      split; intros; discriminate.
  - exfalso.
    refine (proj1 (mapO_outcome _ (indexed args) _) Hmap).
    intros [i a]. cbn [fst snd].
    destruct (parseDie_cases i a) as [[_ Hd]|[_ Hd]]; rewrite Hd;
      split; intros; discriminate.
Qed.

(** ** Printing the dice and reading them back *)

Lemma numeral_allDigits (d : Decimal.uint) :
  allDigits (DecimalString.NilEmpty.string_of_uint d) = true.
Proof. induction d; cbn; try reflexivity; exact IHd. Qed.

Lemma numeral_value_from (d : Decimal.uint) :
  forall acc : positive,
    decimalFrom (Z.pos acc) (DecimalString.NilEmpty.string_of_uint d)
    = Z.pos (Pos.of_uint_acc d acc).
Proof.
  induction d; intros acc; cbn [DecimalString.NilEmpty.string_of_uint decimalFrom Pos.of_uint_acc];
    try reflexivity;
    match goal with
    | |- decimalFrom (_ + ?k) _ = Z.pos (Pos.of_uint_acc _ ?q) =>
        let v := eval vm_compute in k in
        change k with v; rewrite <- IHd; f_equal; lia
    end.
Qed.

Lemma numeral_value (d : Decimal.uint) :
  decimalFrom 0 (DecimalString.NilEmpty.string_of_uint d) = Z.of_N (Pos.of_uint d).
Proof.
  induction d; cbn [DecimalString.NilEmpty.string_of_uint decimalFrom Pos.of_uint];
    try reflexivity;
    try exact IHd;
    match goal with
    | |- decimalFrom ?z _ = Z.of_N (N.pos (Pos.of_uint_acc _ ?q)) =>
        change z with (Z.pos q); apply numeral_value_from
    end.
Qed.

(** [Number(String(n))] is [n], and [String(n)] is a decimal numeral, for
    [n >= 0]. *)
Lemma String_of_int_digits (n : Z) :
  0 <= n ->
  test_digits (String_of_int n) = true /\ Number_digits (String_of_int n) = n.
Proof.
  intros Hn. destruct n as [|p|p]; [split; reflexivity| |lia].
  unfold String_of_int, Number_digits. cbn [Z.to_int DecimalString.NilEmpty.string_of_int].
  split.
  - pose proof (DecimalPos.Unsigned.to_uint_nonnil p) as Hnil.
    pose proof (numeral_allDigits (Pos.to_uint p)) as Hall.
    unfold test_digits.
    destruct (Pos.to_uint p); try congruence;
      cbn [DecimalString.NilEmpty.string_of_uint] in *; exact Hall.
  - rewrite numeral_value, DecimalPos.Unsigned.of_to. reflexivity.
Qed.

Lemma append_assoc_char (cur : string) (c : ascii) (x : string) :
  (cur ++ String c x)%string = ((cur ++ String c EmptyString) ++ x)%string.
Proof. induction cur as [|a cur IH]; cbn; [reflexivity|]. rewrite IH. reflexivity. Qed.

Lemma append_empty_r (s : string) : (s ++ EmptyString)%string = s.
Proof. induction s as [|a s IH]; cbn; [reflexivity|]. rewrite IH. reflexivity. Qed.

(** Splitting goes past a numeral without cutting it. *)
Lemma split_comma_numeral (x : string) :
  allDigits x = true ->
  forall cur s, split_comma cur (x ++ s) = split_comma (cur ++ x) s.
Proof.
  induction x as [|c x IH]; intros Hx cur s.
  - cbn [String.append]. rewrite append_empty_r. reflexivity.
  - cbn [allDigits] in Hx. apply andb_true_iff in Hx. destruct Hx as [Hc Hx].
    cbn [String.append split_comma].
    assert (Hnc : Ascii.eqb c ","%char = false).
    { destruct (Ascii.eqb_spec c ","%char) as [->|]; [discriminate Hc|reflexivity]. }
    rewrite Hnc, (IH Hx), <- append_assoc_char. reflexivity.
Qed.

Lemma test_digits_all (x : string) : test_digits x = true -> allDigits x = true.
Proof. destruct x; [discriminate|auto]. Qed.

(** [xs.join(",").split(",")] is [xs], for numerals [xs], one or more. *)
Lemma split_join_numerals (xs : list string) :
  xs <> [] ->
  Forall (fun x => test_digits x = true) xs ->
  split_comma EmptyString (join_comma xs) = xs.
Proof.
  intros Hne Hall. induction Hall as [|x xs Hx Hall IH]; [congruence|].
  apply test_digits_all in Hx.
  destruct xs as [|x' xs'].
  - cbn [join_comma].
    rewrite <- (append_empty_r x) at 1.
    rewrite (split_comma_numeral x Hx). reflexivity.
  - change (join_comma (x :: x' :: xs'))
      with (x ++ String ","%char (join_comma (x' :: xs')))%string.
    rewrite (split_comma_numeral x Hx). cbn [split_comma String.append].
    rewrite IH by discriminate. reflexivity.
Qed.

Lemma parseDie_facesText (i : nat) (d : Dice) :
  faces d <> [] -> Forall (fun f => 0 <= f <= 2 ^ 53) (faces d) ->
  parseDie i (facesText d) = Done d.
Proof.
  intros Hne Hsafe. destruct d as [fs]. cbn [faces] in *. unfold facesText. cbn [faces].
  assert (Hpos : Forall (fun f => 0 <= f) fs).
  { eapply Forall_impl; [|exact Hsafe]. intros f Hf. apply Hf. }
  assert (Hnum : Forall (fun x => test_digits x = true) (map String_of_int fs)).
  { apply Forall_map. eapply Forall_impl; [|exact Hpos].
    intros f Hf. apply String_of_int_digits. exact Hf. }
  assert (Hsplit : split_comma EmptyString (join_comma (map String_of_int fs))
                   = map String_of_int fs).
  { apply split_join_numerals; [|exact Hnum]. destruct fs; [congruence|discriminate]. }
  destruct (parseDie_cases i (join_comma (map String_of_int fs)))
    as [[_ Hdie]|[Hex _]].
  - rewrite Hdie, Hsplit, map_map. do 2 f_equal.
    rewrite <- (map_id fs) at 2. apply map_ext_in.
    intros f Hf. rewrite Forall_forall in Hsafe. specialize (Hsafe f Hf).
    destruct (String_of_int_digits f ltac:(lia)) as [_ Hvalue].
    rewrite Number_rounded_exact; rewrite Hvalue; [reflexivity|exact Hsafe].
  - exfalso. rewrite Hsplit in Hex. apply Exists_exists in Hex.
    destruct Hex as (x & Hx & Hfalse). rewrite Forall_forall in Hnum.
    rewrite (Hnum x Hx) in Hfalse. discriminate.
Qed.

(** X5. Printing and parsing are inverse: for three dice or more, each with
    a face or more, the faces being integers from 0 to [2^53] (which
    JavaScript holds and prints exactly), parsing the texts [printDice]
    shows for them gives the same dice back. *)
Theorem parse_printed_dice (dice : list Dice) :
  (3 <= List.length dice)%nat ->
  Forall (fun d => faces d <> [] /\ Forall (fun f => 0 <= f <= 2 ^ 53) (faces d)) dice ->
  parse (map facesText dice) = Done dice.
Proof.
  intros Hlen Hdice. unfold parse. rewrite length_map.
  destruct (Nat.ltb_spec (List.length dice) 3) as [|_]; [lia|].
  unfold indexed. rewrite length_map.
  generalize 0%nat as k. clear Hlen.
  induction Hdice as [|d ds [Hne Hpos] _ IH]; intros k; [reflexivity|].
  cbn [map List.length seq combine mapO fst snd].
  rewrite (parseDie_facesText k d Hne Hpos), IH. reflexivity.
Qed.

(** ** Win probabilities of arbitrary dice *)

Lemma count_gt_Permutation (x : Z) (ys ys' : list Z) :
  Permutation ys ys' -> count_gt x ys = count_gt x ys'.
Proof.
  induction 1; cbn [count_gt]; lia.
Qed.

Lemma wins_Permutation (xs xs' ys ys' : list Z) :
  Permutation xs xs' -> Permutation ys ys' -> wins xs ys = wins xs' ys'.
Proof.
  intros Hx Hy. transitivity (wins xs ys').
  - clear Hx. induction xs as [|x xs IH]; cbn [wins]; [reflexivity|].
    rewrite IH, (count_gt_Permutation x ys ys' Hy). reflexivity.
  - clear Hy. induction Hx; cbn [wins]; lia.
Qed.

(** X6. [winProb(d1, d2)] is [NaN] exactly when one of the two dice has no
    face: the loops then leave [wins] and [total] at 0, and [0 / 0] is
    [NaN]. *)
Theorem winProb_NaN_iff_no_face (d1 d2 : Dice) :
  winProb d1 d2 = NaN <-> faces d1 = [] \/ faces d2 = [].
Proof.
  unfold winProb, winProb_loops. rewrite winProb_loops_counts. cbn [Z.add].
  unfold divZ.
  pose proof (wins_bounds (faces d1) (faces d2)) as Hw.
  destruct (Z.eqb_spec (Z.of_nat (List.length (faces d1))
                        * Z.of_nat (List.length (faces d2))) 0) as [E|E].
  - assert (Hw0 : wins (faces d1) (faces d2) = 0) by lia.
    rewrite Hw0. cbn [Z.eqb]. split; [intros _|reflexivity].
    destruct (faces d1); [left; reflexivity|].
    destruct (faces d2); [right; reflexivity|].
    cbn [List.length] in E. lia.
  - split; [intros H; exfalso; exact (double_not_NaN _ H)|].
    intros [H|H]; rewrite H in E; cbn [List.length] in E; lia.
Qed.

(** X7. For dice with a face or more each, [winProb(d1, d2)] is a number
    between 0 and 1. *)
Theorem winProb_is_probability (d1 d2 : Dice) :
  faces d1 <> [] -> faces d2 <> [] ->
  exists q : Q, winProb d1 d2 = Fin q /\ (0 <= q <= 1)%Q.
Proof.
  intros H1 H2.
  pose proof (wins_bounds (faces d1) (faces d2)) as Hw. fold (pairSpace d1 d2) in Hw.
  pose proof (pairSpace_pos d1 d2 H1 H2) as Hpos.
  destruct (fraction_unit _ _ Hw Hpos) as [Hq0 Hq1].
  destruct (double_unit _ Hq0 Hq1) as (q & Hq & Hlo & Hhi & _).
  exists q. rewrite (winProb_counts d1 d2 H1 H2). auto.
Qed.

(** X8. The order of the faces of a die does not matter: [winProb] gives
    the same number when the faces of either die are permuted. *)
Theorem winProb_Permutation (d1 d1' d2 d2' : Dice) :
  Permutation (faces d1) (faces d1') ->
  Permutation (faces d2) (faces d2') ->
  winProb d1 d2 = winProb d1' d2'.
Proof.
  intros P1 P2. unfold winProb, winProb_loops.
  rewrite !winProb_loops_counts.
  rewrite (wins_Permutation _ _ _ _ P1 P2).
  rewrite (Permutation_length P1), (Permutation_length P2). reflexivity.
Qed.

(** ** Every way a request for a number can end *)

Lemma getUserNumber_cases (max : Z) (lines : list string) :
  forall w, stdin w = lines ->
    match Task3.getUserNumber max w with
    | (Done v, w') =>
        firstValid max lines = Some v
        /\ entropy w' = entropy w /\ randoms w' = randoms w /\ ints w' = ints w
    | (Pending, w') => firstValid max lines = None /\ stdin w' = []
    | _ => False
    end.
Proof.
  induction lines as [|a rest IH]; intros w Hin; rewrite getUserNumber_unfold.
  - unfold Task3.getUserNumber_body, bind, question. io_step. rewrite Hin.
    split; reflexivity.
  - unfold bind at 1. cbn [firstValid].
    destruct (validAnswer max a) eqn:Hok.
    + rewrite (getUserNumber_body_valid max a rest w Hin Hok). io_step.
      repeat split; reflexivity.
    + rewrite (getUserNumber_body_invalid max a rest w Hin Hok).
      apply (IH (mkWorld (entropy w) (randoms w) (ints w) rest
                   (console w ++ [Question (AskNumber max); Log InvalidInput]))).
      reflexivity.
Qed.

(** X9. [getUserNumber] never throws and never exits.  It returns the first
    typed line that is a decimal numeral below the bound, whatever comes
    before it, and uses no random source; when no typed line is one it is
    left waiting, all lines read.  The loop of the two files is the same. *)
Theorem getUserNumber_outcome (this : Part000.FairRandom) (w : world) :
  Part000.getUserNumber this w = Task3.getUserNumber (Part000.range this) w
  /\ match Part000.getUserNumber this w with
     | (Done v, w') =>
         firstValid (Part000.range this) (stdin w) = Some v
         /\ entropy w' = entropy w /\ randoms w' = randoms w /\ ints w' = ints w
     | (Pending, w') => firstValid (Part000.range this) (stdin w) = None /\ stdin w' = []
     | _ => False
     end.
Proof.
  split; [reflexivity|].
  rewrite getUserNumber_same. apply getUserNumber_cases. reflexivity.
Qed.

(** ** Comparisons of rationals *)

Lemma Qeq_bool_false (p q : Q) : ~ (p == q)%Q -> Qeq_bool p q = false.
Proof.
  intros H. destruct (Qeq_bool p q) eqn:E; [|reflexivity].
  exfalso. apply H. apply Qeq_bool_eq. exact E.
Qed.

Lemma Qle_bool_true (p q : Q) : (p <= q)%Q -> Qle_bool p q = true.
Proof. intros H. apply Qle_bool_iff. exact H. Qed.

Lemma Qle_bool_false (p q : Q) : (q < p)%Q -> Qle_bool p q = false.
Proof.
  intros H. destruct (Qle_bool p q) eqn:E; [|reflexivity].
  apply Qle_bool_iff in E. exfalso. apply (Qlt_not_le _ _ H E).
Qed.

(** ** Choosing a die from the menu *)

Section Menu.

Variable Number : string -> jsnum.
Variable dice : list Dice.
Variable exclude : option Z.

Lemma world_eta (w : world) :
  mkWorld (entropy w) (randoms w) (ints w) (stdin w) (console w ++ []) = w.
Proof. destruct w. cbn. rewrite app_nil_r. reflexivity. Qed.

(** One round, up to the answer. *)
Lemma selectDice_body_ask (a : string) (rest : list string) (w : world) :
  stdin w = a :: rest ->
  selectDice_body Number dice exclude false w
  = (if String.eqb a "e" then exit 0
     else if String.eqb a "h" then
       printProbabilityTable dice ;; ret (Continue true)
     else
       if selectable dice exclude (sub1 (Number a)) then ret (Break (sub1 (Number a)))
       else log InvalidChoice ;; ret (Continue false))
      (mkWorld (entropy w) (randoms w) (ints w) rest
         (console w ++ menuLines dice exclude ++ [Question AskChoice])).
Proof.
  intros Hin. unfold selectDice_body, bind at 1 2 3 4 5, question. io_step.
  rewrite Hin. unfold menuLines, selectable.
  cbn [app]. rewrite <- !app_assoc. cbn [app]. reflexivity.
Qed.

Lemma selectDice_body_refused (a : string) (rest : list string) (w : world) :
  stdin w = a :: rest ->
  refused Number dice exclude a = true ->
  selectDice_body Number dice exclude false w
  = (Done (Continue false),
     mkWorld (entropy w) (randoms w) (ints w) rest
       (console w ++ menuLines dice exclude ++ [Question AskChoice; Log InvalidChoice])).
Proof.
  intros Hin Hbad. rewrite (selectDice_body_ask a rest w Hin).
  unfold refused in Hbad. apply andb_true_iff in Hbad. destruct Hbad as [Hbad Hsel].
  apply andb_true_iff in Hbad. destruct Hbad as [He Hh].
  apply negb_true_iff in He, Hh, Hsel. rewrite He, Hh, Hsel.
  unfold bind. io_step. rewrite <- !app_assoc. reflexivity.
Qed.

(** The answers turned down leave the loop where it was. *)
Lemma selectDice_skip (more : list string) (bad : list string) :
  forall w,
    stdin w = bad ++ more ->
    Forall (fun b => refused Number dice exclude b = true) bad ->
    selectDice Number dice exclude w
    = selectDice Number dice exclude
        (mkWorld (entropy w) (randoms w) (ints w) more
           (console w ++ refusals dice exclude bad)).
Proof.
  induction bad as [|b bad IH]; intros w Hin Hbad.
  - cbn [refusals flat_map]. cbn [app] in Hin. rewrite <- Hin, world_eta. reflexivity.
  - inversion Hbad as [|? ? Hb Hbad']; subst.
    rewrite selectDice_unfold. unfold bind at 1.
    rewrite (selectDice_body_refused b (bad ++ more) w Hin Hb).
    change (while_true (selectDice_body Number dice exclude) false)
      with (selectDice Number dice exclude).
    rewrite IH by (try reflexivity; assumption).
    cbn [entropy randoms ints console refusals flat_map].
    rewrite <- !app_assoc. reflexivity.
Qed.

End Menu.

(** The test of [selectDice] on [Number(ans) - 1], read on the number
    typed. *)
Lemma selectable_offered (dice : list Dice) (exclude : option Z) (x : jsnum) :
  selectable dice exclude (sub1 x) = true <-> offered dice exclude x.
Proof.
  unfold selectable, offered.
  destruct x as [| | |q]; cbn [sub1 isNaN negb geZ ltZ andb differs];
    try (split; [discriminate|intros []]).
  rewrite !andb_true_iff, negb_true_iff.
  assert (Hge : Qle_bool (inject_Z 0) (q - 1) = true <-> (1 <= q)%Q).
  { rewrite Qle_bool_iff. change (inject_Z 0) with 0%Q. split; intros; lra. }
  assert (Hlt : Qle_bool (inject_Z (Z.of_nat (List.length dice))) (q - 1) = false
                <-> (q < inject_Z (Z.of_nat (List.length dice)) + 1)%Q).
  { split.
    - intros Hb. destruct (Qlt_le_dec (q - 1) (inject_Z (Z.of_nat (List.length dice))))
        as [H|H]; [lra|].
      apply Qle_bool_iff in H. congruence.
    - intros H. apply Qle_bool_false. lra. }
  assert (Hne : differs (Fin (q - 1)) exclude = true
                <-> match exclude with
                    | Some e => ~ (q - 1 == inject_Z e)%Q
                    | None => True
                    end).
  { destruct exclude as [e|]; cbn [differs eqZ]; [|tauto].
    rewrite negb_true_iff. split.
    - intros Hb E. apply Qeq_bool_iff in E. congruence.
    - apply Qeq_bool_false. }
  rewrite Hge, Hlt, Hne. tauto.
Qed.

Lemma refused_not_offered (Number : string -> jsnum) (dice : list Dice)
    (exclude : option Z) (b : string) :
  b <> "e"%string -> b <> "h"%string -> ~ offered dice exclude (Number b) ->
  refused Number dice exclude b = true.
Proof.
  intros He Hh Hno. unfold refused.
  apply String.eqb_neq in He, Hh. rewrite He, Hh. cbn [negb andb].
  apply negb_true_iff.
  destruct (selectable dice exclude (sub1 (Number b))) eqn:Hsel; [|reflexivity].
  exfalso. apply Hno. apply selectable_offered. exact Hsel.
Qed.

(** X10. [selectDice] returns [Number(a) - 1] for the first answer [a],
    other than [e] and [h], whose number [x] has [1 <= x < dice.length + 1]
    and [x - 1] other than the index excluded; [x] need not be whole, so
    [1.5] is returned as [0.5].  Every answer before it that is neither
    [e] nor [h] and whose number is NaN, an infinity, out of these bounds
    or the excluded index plus one is turned down, with [Invalid choice.]
    and the menu again. *)
Theorem selectDice_first_selectable (Number : string -> jsnum) (dice : list Dice)
    (exclude : option Z) (bad : list string) (a : string) (rest : list string)
    (w : world) :
  stdin w = bad ++ a :: rest ->
  Forall (fun b => b <> "e"%string /\ b <> "h"%string
                   /\ ~ offered dice exclude (Number b)) bad ->
  a <> "e"%string ->
  a <> "h"%string ->
  offered dice exclude (Number a) ->
  selectDice Number dice exclude w
  = (Done (sub1 (Number a)),
     mkWorld (entropy w) (randoms w) (ints w) rest
       (console w ++ refusals dice exclude bad
          ++ menuLines dice exclude ++ [Question AskChoice])).
Proof.
  intros Hin Hbad He Hh Hoff.
  assert (Hrefused : Forall (fun b => refused Number dice exclude b = true) bad).
  { eapply Forall_impl; [|exact Hbad].
    intros b (Hbe & Hbh & Hno). apply refused_not_offered; assumption. }
  apply String.eqb_neq in He, Hh. apply selectable_offered in Hoff.
  rewrite (selectDice_skip Number dice exclude (a :: rest) bad w Hin Hrefused).
  rewrite selectDice_unfold. unfold bind at 1.
  rewrite (selectDice_body_ask Number dice exclude a rest) by reflexivity.
  rewrite He, Hh, Hoff. io_step. rewrite <- !app_assoc. reflexivity.
Qed.

(** X11. The answer [e] ends the process with code 0, also after answers
    that were turned down, and the entry point passes that exit on: its
    [catch] is not involved. *)
Theorem selectDice_exit (Number : string -> jsnum) (dice : list Dice)
    (exclude : option Z) (bad : list string) (rest : list string) (w : world) :
  stdin w = bad ++ "e"%string :: rest ->
  Forall (fun b => refused Number dice exclude b = true) bad ->
  selectDice Number dice exclude w
  = (Exit 0,
     mkWorld (entropy w) (randoms w) (ints w) rest
       (console w ++ refusals dice exclude bad
          ++ menuLines dice exclude ++ [Question AskChoice])).
Proof.
  intros Hin Hbad.
  rewrite (selectDice_skip Number dice exclude ("e"%string :: rest) bad w Hin Hbad).
  rewrite selectDice_unfold. unfold bind at 1.
  rewrite (selectDice_body_ask Number dice exclude "e" rest) by reflexivity.
  cbn [String.eqb Ascii.eqb Bool.eqb]. io_step. rewrite <- !app_assoc. reflexivity.
Qed.

(** X12. The answer [h] prints the table of probabilities and the menu
    once more, and no die is ever chosen after it: the branch has closed
    [rl], so the question that follows the menu is not asked, no further
    line is read, and [selectDice] ends with ERR_USE_AFTER_CLOSE. *)
Theorem selectDice_help_ends (Number : string -> jsnum) (dice : list Dice)
    (exclude : option Z) (bad : list string) (rest : list string) (w : world) :
  stdin w = bad ++ "h"%string :: rest ->
  Forall (fun b => refused Number dice exclude b = true) bad ->
  selectDice Number dice exclude w
  = (Throw ERR_USE_AFTER_CLOSE,
     mkWorld (entropy w) (randoms w) (ints w) rest
       (console w ++ refusals dice exclude bad
          ++ menuLines dice exclude ++ [Question AskChoice]
          ++ tableLines dice ++ menuLines dice exclude)).
Proof.
  intros Hin Hbad.
  rewrite (selectDice_skip Number dice exclude ("h"%string :: rest) bad w Hin Hbad).
  rewrite selectDice_unfold. unfold bind at 1.
  rewrite (selectDice_body_ask Number dice exclude "h" rest) by reflexivity.
  cbn [String.eqb Ascii.eqb Bool.eqb].
  unfold printProbabilityTable, bind at 1 2 3 4. io_step.
  unfold while_true. cbn [iter]. unfold selectDice_body, bind, question. io_step.
  unfold tableLines, menuLines. cbn [app]. rewrite <- !app_assoc. cbn [app].
  rewrite <- !app_assoc. reflexivity.
Qed.

(** ** A choice that is no whole number *)

Lemma between_integers (q : Q) (e : Z) : (0 < q)%Q -> (q < 1)%Q -> ~ (q == inject_Z e)%Q.
Proof.
  intros H0 H1 E. rewrite E in H0, H1.
  change 0%Q with (inject_Z 0) in H0. change 1%Q with (inject_Z 1) in H1.
  rewrite <- Zlt_Qlt in H0, H1. lia.
Qed.

Lemma fraction_selectable (dice : list Dice) (exclude : option Z) (q : Q) :
  dice <> [] -> (0 < q)%Q -> (q < 1)%Q ->
  selectable dice exclude (Fin q) = true /\ toIndex (Fin q) = None.
Proof.
  intros Hne H0 H1. split.
  - assert (Hge : geZ (Fin q) 0 = true).
    { apply Qle_bool_true. apply Qlt_le_weak. exact H0. }
    assert (Hlt : ltZ (Fin q) (Z.of_nat (List.length dice)) = true).
    { cbn [ltZ]. rewrite Qle_bool_false; [reflexivity|].
      apply (Qlt_le_trans _ 1); [exact H1|].
      change 1%Q with (inject_Z 1). rewrite <- Zle_Qle.
      destruct dice; [congruence|]. cbn [List.length]. lia. }
    unfold selectable. rewrite Hge, Hlt. cbn [isNaN negb andb].
    destruct exclude as [e|]; [|reflexivity]. cbn [differs eqZ].
    rewrite (Qeq_bool_false _ _ (between_integers q e H0 H1)). reflexivity.
  - cbn [toIndex].
    rewrite (Qeq_bool_false _ _ (between_integers q (Qfloor q) H0 H1)). reflexivity.
Qed.

(** X13. A choice that is no whole number passes the test of [selectDice]:
    an answer [a] with [1 < Number(a) < 2], as [1.5], is returned as the
    index [Number(a) - 1], whatever die is excluded.  No die is at such an
    index, so the roll that follows throws a TypeError right after the line
    [Your turn to roll...], in both files. *)
Theorem fractional_choice_throws (mac : list byte -> list byte -> list byte)
    (Number : string -> jsnum) (dice : list Dice) (exclude compDice : option Z)
    (a : string) (q : Q) (rest : list string) (w w1 : world) :
  dice <> [] ->
  stdin w = a :: rest ->
  String.eqb a "e" = false ->
  String.eqb a "h" = false ->
  Number a = Fin q ->
  (1 < q)%Q -> (q < 2)%Q ->
  selectDice Number dice exclude w
  = (Done (Fin (q - 1)),
     mkWorld (entropy w) (randoms w) (ints w) rest
       (console w ++ menuLines dice exclude ++ [Question AskChoice]))
  /\ Part000.rollDice mac dice (Fin (q - 1)) compDice w1
     = (Throw (TypeError "Cannot read properties of undefined"), emit (Log YourTurn) w1)
  /\ Task3.rollDice dice (Fin (q - 1)) compDice w1
     = (Throw (TypeError "Cannot read properties of undefined"), emit (Log YourTurn) w1).
Proof.
  intros Hne Hin He Hh Hnum Hlo Hhi.
  assert (H0 : (0 < q - 1)%Q) by lra.
  assert (H1 : (q - 1 < 1)%Q) by lra.
  destruct (fraction_selectable dice exclude (q - 1) Hne H0 H1) as [Hsel Hidx].
  split; [|split].
  - rewrite selectDice_unfold. unfold bind at 1.
    rewrite (selectDice_body_ask Number dice exclude a rest w Hin).
    rewrite He, Hh, Hnum. cbn [sub1]. rewrite Hsel. reflexivity.
  - unfold Part000.rollDice, bind at 1 2. io_step. rewrite Hidx. reflexivity.
  - unfold Task3.rollDice, bind at 1 2. io_step. rewrite Hidx. reflexivity.
Qed.

(** ** The sampler, draw by draw *)

(** The threshold the code computes is a multiple of the range, and it is
    above [2^31]. *)
Lemma threshold_multiple (range : Z) :
  1 <= range <= 2 ^ 32 ->
  2 ^ 32 - Z.rem (2 ^ 32) range = range * (2 ^ 32 / range)
  /\ 2 ^ 31 < 2 ^ 32 - Z.rem (2 ^ 32) range.
Proof.
  intros Hrange. rewrite Z.rem_mod_nonneg by lia.
  change (2 ^ 31) with 2147483648. change (2 ^ 32) with 4294967296 in *.
  pose proof (Z.div_mod 4294967296 range ltac:(lia)) as Hdm.
  pose proof (Z.mod_pos_bound 4294967296 range ltac:(lia)) as Hm.
  split; [lia|].
  destruct (Z.le_gt_cases range 2147483648) as [Hsmall|Hbig]; [lia|].
  assert (Hq : 1 <= 4294967296 / range).
  { apply Z.div_le_lower_bound; lia. }
  nia.
Qed.

(** X14. The sampler has no bias: for a range from 1 to [2^32], one round
    of the loop on the 32-bit draw [r] returns [v] exactly when [v] is
    below the range and [r = k * range + v] for some [k] below
    [2^32 / range]; each value is returned for the same number of draws,
    [floor(2^32 / range)]. *)
Theorem uniformRandom_body_uniform (range r v : Z) (rest : list byte) (w : world) :
  1 <= range <= 2 ^ 32 ->
  0 <= r < 2 ^ 32 ->
  entropy w = uint32BE r ++ rest ->
  fst (Part000.uniformRandom_body range tt w) = Done (Break v)
  <-> (0 <= v < range /\ exists k, 0 <= k < 2 ^ 32 / range /\ r = k * range + v).
Proof.
  intros Hrange Hr Hin.
  pose proof (uint32BE_value r Hr) as Hval.
  assert (Hlen : List.length (uint32BE r) = 4%nat) by reflexivity.
  assert (Hne : range <> 0) by lia.
  destruct (threshold_multiple range Hrange) as [Hth _].
  pose proof (Z.div_mod r range Hne) as Hdm.
  pose proof (Z.mod_pos_bound r range ltac:(lia)) as Hm.
  destruct (Z.lt_ge_cases r (2 ^ 32 - Z.rem (2 ^ 32) range)) as [Hacc|Hrej].
  - rewrite (uniformRandom_body_accept range (uint32BE r) rest w Hne Hlen Hin)
      by (rewrite Hval; exact Hacc).
    cbn [fst]. rewrite Hval, Z.rem_mod_nonneg by lia. rewrite Hth in Hacc.
    split.
    + intros E. injection E as <-. split; [exact Hm|].
      exists (r / range). split; [|lia].
      split; [apply Z.div_pos; lia|].
      apply Z.div_lt_upper_bound; lia.
    + intros (Hv & k & Hk & ->). do 2 f_equal.
      rewrite Z.add_comm, Z.mod_add by lia. apply Z.mod_small. exact Hv.
  - rewrite (uniformRandom_body_reject range (uint32BE r) rest w Hne Hlen Hin)
      by (rewrite Hval; exact Hrej).
    cbn [fst]. rewrite Hth in Hrej.
    split; [discriminate|].
    intros (Hv & k & Hk & Heq). exfalso.
    assert (Hk' : k + 1 <= 2 ^ 32 / range) by lia.
    assert (range * (k + 1) <= range * (2 ^ 32 / range))
      by (apply Z.mul_le_mono_nonneg_l; lia).
    lia.
Qed.

(** X15. A draw below [2^31] is never discarded: for every range from 1
    to [2^32] the sampler returns it, reduced, at once; a round of the loop
    goes round again for less than half of the draws. *)
Theorem uniformRandom_low_draw_accepted (range : Z) (bs rest : list byte) (w : world) :
  1 <= range <= 2 ^ 32 ->
  List.length bs = 4%nat ->
  beValue bs < 2 ^ 31 ->
  entropy w = bs ++ rest ->
  Part000.uniformRandom range w
  = (Done (beValue bs mod range),
     mkWorld rest (randoms w) (ints w) (stdin w) (console w)).
Proof.
  intros Hrange Hlen Hlow Hin.
  destruct (threshold_multiple range Hrange) as [_ Hhalf].
  pose proof (beValue_word bs Hlen) as Hword.
  rewrite (uniformRandom_run range [] bs rest w); try assumption.
  - rewrite Z.rem_mod_nonneg by lia. reflexivity.
  - lia.
  - constructor.
  - lia.
Qed.

Lemma uniformRandom_starved (range : Z) (w : world) :
  (List.length (entropy w) < 4)%nat ->
  Part000.uniformRandom range w = (Pending, w).
Proof.
  intros Hshort. rewrite uniformRandom_unfold.
  unfold Part000.uniformRandom_body, bind, randomBytes.
  destruct (Nat.ltb_spec (List.length (entropy w)) 4) as [_|]; [reflexivity|lia].
Qed.

Lemma uniformRandom_above_span (range : Z) :
  2 ^ 32 < range ->
  forall n w, List.length (entropy w) = n ->
    fst (Part000.uniformRandom range w) = Pending
    /\ (List.length (entropy (snd (Part000.uniformRandom range w))) < 4)%nat.
Proof.
  intros Hrange n. induction n as [n IH] using lt_wf_ind. intros w Hn.
  destruct (Nat.lt_ge_cases (List.length (entropy w)) 4) as [Hshort|Hlong].
  - rewrite (uniformRandom_starved range w Hshort). split; [reflexivity|exact Hshort].
  - assert (Hlen : List.length (firstn 4 (entropy w)) = 4%nat)
      by (rewrite length_firstn; lia).
    assert (Hin : entropy w = firstn 4 (entropy w) ++ skipn 4 (entropy w))
      by (symmetry; apply firstn_skipn).
    pose proof (beValue_word _ Hlen) as Hword.
    assert (Hstep : Part000.uniformRandom range w
                    = Part000.uniformRandom range
                        (mkWorld (skipn 4 (entropy w)) (randoms w) (ints w)
                           (stdin w) (console w))).
    { rewrite uniformRandom_unfold. unfold bind at 1.
      rewrite (uniformRandom_body_reject range _ _ w ltac:(lia) Hlen Hin);
        [reflexivity|].
      rewrite Z.rem_small by lia. lia. }
    rewrite Hstep.
    apply (IH (List.length (skipn 4 (entropy w)))); [|reflexivity].
    rewrite length_skipn. lia.
Qed.

(** X16. A range above [2^32] makes the threshold 0: every draw is
    discarded, and the sampler reads draw after draw without ever
    returning (nor throwing). *)
Theorem uniformRandom_range_above_span (range : Z) (w : world) :
  2 ^ 32 < range ->
  fst (Part000.uniformRandom range w) = Pending
  /\ (List.length (entropy (snd (Part000.uniformRandom range w))) < 4)%nat.
Proof.
  intros Hrange. apply (uniformRandom_above_span range Hrange _ w eq_refl).
Qed.

(** ** Sessions: the constructor and the commitment *)

Lemma toHex_injective (bs bs' : list byte) : toHex bs = toHex bs' -> bs = bs'.
Proof.
  intros E. pose proof (fromHex_toHex bs) as H. rewrite E, fromHex_toHex in H.
  congruence.
Qed.

Lemma calcHMAC_Done (mac : list byte -> list byte -> list byte) (key : list byte)
    (n : Z) (h : string) :
  Part000.calcHMAC mac key n = Done h ->
  0 <= n < 2 ^ 32 /\ h = toHex (mac key (uint32BE n)).
Proof.
  unfold Part000.calcHMAC, Part000.writeUInt32BE. change (2 ^ 32) with 4294967296.
  destruct (Z.leb_spec 0 n); cbn [andb]; [|discriminate].
  destruct (Z.leb_spec n 4294967295); [|discriminate].
  intros E. injection E as <-. split; [lia|reflexivity].
Qed.

Lemma calcHMAC_word (mac : list byte -> list byte -> list byte) (key : list byte) (n : Z) :
  0 <= n < 2 ^ 32 ->
  Part000.calcHMAC mac key n = Done (toHex (mac key (uint32BE n))).
Proof.
  intros Hn. change (2 ^ 32) with 4294967296 in Hn.
  unfold Part000.calcHMAC, Part000.writeUInt32BE.
  destruct (Z.leb_spec 0 n); [|lia].
  destruct (Z.leb_spec n 4294967295); [|lia]. reflexivity.
Qed.

(** X17. The commitment binds the computer to its number: two numbers
    with the same commitment under one key are the same number, unless the
    MAC gives one tag to their two different 4-byte messages. *)
Theorem commitment_binds_number (mac : list byte -> list byte -> list byte)
    (key : list byte) (n1 n2 : Z) (h : string) :
  Part000.calcHMAC mac key n1 = Done h ->
  Part000.calcHMAC mac key n2 = Done h ->
  n1 = n2
  \/ (uint32BE n1 <> uint32BE n2 /\ mac key (uint32BE n1) = mac key (uint32BE n2)).
Proof.
  intros H1 H2.
  apply calcHMAC_Done in H1, H2. destruct H1 as [Hn1 Hh1], H2 as [Hn2 Hh2].
  destruct (Z.eq_dec n1 n2) as [E|D]; [left; exact E|right].
  split.
  - intros E. apply D.
    rewrite <- (uint32BE_value n1 Hn1), <- (uint32BE_value n2 Hn2), E. reflexivity.
  - apply toHex_injective. congruence.
Qed.

(** X18. [new FairRandom(range)], for a range from 1 to [2^32], takes
    the key first, 32 bytes, then the draws of the sampler; the session it
    returns holds that key, the first accepted draw reduced, and the MAC
    under that key of the number written big-endian on 4 bytes.  It prints
    nothing and reads no line. *)
Theorem new_FairRandom_run (mac : list byte -> list byte -> list byte) (range : Z)
    (k : list byte) (rejected : list (list byte)) (accepted rest : list byte)
    (w : world) :
  1 <= range <= 2 ^ 32 ->
  List.length k = 32%nat ->
  Forall (discarded range) rejected ->
  List.length accepted = 4%nat ->
  beValue accepted < 2 ^ 32 - Z.rem (2 ^ 32) range ->
  entropy w = k ++ List.concat rejected ++ accepted ++ rest ->
  Part000.new_FairRandom mac range w
  = (Done (Part000.mkFairRandom range k (beValue accepted mod range)
             (toHex (mac k (uint32BE (beValue accepted mod range))))),
     mkWorld rest (randoms w) (ints w) (stdin w) (console w)).
Proof.
  intros Hrange Hk Hrej Hacc Hlow Hin.
  pose proof (Z.mod_pos_bound (beValue accepted) range ltac:(lia)) as Hm.
  pose proof (beValue_word accepted Hacc) as Hword.
  unfold Part000.new_FairRandom. unfold bind at 1.
  rewrite (randomBytes_take 32 k _ w Hk Hin). unfold bind at 1.
  rewrite (uniformRandom_run range rejected accepted rest); try assumption;
    [|lia|reflexivity].
  rewrite Z.rem_mod_nonneg by lia.
  unfold bind at 1, lift. rewrite calcHMAC_word by lia. reflexivity.
Qed.

Lemma uniformRandom_never_throws (range : Z) :
  range <> 0 ->
  forall n w e, List.length (entropy w) = n ->
    fst (Part000.uniformRandom range w) <> Throw e.
Proof.
  intros Hne n. induction n as [n IH] using lt_wf_ind. intros w e Hn.
  destruct (Nat.lt_ge_cases (List.length (entropy w)) 4) as [Hshort|Hlong].
  - rewrite (uniformRandom_starved range w Hshort). discriminate.
  - assert (Hlen : List.length (firstn 4 (entropy w)) = 4%nat)
      by (rewrite length_firstn; lia).
    assert (Hin : entropy w = firstn 4 (entropy w) ++ skipn 4 (entropy w))
      by (symmetry; apply firstn_skipn).
    rewrite uniformRandom_unfold. unfold bind at 1.
    destruct (Z.lt_ge_cases (beValue (firstn 4 (entropy w)))
                (2 ^ 32 - Z.rem (2 ^ 32) range)) as [Hacc|Hrej].
    + rewrite (uniformRandom_body_accept range _ _ w Hne Hlen Hin Hacc). discriminate.
    + rewrite (uniformRandom_body_reject range _ _ w Hne Hlen Hin Hrej).
      apply (IH (List.length (skipn 4 (entropy w)))); [|reflexivity].
      rewrite length_skipn. lia.
Qed.

Lemma uniformRandom_throws (range : Z) (w : world) (e : error) :
  fst (Part000.uniformRandom range w) = Throw e ->
  range = 0 /\ e = RangeError "Division by zero".
Proof.
  intros Hthrow. destruct (Z.eq_dec range 0) as [->|Hne].
  - split; [reflexivity|].
    destruct (Nat.lt_ge_cases (List.length (entropy w)) 4) as [Hshort|Hlong].
    + rewrite (uniformRandom_starved 0 w Hshort) in Hthrow. discriminate.
    + rewrite (uniformRandom_zero (firstn 4 (entropy w)) (skipn 4 (entropy w)) w)
        in Hthrow.
      * cbn [fst] in Hthrow. congruence.
      * rewrite length_firstn. lia.
      * symmetry. apply firstn_skipn.
  - exfalso. exact (uniformRandom_never_throws range Hne _ w e eq_refl Hthrow).
Qed.

(** X19. The constructor, on an integer range, throws for the range 0
    only, and then the RangeError of the division by zero: the number the
    sampler returns is always an unsigned 32-bit number, so
    [writeUInt32BE] never rejects it. *)
Theorem new_FairRandom_throws_only_zero (mac : list byte -> list byte -> list byte)
    (range : Z) (w : world) (e : error) :
  fst (Part000.new_FairRandom mac range w) = Throw e ->
  range = 0 /\ e = RangeError "Division by zero".
Proof.
  unfold Part000.new_FairRandom, bind at 1.
  destruct (randomBytes 32 w) as [[k|e0|c|] w0] eqn:Hk; cbn [fst];
    try discriminate.
  - unfold bind at 1.
    destruct (Part000.uniformRandom range w0) as [[n|e1|c|] w1] eqn:Hu; cbn [fst];
      try discriminate.
    + pose proof (post_done _ _ _ _ _ _ (uniformRandom_post range w0) Hu) as [Hn _].
      unfold bind, lift. rewrite calcHMAC_word by exact Hn. discriminate.
    + intros E. injection E as <-.
      apply (uniformRandom_throws range w0). rewrite Hu. reflexivity.
  - unfold randomBytes in Hk. destruct (_ <? _)%nat; discriminate.
Qed.

(** ** The result of a session, seen from the computer *)

Lemma validAnswer_numeral (range v : Z) :
  0 <= v < range ->
  validAnswer range (String_of_int v) = true /\ Number_digits (String_of_int v) = v.
Proof.
  intros Hv. destruct (String_of_int_digits v ltac:(lia)) as [Hd Hn].
  split; [|exact Hn]. unfold validAnswer. rewrite Hd, Hn. cbn [andb].
  apply andb_true_iff. split; [apply Z.geb_le|apply Z.ltb_lt]; lia.
Qed.

(** X20. Whoever knows the secret number of a session decides its result:
    for a secret below the range, every result [t] below the range is
    what [getResult] returns for one answer of the user, and for one
    only.  Hence the secret is committed to before the answer and shown
    after it. *)
Theorem getResult_one_answer_per_result (this : Part000.FairRandom) (t : Z) :
  0 <= Part000.number this < Part000.range this ->
  0 <= t < Part000.range this ->
  exists v,
    0 <= v < Part000.range this
    /\ (forall w rest, stdin w = String_of_int v :: rest ->
          fst (Part000.getResult this w) = Done t)
    /\ (forall v' w rest,
          0 <= v' < Part000.range this ->
          stdin w = String_of_int v' :: rest ->
          fst (Part000.getResult this w) = Done t -> v' = v).
Proof.
  intros Hs Ht.
  set (r := Part000.range this) in *. set (s := Part000.number this) in *.
  assert (Hrun : forall u w rest, 0 <= u < r -> stdin w = String_of_int u :: rest ->
            fst (Part000.getResult this w) = Done ((u + s) mod r)).
  { intros u w rest Hu Hin.
    destruct (validAnswer_numeral r u Hu) as [Hok Hn].
    rewrite (getResult_run this [] (String_of_int u) rest w Hin (Forall_nil _) Hok).
    cbn [fst]. rewrite Hn. fold s r. rewrite Z.rem_mod_nonneg by lia. reflexivity. }
  pose proof (Z.mod_pos_bound (t - s) r ltac:(lia)) as Hv.
  exists ((t - s) mod r). split; [exact Hv|]. split.
  - intros w rest Hin. rewrite (Hrun _ w rest Hv Hin). f_equal.
    rewrite Zplus_mod_idemp_l. replace (t - s + s) with t by lia.
    apply Z.mod_small. exact Ht.
  - intros v' w rest Hv' Hin Hres. rewrite (Hrun _ w rest Hv' Hin) in Hres.
    injection Hres as Hres. rewrite <- Hres.
    rewrite Zminus_mod_idemp_l. replace (v' + s - s) with v' by lia.
    symmetry. apply Z.mod_small. exact Hv'.
Qed.

(** ** Who selects first, in the plain variant *)

(** X21. In [task3.js] the user is asked first and the computer draws
    after the answer, with [crypto.randomInt(0, 2)]; the user selects first
    exactly when the two numbers are equal.  Both numbers, their sum modulo
    2 and the outcome are printed, in this order. *)
Theorem decideFirst_plain_run (bad : list string) (a : string) (rest : list string)
    (z : Z) (more : list Z) (w : world) :
  stdin w = bad ++ a :: rest ->
  Forall (fun b => validAnswer 2 b = false) bad ->
  validAnswer 2 a = true ->
  ints w = z :: more ->
  Task3.decideFirst w
  = (Done (Number_digits a =? z mod 2),
     mkWorld (entropy w) (randoms w) more rest
       (console w ++ Log Deciding :: retries 2 bad
          ++ [ Question (AskNumber 2);
               Log (YourNumber (Number_digits a));
               Log (ComputersNumber (z mod 2));
               Log (ResultMod2 ((Number_digits a + z mod 2) mod 2));
               Log (WhoFirst (Number_digits a =? z mod 2)) ])).
Proof.
  intros Hin Hbad Hok Hints.
  assert (Hu : 0 <= Number_digits a < 2).
  { unfold validAnswer in Hok. apply andb_true_iff in Hok. destruct Hok as [_ Hok].
    apply andb_true_iff in Hok. destruct Hok as [Hge Hlt].
    apply Z.geb_le in Hge. apply Z.ltb_lt in Hlt. lia. }
  pose proof (Z.mod_pos_bound z 2 ltac:(lia)) as Hc.
  unfold Task3.decideFirst. unfold bind at 1. io_step. unfold bind at 1.
  rewrite (getUserNumber_run 2 bad a rest
             (mkWorld (entropy w) (randoms w) (ints w) (stdin w)
                (console w ++ [Log Deciding])) Hin Hbad Hok).
  cbn [entropy randoms ints stdin console].
  unfold bind at 1, randomInt. cbn [ints Z.leb Z.compare]. rewrite Hints.
  change (0 + z mod (2 - 0)) with (z mod 2).
  unfold bind. io_step.
  rewrite Z.rem_mod_nonneg by lia.
  assert (Hfirst : ((Number_digits a + z mod 2) mod 2 =? 0)
                   = (Number_digits a =? z mod 2)).
  { destruct (Z.eqb_spec (Number_digits a) (z mod 2)) as [E|D].
    - rewrite E. apply Z.eqb_eq.
      replace (z mod 2 + z mod 2) with (2 * (z mod 2)) by lia.
      rewrite Z.mul_comm. apply Z_mod_mult.
    - apply Z.eqb_neq.
      assert (Hsum : Number_digits a + z mod 2 = 1) by lia.
      rewrite Hsum. discriminate. }
  rewrite Hfirst. rewrite <- !app_assoc. reflexivity.
Qed.

(** ** The faces rolled are faces of the dice chosen *)

(** What follows a step may rely on what the step returns. *)
Lemma emitsOnly_bind_post {A B : Type} (P : event -> Prop) (R : A -> Prop)
    (m : M A) (k : A -> M B) :
  emitsOnly P m ->
  (forall w, post m w (fun a _ => R a) (fun _ => True)) ->
  (forall a, R a -> emitsOnly P (k a)) ->
  emitsOnly P (bind m k).
Proof.
  intros Hm HR Hk w. destruct (Hm w) as (es & Hes & HP).
  specialize (HR w). unfold post in HR.
  unfold bind. destruct (m w) as [[a| e | c |] w'] eqn:Hrun; cbn [snd] in Hes.
  - destruct (Hk a HR w') as (es' & Hes' & HP').
    exists (es ++ es'). rewrite Hes', Hes, app_assoc. split; [reflexivity|].
    apply Forall_app; auto.
  - exists es; auto.
  - exists es; auto.
  - exists es; auto.
Qed.

Lemma dieAt_post (dice : list Dice) (i : option Z) (w : world) :
  post (dieAt dice i) w
    (fun d _ => exists k, i = Some k /\ index dice k = Some d) (fun _ => True).
Proof.
  unfold post, dieAt. destruct i as [k|]; [|exact I].
  destruct (index dice k) as [d|] eqn:Hd; [|exact I].
  exists k. split; [reflexivity|exact Hd].
Qed.

Lemma faceOf_index (dice : list Dice) (i : option Z) (k : Z) (d : Dice) (r : Z) :
  i = Some k -> index dice k = Some d ->
  0 <= r < Z.of_nat (List.length (faces d)) ->
  faceOf dice i (faceAt d r).
Proof.
  intros Hi Hd Hr. destruct (index_Some (faces d) r Hr) as [x Hx].
  exists k, d, x. unfold faceAt. rewrite Hx.
  repeat split; try assumption. apply (index_In _ _ _ Hx).
Qed.

(** The result of a session the constructor returned is below the range. *)
Lemma getResult_range (this : Part000.FairRandom) (w : world) :
  0 <= Part000.number this ->
  (1 <= Part000.range this -> Part000.number this < Part000.range this) ->
  post (Part000.getResult this) w
    (fun r _ => 0 <= r < Part000.range this) (fun _ => True).
Proof.
  intros Hs0 Hs. unfold Part000.getResult.
  eapply post_seq with (R := fun _ _ => True).
  { unfold post, Part000.showHMAC, log. exact I. }
  intros _ w1 _.
  eapply post_seq; [rewrite getUserNumber_same; apply getUserNumber_range|].
  intros v w2 Hv. cbn beta in Hv.
  eapply post_seq with (R := fun _ _ => True).
  { unfold post, Part000.reveal, bind, log. exact I. }
  intros _ w3 _. apply post_ret.
  rewrite Z.rem_mod_nonneg by lia. apply Z.mod_pos_bound. lia.
Qed.

Section Rolls.

Variable mac : list byte -> list byte -> list byte.
Variable dice : list Dice.
Variable userDice : jsnum.
Variable compDice : option Z.

Ltac calm := apply emitsOnly_log; exact I.

Lemma rolls_getUserNumber (max : Z) :
  emitsOnly (rolledFrom dice userDice compDice) (Task3.getUserNumber max).
Proof.
  apply emitsOnly_while_true. intros [].
  unfold Task3.getUserNumber_body.
  apply emitsOnly_bind; [apply emitsOnly_question; exact I|intros a].
  destruct (test_digits a);
    [destruct ((Number_digits a >=? 0) && (Number_digits a <? max))|];
    try apply emitsOnly_ret;
    (apply emitsOnly_bind; [calm|intros _; apply emitsOnly_ret]).
Qed.

Lemma rolls_reveal (this : Part000.FairRandom) :
  emitsOnly (rolledFrom dice userDice compDice) (Part000.reveal this).
Proof.
  unfold Part000.reveal. apply emitsOnly_bind; [calm|intros _; calm].
Qed.

Lemma rolls_getResult (this : Part000.FairRandom) :
  emitsOnly (rolledFrom dice userDice compDice) (Part000.getResult this).
Proof.
  unfold Part000.getResult, Part000.showHMAC.
  apply emitsOnly_bind; [calm|intros _].
  apply emitsOnly_bind; [apply rolls_getUserNumber|intros v].
  apply emitsOnly_bind; [apply rolls_reveal|intros _; apply emitsOnly_ret].
Qed.

Lemma rolls_verdict (x y : option Z) :
  emitsOnly (rolledFrom dice userDice compDice) (log (verdict x y)).
Proof.
  apply emitsOnly_log. unfold verdict.
  destruct (faceGt x y); [exact I|]. destruct (faceGt y x); exact I.
Qed.

Lemma rolls_part000 :
  emitsOnly (rolledFrom dice userDice compDice)
    (Part000.rollDice mac dice userDice compDice).
Proof.
  unfold Part000.rollDice.
  apply emitsOnly_bind; [calm|intros _].
  eapply emitsOnly_bind_post;
    [apply (quiet_dieAt _)|intros w; apply dieAt_post|].
  intros ud (ku & Hku & Hud). cbn beta.
  eapply emitsOnly_bind_post;
    [apply (quiet_new_FairRandom _)|intros w; apply (new_FairRandom_post mac)|].
  intros userRoll (Hrange & Hnum & Hbelow & _). cbn beta.
  eapply emitsOnly_bind_post;
    [apply rolls_getResult
    |intros w; apply getResult_range; [lia|rewrite Hrange; exact Hbelow]|].
  intros userRollRes Hres. cbn beta. rewrite Hrange in Hres.
  apply emitsOnly_bind.
  { apply emitsOnly_log. exact (faceOf_index dice _ ku ud _ Hku Hud Hres). }
  intros _.
  apply emitsOnly_bind; [calm|intros _].
  eapply emitsOnly_bind_post;
    [apply (quiet_dieAt _)|intros w; apply dieAt_post|].
  intros cd (kc & Hkc & Hcd). cbn beta.
  eapply emitsOnly_bind_post;
    [apply (quiet_new_FairRandom _)|intros w; apply (new_FairRandom_post mac)|].
  intros compRoll (Hrange' & Hnum' & Hbelow' & _). cbn beta.
  apply emitsOnly_bind; [unfold Part000.showHMAC; calm|intros _].
  eapply emitsOnly_bind_post;
    [rewrite getUserNumber_same; apply rolls_getUserNumber
    |intros w; rewrite getUserNumber_same; apply getUserNumber_range|].
  intros compUserNum Huser. cbn beta. rewrite Hrange' in Huser.
  apply emitsOnly_bind; [apply rolls_reveal|intros _].
  assert (Hres' : 0 <= Z.rem (Part000.number compRoll + compUserNum)
                         (Z.of_nat (List.length (faces cd)))
                  < Z.of_nat (List.length (faces cd))).
  { rewrite Z.rem_mod_nonneg by lia. apply Z.mod_pos_bound. lia. }
  apply emitsOnly_bind; [|intros _; apply rolls_verdict].
  apply emitsOnly_log. exact (faceOf_index dice _ kc cd _ Hkc Hcd Hres').
Qed.

Lemma rolls_task3 :
  emitsOnly (rolledFrom dice userDice compDice)
    (Task3.rollDice dice userDice compDice).
Proof.
  unfold Task3.rollDice.
  apply emitsOnly_bind; [calm|intros _].
  eapply emitsOnly_bind_post;
    [apply (quiet_dieAt _)|intros w; apply dieAt_post|].
  intros ud (ku & Hku & Hud). cbn beta.
  eapply emitsOnly_bind_post;
    [apply emitsOnly_randomInt|intros w; apply randomInt_post|].
  intros userRollIdx Hres. cbn beta.
  apply emitsOnly_bind.
  { apply emitsOnly_log. exact (faceOf_index dice _ ku ud _ Hku Hud Hres). }
  intros _.
  apply emitsOnly_bind; [calm|intros _].
  eapply emitsOnly_bind_post;
    [apply (quiet_dieAt _)|intros w; apply dieAt_post|].
  intros cd (kc & Hkc & Hcd). cbn beta.
  eapply emitsOnly_bind_post;
    [apply emitsOnly_randomInt|intros w; apply randomInt_post|].
  intros compRollIdx Hres'. cbn beta.
  apply emitsOnly_bind; [|intros _; apply rolls_verdict].
  apply emitsOnly_log. exact (faceOf_index dice _ kc cd _ Hkc Hcd Hres').
Qed.

End Rolls.

(** X22. Every face the two rolls show is a face of the die chosen: in
    both files, whatever the dice, the indices chosen, the random sources
    and the lines typed, a line [You rolled face: ...] shows a face of the
    die at [userDice] and a line [Computer rolled face: ...] a face of the
    die at [compDice]; [undefined] is never shown as a face. *)
Theorem rolled_faces_of_chosen_dice (mac : list byte -> list byte -> list byte)
    (dice : list Dice) (userDice : jsnum) (compDice : option Z) :
  emitsOnly (rolledFrom dice userDice compDice)
    (Part000.rollDice mac dice userDice compDice)
  /\ emitsOnly (rolledFrom dice userDice compDice)
       (Task3.rollDice dice userDice compDice).
Proof.
  split; [apply rolls_part000|apply rolls_task3].
Qed.

(** ** The two rolls, from the lines typed and the numbers drawn *)

Lemma dieAt_Some (dice : list Dice) (k : Z) (d : Dice) (w : world) :
  index dice k = Some d -> dieAt dice (Some k) w = (Done d, w).
Proof. intros H. unfold dieAt. rewrite H. reflexivity. Qed.

Lemma randomInt_below (n z : Z) (more : list Z) (w : world) :
  0 < n -> ints w = z :: more ->
  randomInt 0 n w
  = (Done (z mod n), mkWorld (entropy w) (randoms w) more (stdin w) (console w)).
Proof.
  intros Hn Hints. unfold randomInt.
  destruct (Z.leb_spec n 0) as [|_]; [lia|].
  rewrite Hints, Z.sub_0_r, Z.add_0_l. reflexivity.
Qed.

Lemma faces_length_pos (d : Dice) : faces d <> [] -> 0 < Z.of_nat (List.length (faces d)).
Proof. destruct (faces d); [congruence|]. cbn [List.length]. lia. Qed.

(** X23. The rolls of [task3.js]: with the die at [userDice] and the die
    at [compDice] having a face or more each, the user's roll is the face
    at the next number [crypto.randomInt] gives, the computer's the face at
    the one after; both are shown, and the verdict compares them:
    [You win!] when the user's face is the greater, [Computer wins!] when
    the computer's is, [It's a tie!] when they are equal. *)
Theorem rollDice_plain_run (dice : list Dice) (userDice : jsnum) (ku kc : Z)
    (ud cd : Dice) (z1 z2 : Z) (more : list Z) (w : world) :
  toIndex userDice = Some ku ->
  index dice ku = Some ud ->
  index dice kc = Some cd ->
  faces ud <> [] -> faces cd <> [] ->
  ints w = z1 :: z2 :: more ->
  exists x y,
    faceAt ud (z1 mod Z.of_nat (List.length (faces ud))) = Some x
    /\ faceAt cd (z2 mod Z.of_nat (List.length (faces cd))) = Some y
    /\ Task3.rollDice dice userDice (Some kc) w
       = (Done tt,
          mkWorld (entropy w) (randoms w) more (stdin w)
            (console w
               ++ [ Log YourTurn; Log (YouRolled (Some x));
                    Log ComputersTurn; Log (ComputerRolled (Some y));
                    Log (if x >? y then YouWin
                         else if y >? x then ComputerWins else Tie) ])).
Proof.
  intros Hku Hud Hcd Hnu Hnc Hints.
  pose proof (faces_length_pos ud Hnu) as Hlu.
  pose proof (faces_length_pos cd Hnc) as Hlc.
  destruct (index_Some (faces ud) (z1 mod Z.of_nat (List.length (faces ud)))
              (Z.mod_pos_bound _ _ Hlu)) as [x Hx].
  destruct (index_Some (faces cd) (z2 mod Z.of_nat (List.length (faces cd)))
              (Z.mod_pos_bound _ _ Hlc)) as [y Hy].
  exists x, y. split; [exact Hx|]. split; [exact Hy|].
  unfold Task3.rollDice. rewrite Hku.
  unfold bind at 1, log. unfold bind at 1. rewrite (dieAt_Some dice ku ud _ Hud).
  unfold bind at 1.
  rewrite (randomInt_below _ z1 (z2 :: more) (emit (Log YourTurn) w) Hlu Hints).
  unfold bind at 1 2, log. unfold emit; cbn [entropy randoms ints stdin console].
  unfold bind at 1. rewrite (dieAt_Some dice kc cd _ Hcd).
  unfold bind at 1.
  match goal with
  | |- context [randomInt 0 _ ?W] =>
      rewrite (randomInt_below _ z2 more W Hlc eq_refl)
  end.
  unfold bind, log. unfold emit; cbn [entropy randoms ints stdin console].
  unfold faceAt in Hx, Hy |- *. rewrite Hx, Hy. unfold verdict, faceGt.
  rewrite <- !app_assoc. reflexivity.
Qed.

(** X24. The rolls of the commit-reveal variant, end to end.  Each roll is
    a session of its own over the number of faces of the die: key and
    secret are drawn, the commitment is shown, the user answers, key and
    secret are shown, and the face rolled is the one at
    [(secret + answer) mod faces]; the user's roll comes first, and the
    verdict compares the two faces. *)
Theorem rollDice_sessions_run (mac : list byte -> list byte -> list byte)
    (dice : list Dice) (userDice : jsnum) (ku kc : Z) (ud cd : Dice)
    (k1 d1 k2 d2 rest : list byte) (a1 a2 : string) (lines : list string)
    (w : world) :
  toIndex userDice = Some ku ->
  index dice ku = Some ud ->
  index dice kc = Some cd ->
  faces ud <> [] -> faces cd <> [] ->
  Z.of_nat (List.length (faces ud)) <= 2 ^ 32 ->
  Z.of_nat (List.length (faces cd)) <= 2 ^ 32 ->
  List.length k1 = 32%nat -> List.length d1 = 4%nat ->
  List.length k2 = 32%nat -> List.length d2 = 4%nat ->
  beValue d1 < 2 ^ 31 -> beValue d2 < 2 ^ 31 ->
  entropy w = k1 ++ d1 ++ k2 ++ d2 ++ rest ->
  stdin w = a1 :: a2 :: lines ->
  validAnswer (Z.of_nat (List.length (faces ud))) a1 = true ->
  validAnswer (Z.of_nat (List.length (faces cd))) a2 = true ->
  let lu := Z.of_nat (List.length (faces ud)) in
  let lc := Z.of_nat (List.length (faces cd)) in
  let n1 := beValue d1 mod lu in
  let n2 := beValue d2 mod lc in
  exists x y,
    faceAt ud ((n1 + Number_digits a1) mod lu) = Some x
    /\ faceAt cd ((n2 + Number_digits a2) mod lc) = Some y
    /\ Part000.rollDice mac dice userDice (Some kc) w
       = (Done tt,
          mkWorld rest (randoms w) (ints w) lines
            (console w
               ++ [ Log YourTurn;
                    Log (HMAC (toHex (mac k1 (uint32BE n1))));
                    Question (AskNumber lu);
                    Log (KeyHex (toHex k1)); Log (ComputerNumber n1);
                    Log (YouRolled (Some x));
                    Log ComputersTurn;
                    Log (HMAC (toHex (mac k2 (uint32BE n2))));
                    Question (AskNumber lc);
                    Log (KeyHex (toHex k2)); Log (ComputerNumber n2);
                    Log (ComputerRolled (Some y));
                    Log (if x >? y then YouWin
                         else if y >? x then ComputerWins else Tie) ])).
Proof.
  intros Hku Hud Hcd Hnu Hnc Hbu Hbc Hk1 Hd1 Hk2 Hd2 Hlow1 Hlow2 Hin Hlines Hok1 Hok2
         lu lc n1 n2.
  pose proof (faces_length_pos ud Hnu) as Hlu. fold lu in Hlu, Hbu, Hok1.
  pose proof (faces_length_pos cd Hnc) as Hlc. fold lc in Hlc, Hbc, Hok2.
  destruct (threshold_multiple lu ltac:(lia)) as [_ Hhalf1].
  destruct (threshold_multiple lc ltac:(lia)) as [_ Hhalf2].
  pose proof (Z.mod_pos_bound (beValue d1) lu Hlu) as Hn1. fold n1 in Hn1.
  pose proof (Z.mod_pos_bound (beValue d2) lc Hlc) as Hn2. fold n2 in Hn2.
  destruct (index_Some (faces ud) ((n1 + Number_digits a1) mod lu)
              (Z.mod_pos_bound _ _ Hlu)) as [x Hx].
  destruct (index_Some (faces cd) ((n2 + Number_digits a2) mod lc)
              (Z.mod_pos_bound _ _ Hlc)) as [y Hy].
  assert (Hv1 : 0 <= Number_digits a1 < lu).
  { unfold validAnswer in Hok1. apply andb_true_iff in Hok1. destruct Hok1 as [_ H].
    apply andb_true_iff in H. destruct H as [Hge Hlt].
    apply Z.geb_le in Hge. apply Z.ltb_lt in Hlt. lia. }
  assert (Hv2 : 0 <= Number_digits a2 < lc).
  { unfold validAnswer in Hok2. apply andb_true_iff in Hok2. destruct Hok2 as [_ H].
    apply andb_true_iff in H. destruct H as [Hge Hlt].
    apply Z.geb_le in Hge. apply Z.ltb_lt in Hlt. lia. }
  exists x, y. split; [exact Hx|]. split; [exact Hy|].
  unfold Part000.rollDice. rewrite Hku. fold lu lc.
  unfold bind at 1, log. unfold bind at 1. rewrite (dieAt_Some dice ku ud _ Hud).
  fold lu.
  (* the session of the user's roll *)
  unfold bind at 1.
  rewrite (new_FairRandom_run mac lu k1 [] d1 (k2 ++ d2 ++ rest)
             (emit (Log YourTurn) w) ltac:(lia) Hk1 (Forall_nil _) Hd1 ltac:(lia) Hin).
  fold n1. unfold bind at 1.
  match goal with
  | |- context [Part000.getResult ?T ?W] =>
      rewrite (getResult_run T [] a1 (a2 :: lines) W Hlines (Forall_nil _) Hok1)
  end.
  unfold emit;
  cbn [Part000.number Part000.range Part000.key Part000.hmac retries flat_map app
       entropy randoms ints stdin console].
  unfold bind at 1 2, log. unfold emit; cbn [entropy randoms ints stdin console].
  unfold bind at 1. rewrite (dieAt_Some dice kc cd _ Hcd). fold lc.
  (* the session of the computer's roll *)
  unfold bind at 1.
  match goal with
  | |- context [Part000.new_FairRandom mac lc ?W] =>
      rewrite (new_FairRandom_run mac lc k2 [] d2 rest W
                 ltac:(lia) Hk2 (Forall_nil _) Hd2 ltac:(lia) eq_refl)
  end.
  fold n2. unfold bind at 1, Part000.showHMAC, log.
  unfold emit;
  cbn [Part000.number Part000.range Part000.key Part000.hmac
       entropy randoms ints stdin console].
  unfold bind at 1.
  match goal with
  | |- context [Part000.getUserNumber ?T ?W] =>
      change (Part000.getUserNumber T W) with (Task3.getUserNumber lc W);
      rewrite (getUserNumber_run lc [] a2 lines W eq_refl (Forall_nil _) Hok2)
  end.
  unfold Part000.reveal, bind, log.
  unfold emit;
  cbn [Part000.number Part000.range Part000.key Part000.hmac retries flat_map app
       entropy randoms ints stdin console].
  rewrite !Z.rem_mod_nonneg by lia.
  rewrite (Z.add_comm (Number_digits a1) n1).
  unfold faceAt in Hx, Hy |- *. rewrite Hx, Hy. unfold verdict, faceGt.
  rewrite <- !app_assoc. reflexivity.
Qed.

(** ** The table of probabilities *)

Lemma nth_error_indexed_from {A : Type} (xs : list A) :
  forall (k i : nat) (x : A),
    nth_error xs i = Some x ->
    nth_error (combine (seq k (List.length xs)) xs) i = Some ((k + i)%nat, x).
Proof.
  induction xs as [|y xs IH]; intros k i x Hx; [destruct i; discriminate|].
  destruct i as [|i]; cbn [List.length seq combine nth_error] in *.
  - injection Hx as ->. rewrite Nat.add_0_r. reflexivity.
  - rewrite (IH (S k) i x Hx). do 2 f_equal. lia.
Qed.

Lemma nth_error_indexed {A : Type} (xs : list A) (i : nat) (x : A) :
  nth_error xs i = Some x -> nth_error (indexed xs) i = Some (i, x).
Proof. intros Hx. unfold indexed. rewrite (nth_error_indexed_from xs 0 i x Hx). reflexivity. Qed.

Lemma indexed_length {A : Type} (xs : list A) : List.length (indexed xs) = List.length xs.
Proof. unfold indexed. rewrite length_combine, length_seq. lia. Qed.

(** X25. [printProbabilityTable] prints a title, a header, one row for
    each die and an empty line.  Row [i] has one cell for each die; the
    cell of column [j] is [winProb(dice[i], dice[j])], and it is left
    blank on the diagonal. *)
Theorem printProbabilityTable_cells (dice : list Dice) (i j : nat) (di dj : Dice)
    (w : world) :
  nth_error dice i = Some di ->
  nth_error dice j = Some dj ->
  printProbabilityTable dice w = (Done tt, emits (tableLines dice) w)
  /\ List.length (tableLines dice) = (List.length dice + 3)%nat
  /\ exists row,
       nth_error (tableLines dice) (2 + i) = Some (Log (TableRow i row))
       /\ List.length row = List.length dice
       /\ nth_error row j
          = Some (if Nat.eqb i j then None else Some (winProb di dj)).
Proof.
  intros Hi Hj. split; [|split].
  - unfold printProbabilityTable, bind. io_step. unfold tableLines.
    rewrite <- !app_assoc. reflexivity.
  - unfold tableLines. cbn [List.length]. rewrite length_app, !length_map, indexed_length.
    cbn [List.length]. lia.
  - exists (tableRow dice i di). split; [|split].
    + unfold tableLines. cbn [Nat.add nth_error].
      rewrite nth_error_app1.
      * rewrite !nth_error_map, (nth_error_indexed dice i di Hi). reflexivity.
      * rewrite !length_map, indexed_length. apply nth_error_Some. congruence.
    + unfold tableRow. rewrite length_map, indexed_length. reflexivity.
    + unfold tableRow. rewrite nth_error_map, (nth_error_indexed dice j dj Hj).
      reflexivity.
Qed.

(** ** The random sources each file draws from *)

Section Sources.

Context {B : Type}.
Variable f : world -> B.

Lemma keeps_ret {A : Type} (a : A) : keeps f (ret a).
Proof. intros w. reflexivity. Qed.

Lemma keeps_lift {A : Type} (o : outcome A) : keeps f (lift o).
Proof. intros w. reflexivity. Qed.

Lemma keeps_throw {A : Type} (e : error) : keeps f (@throw A e).
Proof. intros w. reflexivity. Qed.

Lemma keeps_exit {A : Type} (c : Z) : keeps f (@exit A c).
Proof. intros w. reflexivity. Qed.

Lemma keeps_bind {A C : Type} (m : M A) (k : A -> M C) :
  keeps f m -> (forall a, keeps f (k a)) -> keeps f (bind m k).
Proof.
  intros Hm Hk w. specialize (Hm w). unfold bind.
  destruct (m w) as [[a|e|c|] w']; cbn [snd] in *; try exact Hm.
  rewrite (Hk a w'). exact Hm.
Qed.

Lemma keeps_iter {S A : Type} (body : S -> M (step S A)) :
  (forall s, keeps f (body s)) -> forall fuel s, keeps f (iter fuel body s).
Proof.
  intros Hbody fuel. induction fuel as [|fuel IH]; intros s; cbn [iter].
  - apply keeps_lift.
  - apply keeps_bind; [apply Hbody|]. intros [s'|a]; [apply IH|apply keeps_ret].
Qed.

Lemma keeps_while_true {S A : Type} (body : S -> M (step S A)) (s : S) :
  (forall s, keeps f (body s)) -> keeps f (while_true body s).
Proof. intros Hbody w. unfold while_true. apply (keeps_iter body Hbody). Qed.

(** Printing and reading a line touch no random source. *)
Hypothesis f_console : forall w s c,
  f (mkWorld (entropy w) (randoms w) (ints w) s c) = f w.

Lemma keeps_log (m : message) : keeps f (log m).
Proof. intros w. apply f_console. Qed.

Lemma keeps_logAll (ms : list message) : keeps f (logAll ms).
Proof. intros w. apply f_console. Qed.

Lemma keeps_question (closed : bool) (p : prompt) : keeps f (question closed p).
Proof.
  intros w. unfold question. destruct closed; [reflexivity|].
  unfold emit. cbn [stdin entropy randoms ints console].
  destruct (stdin w); apply f_console.
Qed.

Ltac keep :=
  repeat first
    [ apply keeps_ret | apply keeps_throw | apply keeps_exit | apply keeps_lift
    | apply keeps_log | apply keeps_logAll | apply keeps_question
    | apply keeps_bind; [|intro] ].

Lemma keeps_getUserNumber (max : Z) : keeps f (Task3.getUserNumber max).
Proof.
  apply keeps_while_true. intros []. unfold Task3.getUserNumber_body.
  apply keeps_bind; [apply keeps_question|intros a].
  destruct (test_digits a);
    [destruct ((Number_digits a >=? 0) && (Number_digits a <? max))|]; keep.
Qed.

Lemma keeps_printProbabilityTable (dice : list Dice) : keeps f (printProbabilityTable dice).
Proof. unfold printProbabilityTable. keep. Qed.

Lemma keeps_selectDice (Number : string -> jsnum) (dice : list Dice) (exclude : option Z) :
  keeps f (selectDice Number dice exclude).
Proof.
  apply keeps_while_true. intros closed. unfold selectDice_body.
  do 4 (apply keeps_bind; [keep|intros _]).
  apply keeps_bind; [apply keeps_question|intros ans].
  destruct (String.eqb ans "e"); [apply keeps_exit|].
  destruct (String.eqb ans "h").
  - apply keeps_bind; [apply keeps_printProbabilityTable|intros _; apply keeps_ret].
  - destruct (_ && _); keep.
Qed.

Lemma keeps_dieAt (dice : list Dice) (i : option Z) : keeps f (dieAt dice i).
Proof.
  unfold dieAt. destruct i as [i|]; [|apply keeps_throw].
  destruct (index dice i); keep.
Qed.

Lemma keeps_catch {A : Type} (m : M A) :
  keeps f m ->
  keeps f (fun w => match m w with
                    | (Throw e, w') => (Exit 1, emit (LogError e) w')
                    | r => r
                    end).
Proof.
  intros Hm w. specialize (Hm w).
  destruct (m w) as [[a|e|c|] w']; cbn [snd] in *; try exact Hm.
  unfold emit. rewrite f_console. exact Hm.
Qed.

Section CommitReveal.

(** [crypto.randomBytes] and [Math.random] are no part of [f]. *)
Hypothesis f_bytes : forall w bs rs,
  f (mkWorld bs rs (ints w) (stdin w) (console w)) = f w.

Variable mac : list byte -> list byte -> list byte.
Variable Number : string -> jsnum.

Lemma keeps_randomBytes (n : nat) : keeps f (randomBytes n).
Proof.
  intros w. unfold randomBytes. destruct (_ <? _)%nat; [reflexivity|apply f_bytes].
Qed.

Lemma keeps_Math_random : keeps f Math_random.
Proof.
  intros w. unfold Math_random. destruct (randoms w); [reflexivity|apply f_bytes].
Qed.

Lemma keeps_uniformRandom (range : Z) : keeps f (Part000.uniformRandom range).
Proof.
  apply keeps_while_true. intros [].
  unfold Part000.uniformRandom_body, Part000.bigint_rem.
  apply keeps_bind; [apply keeps_randomBytes|intros bytes].
  apply keeps_bind; [destruct (BigInt_0x (toHex bytes)); keep|intros rnd].
  apply keeps_bind; [destruct (range =? 0); keep|intros m].
  destruct (rnd <? Part000.span - m); [|keep].
  apply keeps_bind; [destruct (range =? 0); keep|intros r; keep].
Qed.

Lemma keeps_new_FairRandom (range : Z) : keeps f (Part000.new_FairRandom mac range).
Proof.
  unfold Part000.new_FairRandom.
  apply keeps_bind; [apply keeps_randomBytes|intros k].
  apply keeps_bind; [apply keeps_uniformRandom|intros n]. keep.
Qed.

Lemma keeps_getResult (this : Part000.FairRandom) : keeps f (Part000.getResult this).
Proof.
  unfold Part000.getResult, Part000.showHMAC, Part000.reveal.
  apply keeps_bind; [keep|intros _].
  apply keeps_bind; [rewrite getUserNumber_same; apply keeps_getUserNumber|intros v].
  keep.
Qed.

Lemma keeps_play_part000 (dice : list Dice) : keeps f (Part000.play mac Number dice).
Proof.
  unfold Part000.play, printDice.
  apply keeps_bind; [keep|intros _].
  apply keeps_bind; [keep|intros _].
  apply keeps_bind.
  { unfold Part000.decideFirst.
    apply keeps_bind; [keep|intros _].
    apply keeps_bind; [apply keeps_new_FairRandom|intros frp].
    apply keeps_bind; [apply keeps_getResult|intros r]. keep. }
  intros userFirst.
  apply keeps_bind.
  { unfold Part000.chooseDice, Part000.randomBelow. destruct userFirst.
    - apply keeps_bind; [apply keeps_selectDice|intros u].
      apply keeps_bind; [apply keeps_bind; [apply keeps_Math_random|intro; keep]|intros k].
      keep.
    - apply keeps_bind; [apply keeps_bind; [apply keeps_Math_random|intro; keep]|intros c].
      apply keeps_bind; [keep|intros _].
      apply keeps_bind; [apply keeps_selectDice|intros u]. keep. }
  intros [userDice compDice].
  apply keeps_bind; [keep|intros _].
  apply keeps_bind; [keep|intros _].
  unfold Part000.rollDice, Part000.showHMAC, Part000.reveal.
  apply keeps_bind; [keep|intros _].
  apply keeps_bind; [apply keeps_dieAt|intros ud].
  apply keeps_bind; [apply keeps_new_FairRandom|intros userRoll].
  apply keeps_bind; [apply keeps_getResult|intros userRollRes].
  apply keeps_bind; [keep|intros _].
  apply keeps_bind; [keep|intros _].
  apply keeps_bind; [apply keeps_dieAt|intros cd].
  apply keeps_bind; [apply keeps_new_FairRandom|intros compRoll].
  apply keeps_bind; [keep|intros _].
  apply keeps_bind; [rewrite getUserNumber_same; apply keeps_getUserNumber|intros n].
  keep.
Qed.

Lemma keeps_main_part000 (args : list string) : keeps f (Part000.main mac Number args).
Proof.
  unfold Part000.main. apply keeps_catch.
  apply keeps_bind; [apply keeps_lift|intros dice]. apply keeps_play_part000.
Qed.

End CommitReveal.

Section Plain.

(** [crypto.randomInt] is no part of [f]. *)
Hypothesis f_ints : forall w zs,
  f (mkWorld (entropy w) (randoms w) zs (stdin w) (console w)) = f w.

Variable Number : string -> jsnum.

Lemma keeps_randomInt (lo hi : Z) : keeps f (randomInt lo hi).
Proof.
  intros w. unfold randomInt. destruct (hi <=? lo); [reflexivity|].
  destruct (ints w); [reflexivity|apply f_ints].
Qed.

Lemma keeps_play_task3 (dice : list Dice) : keeps f (Task3.play Number dice).
Proof.
  unfold Task3.play, printDice.
  apply keeps_bind; [keep|intros _].
  apply keeps_bind; [keep|intros _].
  apply keeps_bind.
  { unfold Task3.decideFirst.
    apply keeps_bind; [keep|intros _].
    apply keeps_bind; [apply keeps_getUserNumber|intros u].
    apply keeps_bind; [apply keeps_randomInt|intros c]. keep. }
  intros userFirst.
  apply keeps_bind.
  { unfold Task3.chooseDice. destruct userFirst.
    - apply keeps_bind; [apply keeps_selectDice|intros u].
      apply keeps_bind; [apply keeps_randomInt|intros k]. keep.
    - apply keeps_bind; [apply keeps_randomInt|intros c].
      apply keeps_bind; [keep|intros _].
      apply keeps_bind; [apply keeps_selectDice|intros u]. keep. }
  intros [userDice compDice].
  apply keeps_bind; [keep|intros _].
  apply keeps_bind; [keep|intros _].
  unfold Task3.rollDice.
  apply keeps_bind; [keep|intros _].
  apply keeps_bind; [apply keeps_dieAt|intros ud].
  apply keeps_bind; [apply keeps_randomInt|intros r1].
  apply keeps_bind; [keep|intros _].
  apply keeps_bind; [keep|intros _].
  apply keeps_bind; [apply keeps_dieAt|intros cd].
  apply keeps_bind; [apply keeps_randomInt|intros r2]. keep.
Qed.

Lemma keeps_main_task3 (args : list string) : keeps f (Task3.main Number args).
Proof.
  unfold Task3.main. apply keeps_catch.
  apply keeps_bind; [apply keeps_lift|intros dice]. apply keeps_play_task3.
Qed.

End Plain.

End Sources.

(** X26. The two files draw from different sources.  The commit-reveal
    variant never calls [crypto.randomInt]: its secrets come from
    [crypto.randomBytes], and the die of the computer from [Math.random].
    [task3.js] calls neither [crypto.randomBytes] nor [Math.random]: all
    its numbers come from [crypto.randomInt]. *)
Theorem random_sources (mac : list byte -> list byte -> list byte)
    (Number : string -> jsnum) (args : list string) :
  keeps ints (Part000.main mac Number args)
  /\ keeps entropy (Task3.main Number args)
  /\ keeps randoms (Task3.main Number args).
Proof.
  split; [|split].
  - apply keeps_main_part000; reflexivity.
  - apply keeps_main_task3; reflexivity.
  - apply keeps_main_task3; reflexivity.
Qed.

(** * The theorems at sample inputs *)

Lemma uniformRandom_first_accepted_at_3 :
  Part000.uniformRandom 3 (Sample.draws_only Sample.twoDraws)
  = (Done (beValue [x00; x00; x01; x05] mod 3), Sample.draws_only [])
  /\ 0 <= beValue [x00; x00; x01; x05] mod 3 < 3
  /\ (forall w0 v w1, Part000.uniformRandom 3 w0 = (Done v, w1) -> 0 <= v < 3).
Proof.
  apply (uniformRandom_first_accepted 3 [[xff; xff; xff; xff]] [x00; x00; x01; x05] []
           (Sample.draws_only Sample.twoDraws)).
  - evaluate.
  - constructor; [|constructor]. split; [reflexivity|evaluate].
  - reflexivity.
  - evaluate.
  - reflexivity.
Defined.

(** The claim C5 fails at [range = -3]: the sampler returns 2. *)
Lemma uniformRandom_negative_range_returns :
  -3 < 1
  /\ fst (Part000.uniformRandom (-3) (Sample.draws_only [x00; x00; x00; x05])) = Done 2.
Proof. split; [reflexivity | vm_compute; reflexivity]. Qed.

Lemma uniformRandom_range_below_one_at_3 :
  fst (Part000.uniformRandom 0 (Sample.draws_only Sample.twoDraws))
  = Throw (RangeError "Division by zero")
  /\ Part000.uniformRandom (- (3)) (Sample.draws_only Sample.twoDraws)
     = (Done (beValue [x00; x00; x01; x05] mod 3), Sample.draws_only []).
Proof.
  apply (uniformRandom_range_below_one 3 [[xff; xff; xff; xff]] [x00; x00; x01; x05] []
           (Sample.draws_only Sample.twoDraws)).
  - evaluate.
  - constructor; [|constructor]. split; [reflexivity|evaluate].
  - reflexivity.
  - evaluate.
  - reflexivity.
Defined.

Lemma getResult_is_sum_mod_range_at_6 :
  fst (Part000.getResult Sample.session (Sample.quiet ["9"; "x"; "5"; "1"]%string))
  = Done ((4 + Number_digits "5") mod 6)
  /\ 0 <= (4 + Number_digits "5") mod 6 < 6
  /\ stdin (snd (Part000.getResult Sample.session (Sample.quiet ["9"; "x"; "5"; "1"]%string)))
     = ["1"%string].
Proof.
  apply (getResult_is_sum_mod_range Sample.session ["9"; "x"]%string "5" ["1"%string]
           (Sample.quiet ["9"; "x"; "5"; "1"]%string)).
  - evaluate.
  - evaluate.
  - reflexivity.
  - repeat constructor.
  - reflexivity.
  - evaluate.
Defined.



Lemma commitment_verifies_at_4 :
  exists c,
    Part000.calcHMAC Sample.mac (Sample.zeros 32) 4 = Done c
    /\ verify Sample.mac c 4 (Sample.zeros 32) = true.
Proof.
  apply (commitment_verifies Sample.mac (Sample.zeros 32) 4).
  evaluate.
Defined.

Lemma winProb_counts_strict_wins_at_AB :
  winProb Sample.dieA Sample.dieB
  = double (inject_Z (countIf beats (pairs Sample.dieA Sample.dieB))
            / inject_Z (pairSpace Sample.dieA Sample.dieB))
  /\ winProb_loops (faces Sample.dieA) (faces Sample.dieB)
     = (countIf beats (pairs Sample.dieA Sample.dieB), pairSpace Sample.dieA Sample.dieB)
  /\ (exists p : Q,
        winProb Sample.dieA Sample.dieB = Fin p
        /\ (inject_Z (countIf beats (pairs Sample.dieA Sample.dieB))
            / inject_Z (pairSpace Sample.dieA Sample.dieB) - pow2 (-53) <= p)%Q
        /\ (p <= inject_Z (countIf beats (pairs Sample.dieA Sample.dieB))
                 / inject_Z (pairSpace Sample.dieA Sample.dieB) + pow2 (-53))%Q)
  /\ (forall x y, In (x, y) (pairs Sample.dieA Sample.dieB) -> x = y ->
        ~ In (x, y) (filter beats (pairs Sample.dieA Sample.dieB))
        /\ ~ In (y, x) (filter beats (pairs Sample.dieB Sample.dieA))).
Proof.
  apply (winProb_counts_strict_wins Sample.dieA Sample.dieB); discriminate.
Defined.

(** The claim C8 fails in the arithmetic of the code: for the dice
    [[1,2,3]] and [[1,2,4]], of equal face count, the three values are the
    doubles of 3/9, 4/9 and 2/9, and their sum, as JavaScript adds them,
    is [1 - 2^-53], printed [0.9999999999999999]. *)
Lemma winProb_sum_with_ties_rounded :
  List.length (faces (mkDice [1; 2; 3])) = List.length (faces (mkDice [1; 2; 4]))
  /\ isRational
       (addD (addD (winProb (mkDice [1; 2; 3]) (mkDice [1; 2; 4]))
                   (winProb (mkDice [1; 2; 4]) (mkDice [1; 2; 3])))
             (tieProb (mkDice [1; 2; 3]) (mkDice [1; 2; 4])))
       (9007199254740991 # 9007199254740992)
  /\ ~ isRational
         (addD (addD (winProb (mkDice [1; 2; 3]) (mkDice [1; 2; 4]))
                     (winProb (mkDice [1; 2; 4]) (mkDice [1; 2; 3])))
               (tieProb (mkDice [1; 2; 3]) (mkDice [1; 2; 4])))
         1.
Proof.
  split; [reflexivity|]. split; [vm_compute; reflexivity|].
  intros H. vm_compute in H. discriminate H.
Qed.

Lemma winProb_sum_with_ties_at_AB :
  countIf beats (pairs Sample.dieA Sample.dieB)
  + countIf beats (pairs Sample.dieB Sample.dieA)
  + countIf tied (pairs Sample.dieA Sample.dieB)
  = pairSpace Sample.dieA Sample.dieB
  /\ (inject_Z (countIf beats (pairs Sample.dieA Sample.dieB))
        / inject_Z (pairSpace Sample.dieA Sample.dieB)
      + inject_Z (countIf beats (pairs Sample.dieB Sample.dieA))
        / inject_Z (pairSpace Sample.dieA Sample.dieB)
      + inject_Z (countIf tied (pairs Sample.dieA Sample.dieB))
        / inject_Z (pairSpace Sample.dieA Sample.dieB) == 1)%Q
  /\ exists pab pba pt : Q,
       winProb Sample.dieA Sample.dieB = Fin pab
       /\ winProb Sample.dieB Sample.dieA = Fin pba
       /\ tieProb Sample.dieA Sample.dieB = Fin pt
       /\ (1 - 3 * pow2 (-53) <= pab + pba + pt)%Q
       /\ (pab + pba + pt <= 1 + 3 * pow2 (-53))%Q.
Proof.
  apply (winProb_sum_with_ties Sample.dieA Sample.dieB); discriminate.
Defined.

Lemma decideFirst_ignores_secret_at_sample :
  fst (Part000.decideFirst Sample.mac (Sample.quiet ["1"]%string)) = Done (1 mod 2 =? 0).
Proof.
  edestruct (decideFirst_ignores_secret Sample.mac (Sample.quiet ["1"]%string))
    as (_ & _ & Hrun);
    [reflexivity | reflexivity |].
  rewrite Hrun. reflexivity.
Defined.

Lemma chosen_dice_differ_at_sample :
  sameIndex (Fin 1) (Some 0) = false
  /\ selectable Sample.threeDice None (Fin 1) = true
  /\ ((2 <= List.length Sample.threeDice)%nat ->
      exists c, Some 0 = Some c /\ 0 <= c < Z.of_nat (List.length Sample.threeDice)).
Proof.
  apply (chosen_dice_differ Sample.mac Sample.digitsOrNaN Sample.threeDice
           (Sample.quiet ["1"; "2"; "3"; "4"]%string) (Fin 1) (Some 0)).
  - reflexivity.
  - left. vm_compute. split; tauto.
Defined.

(** ** The parser *)

Lemma main_too_few_dice_at_two :
  parse ["1,2"; "3"]%string = Throw (Error tooFewDice)
  /\ Part000.main Sample.mac Sample.digitsOrNaN ["1,2"; "3"]%string (Sample.quiet [])
     = (Exit 1, emit (LogError (Error tooFewDice)) (Sample.quiet []))
  /\ Task3.main Sample.digitsOrNaN ["1,2"; "3"]%string (Sample.quiet [])
     = (Exit 1, emit (LogError (Error tooFewDice)) (Sample.quiet [])).
Proof.
  apply (main_too_few_dice Sample.mac Sample.digitsOrNaN ["1,2"; "3"]%string
           (Sample.quiet [])).
  cbn [List.length]. lia.
Defined.

Lemma parse_dice_at_ABC :
  List.length Sample.threeDice
  = List.length ["2,2,4,4,9,9"; "1,1,6,6,8,8"; "3,3,5,5,7,7"]%string
  /\ (3 <= List.length Sample.threeDice)%nat
  /\ Forall (fun d => faces d <> [] /\ Forall (fun f => 0 <= f) (faces d))
       Sample.threeDice.
Proof.
  apply (parse_dice ["2,2,4,4,9,9"; "1,1,6,6,8,8"; "3,3,5,5,7,7"]%string
           Sample.threeDice).
  vm_compute. reflexivity.
Defined.

Lemma parse_non_integer_face_at_second :
  parse (["1,2"%string] ++ ["3,,4"; "5"]%string)
  = Throw (Error (nonIntegerFace (List.length ["1,2"%string])))
  /\ Part000.main Sample.mac Sample.digitsOrNaN (["1,2"%string] ++ ["3,,4"; "5"]%string)
       (Sample.quiet [])
     = (Exit 1,
        emit (LogError (Error (nonIntegerFace (List.length ["1,2"%string]))))
          (Sample.quiet []))
  /\ Task3.main Sample.digitsOrNaN (["1,2"%string] ++ ["3,,4"; "5"]%string) (Sample.quiet [])
     = (Exit 1,
        emit (LogError (Error (nonIntegerFace (List.length ["1,2"%string]))))
          (Sample.quiet [])).
Proof.
  apply (parse_non_integer_face Sample.mac Sample.digitsOrNaN
           ["1,2"%string] "3,,4" ["5"%string] (Sample.quiet [])).
  - cbn [List.length app]. lia.
  - repeat constructor.
  - apply Exists_cons_tl. apply Exists_cons_hd. reflexivity.
Defined.

Lemma parse_printed_dice_at_ABC :
  parse (map facesText Sample.threeDice) = Done Sample.threeDice.
Proof.
  apply (parse_printed_dice Sample.threeDice).
  - cbn [List.length Sample.threeDice]. lia.
  - repeat constructor; (discriminate || evaluate).
Defined.

(** ** Win probabilities at the sample dice *)

Lemma winProb_is_probability_at_AB :
  exists q : Q, winProb Sample.dieA Sample.dieB = Fin q /\ (0 <= q <= 1)%Q.
Proof.
  apply (winProb_is_probability Sample.dieA Sample.dieB); discriminate.
Defined.

Lemma winProb_Permutation_at_swap :
  winProb (mkDice [1; 2; 3]) Sample.dieA = winProb (mkDice [2; 1; 3]) Sample.dieA.
Proof.
  apply (winProb_Permutation (mkDice [1; 2; 3]) (mkDice [2; 1; 3])
           Sample.dieA Sample.dieA).
  - apply perm_swap.
  - apply Permutation_refl.
Defined.

(** ** The menu *)

Lemma selectDice_first_selectable_at_2 :
  selectDice Sample.digitsOrHalf Sample.threeDice (Some 0)
    (Sample.quiet ["x"; "7"; "1"; "0"; "1.5"; "3"]%string)
  = (Done (sub1 (Sample.digitsOrHalf "1.5")),
     mkWorld (entropy (Sample.quiet ["x"; "7"; "1"; "0"; "1.5"; "3"]%string))
       (randoms (Sample.quiet ["x"; "7"; "1"; "0"; "1.5"; "3"]%string))
       (ints (Sample.quiet ["x"; "7"; "1"; "0"; "1.5"; "3"]%string))
       ["3"%string]
       (console (Sample.quiet ["x"; "7"; "1"; "0"; "1.5"; "3"]%string)
          ++ refusals Sample.threeDice (Some 0) ["x"; "7"; "1"; "0"]%string
          ++ menuLines Sample.threeDice (Some 0) ++ [Question AskChoice])).
Proof.
  apply (selectDice_first_selectable Sample.digitsOrHalf Sample.threeDice (Some 0)
           ["x"; "7"; "1"; "0"]%string "1.5" ["3"%string]
           (Sample.quiet ["x"; "7"; "1"; "0"; "1.5"; "3"]%string)).
  - reflexivity.
  - repeat (constructor;
            [repeat split; try discriminate;
             intros H; vm_compute in H; try tauto;
             destruct H as (H1 & H2 & H3);
             first [discriminate H2 | apply H1; reflexivity | apply H3; reflexivity]|]).
    constructor.
  - discriminate.
  - discriminate.
  - vm_compute. repeat split; discriminate.
Defined.

Lemma selectDice_exit_at_second :
  selectDice Sample.digitsOrNaN Sample.threeDice None (Sample.quiet ["0"; "e"; "1"]%string)
  = (Exit 0,
     mkWorld (entropy (Sample.quiet ["0"; "e"; "1"]%string))
       (randoms (Sample.quiet ["0"; "e"; "1"]%string))
       (ints (Sample.quiet ["0"; "e"; "1"]%string))
       ["1"%string]
       (console (Sample.quiet ["0"; "e"; "1"]%string)
          ++ refusals Sample.threeDice None ["0"%string]
          ++ menuLines Sample.threeDice None ++ [Question AskChoice])).
Proof.
  apply (selectDice_exit Sample.digitsOrNaN Sample.threeDice None
           ["0"%string] ["1"%string] (Sample.quiet ["0"; "e"; "1"]%string)).
  - reflexivity.
  - repeat constructor.
Defined.

Lemma selectDice_help_ends_at_first :
  selectDice Sample.digitsOrNaN Sample.threeDice None (Sample.quiet ["h"; "1"]%string)
  = (Throw ERR_USE_AFTER_CLOSE,
     mkWorld (entropy (Sample.quiet ["h"; "1"]%string))
       (randoms (Sample.quiet ["h"; "1"]%string))
       (ints (Sample.quiet ["h"; "1"]%string))
       ["1"%string]
       (console (Sample.quiet ["h"; "1"]%string)
          ++ refusals Sample.threeDice None []
          ++ menuLines Sample.threeDice None ++ [Question AskChoice]
          ++ tableLines Sample.threeDice ++ menuLines Sample.threeDice None)).
Proof.
  apply (selectDice_help_ends Sample.digitsOrNaN Sample.threeDice None
           [] ["1"%string] (Sample.quiet ["h"; "1"]%string)).
  - reflexivity.
  - constructor.
Defined.

Lemma fractional_choice_throws_at_half :
  selectDice Sample.digitsOrHalf Sample.threeDice None (Sample.quiet ["1.5"%string])
  = (Done (Fin ((3 # 2) - 1)),
     mkWorld (entropy (Sample.quiet ["1.5"%string]))
       (randoms (Sample.quiet ["1.5"%string]))
       (ints (Sample.quiet ["1.5"%string]))
       []
       (console (Sample.quiet ["1.5"%string])
          ++ menuLines Sample.threeDice None ++ [Question AskChoice]))
  /\ Part000.rollDice Sample.mac Sample.threeDice (Fin ((3 # 2) - 1)) (Some 1)
       (Sample.quiet [])
     = (Throw (TypeError "Cannot read properties of undefined"),
        emit (Log YourTurn) (Sample.quiet []))
  /\ Task3.rollDice Sample.threeDice (Fin ((3 # 2) - 1)) (Some 1) (Sample.quiet [])
     = (Throw (TypeError "Cannot read properties of undefined"),
        emit (Log YourTurn) (Sample.quiet [])).
Proof.
  apply (fractional_choice_throws Sample.mac Sample.digitsOrHalf Sample.threeDice
           None (Some 1) "1.5" (3 # 2) [] (Sample.quiet ["1.5"%string]) (Sample.quiet [])).
  - discriminate.
  - reflexivity.
  - reflexivity.
  - reflexivity.
  - reflexivity.
  - reflexivity.
  - reflexivity.
Defined.

(** ** The sampler and the sessions *)

Lemma uniformRandom_body_uniform_at_11 :
  fst (Part000.uniformRandom_body 6 tt (Sample.draws_only (uint32BE 11 ++ [])))
  = Done (Break 5)
  <-> (0 <= 5 < 6 /\ exists k, 0 <= k < 2 ^ 32 / 6 /\ 11 = k * 6 + 5).
Proof.
  apply (uniformRandom_body_uniform 6 11 5 [] (Sample.draws_only (uint32BE 11 ++ []))).
  - evaluate.
  - evaluate.
  - reflexivity.
Defined.

Lemma uniformRandom_low_draw_accepted_at_6 :
  Part000.uniformRandom 6 (Sample.draws_only ([x00; x00; x01; x05] ++ [xff]))
  = (Done (beValue [x00; x00; x01; x05] mod 6),
     mkWorld [xff] (randoms (Sample.draws_only ([x00; x00; x01; x05] ++ [xff])))
       (ints (Sample.draws_only ([x00; x00; x01; x05] ++ [xff])))
       (stdin (Sample.draws_only ([x00; x00; x01; x05] ++ [xff])))
       (console (Sample.draws_only ([x00; x00; x01; x05] ++ [xff])))).
Proof.
  apply (uniformRandom_low_draw_accepted 6 [x00; x00; x01; x05] [xff]
           (Sample.draws_only ([x00; x00; x01; x05] ++ [xff]))).
  - evaluate.
  - reflexivity.
  - evaluate.
  - reflexivity.
Defined.

Lemma uniformRandom_range_above_span_at_next :
  fst (Part000.uniformRandom 4294967297 (Sample.draws_only Sample.twoDraws)) = Pending
  /\ (List.length
        (entropy (snd (Part000.uniformRandom 4294967297
                         (Sample.draws_only Sample.twoDraws)))) < 4)%nat.
Proof.
  apply (uniformRandom_range_above_span 4294967297 (Sample.draws_only Sample.twoDraws)).
  evaluate.
Defined.

Lemma commitment_binds_number_at_4 :
  Part000.calcHMAC Sample.mac (Sample.zeros 32) 4
  = Done (toHex (Sample.mac (Sample.zeros 32) (uint32BE 4)))
  /\ (4 = 4
      \/ (uint32BE 4 <> uint32BE 4
          /\ Sample.mac (Sample.zeros 32) (uint32BE 4)
             = Sample.mac (Sample.zeros 32) (uint32BE 4))).
Proof.
  split; [reflexivity|].
  apply (commitment_binds_number Sample.mac (Sample.zeros 32) 4 4
           (toHex (Sample.mac (Sample.zeros 32) (uint32BE 4)))); reflexivity.
Defined.

Lemma new_FairRandom_run_at_6 :
  Part000.new_FairRandom Sample.mac 6
    (Sample.draws_only (Sample.zeros 32 ++ List.concat [] ++ [x00; x00; x01; x05] ++ []))
  = (Done (Part000.mkFairRandom 6 (Sample.zeros 32)
             (beValue [x00; x00; x01; x05] mod 6)
             (toHex (Sample.mac (Sample.zeros 32)
                       (uint32BE (beValue [x00; x00; x01; x05] mod 6))))),
     mkWorld [] [] [] [] []).
Proof.
  apply (new_FairRandom_run Sample.mac 6 (Sample.zeros 32) [] [x00; x00; x01; x05] []
           (Sample.draws_only
              (Sample.zeros 32 ++ List.concat [] ++ [x00; x00; x01; x05] ++ []))).
  - evaluate.
  - reflexivity.
  - constructor.
  - reflexivity.
  - evaluate.
  - reflexivity.
Defined.

Lemma new_FairRandom_throws_only_zero_at_0 :
  fst (Part000.new_FairRandom Sample.mac 0 (Sample.draws_only (Sample.zeros 36)))
  = Throw (RangeError "Division by zero")
  /\ (0 = 0 /\ RangeError "Division by zero" = RangeError "Division by zero").
Proof.
  split; [vm_compute; reflexivity|].
  apply (new_FairRandom_throws_only_zero Sample.mac 0
           (Sample.draws_only (Sample.zeros 36)) (RangeError "Division by zero")).
  vm_compute. reflexivity.
Defined.

Lemma getResult_one_answer_per_result_at_3 :
  exists v,
    0 <= v < Part000.range Sample.session
    /\ (forall w rest, stdin w = String_of_int v :: rest ->
          fst (Part000.getResult Sample.session w) = Done 3)
    /\ (forall v' w rest,
          0 <= v' < Part000.range Sample.session ->
          stdin w = String_of_int v' :: rest ->
          fst (Part000.getResult Sample.session w) = Done 3 -> v' = v).
Proof.
  apply (getResult_one_answer_per_result Sample.session 3); evaluate.
Defined.

(** ** The plain variant *)

Lemma decideFirst_plain_run_at_1 :
  Task3.decideFirst (mkWorld [] [] [5] ["x"; "1"]%string [])
  = (Done (Number_digits "1" =? 5 mod 2),
     mkWorld [] [] [] []
       ([] ++ Log Deciding :: retries 2 ["x"%string]
          ++ [ Question (AskNumber 2);
               Log (YourNumber (Number_digits "1"));
               Log (ComputersNumber (5 mod 2));
               Log (ResultMod2 ((Number_digits "1" + 5 mod 2) mod 2));
               Log (WhoFirst (Number_digits "1" =? 5 mod 2)) ])).
Proof.
  apply (decideFirst_plain_run ["x"%string] "1" [] 5 []
           (mkWorld [] [] [5] ["x"; "1"]%string [])).
  - reflexivity.
  - repeat constructor.
  - reflexivity.
  - reflexivity.
Defined.

(** ** The rolls *)

Lemma rollDice_plain_run_at_AB :
  exists x y,
    faceAt Sample.dieA (7 mod Z.of_nat (List.length (faces Sample.dieA))) = Some x
    /\ faceAt Sample.dieB (2 mod Z.of_nat (List.length (faces Sample.dieB))) = Some y
    /\ Task3.rollDice Sample.threeDice (Fin 0) (Some 1) (mkWorld [] [] [7; 2] [] [])
       = (Done tt,
          mkWorld [] [] [] []
            ([] ++ [ Log YourTurn; Log (YouRolled (Some x));
                     Log ComputersTurn; Log (ComputerRolled (Some y));
                     Log (if x >? y then YouWin
                          else if y >? x then ComputerWins else Tie) ])).
Proof.
  apply (rollDice_plain_run Sample.threeDice (Fin 0) 0 1 Sample.dieA Sample.dieB
           7 2 [] (mkWorld [] [] [7; 2] [] []));
    (reflexivity || discriminate).
Defined.

Lemma rollDice_sessions_run_at_AB :
  let w := mkWorld (Sample.zeros 32 ++ [x00; x00; x01; x05]
                      ++ Sample.zeros 32 ++ [x00; x00; x00; x02] ++ [])
             [] [] ["3"; "4"; "5"]%string [] in
  let lu := Z.of_nat (List.length (faces Sample.dieA)) in
  let lc := Z.of_nat (List.length (faces Sample.dieB)) in
  let n1 := beValue [x00; x00; x01; x05] mod lu in
  let n2 := beValue [x00; x00; x00; x02] mod lc in
  exists x y,
    faceAt Sample.dieA ((n1 + Number_digits "3") mod lu) = Some x
    /\ faceAt Sample.dieB ((n2 + Number_digits "4") mod lc) = Some y
    /\ Part000.rollDice Sample.mac Sample.threeDice (Fin 0) (Some 1) w
       = (Done tt,
          mkWorld [] (randoms w) (ints w) ["5"%string]
            (console w
               ++ [ Log YourTurn;
                    Log (HMAC (toHex (Sample.mac (Sample.zeros 32) (uint32BE n1))));
                    Question (AskNumber lu);
                    Log (KeyHex (toHex (Sample.zeros 32))); Log (ComputerNumber n1);
                    Log (YouRolled (Some x));
                    Log ComputersTurn;
                    Log (HMAC (toHex (Sample.mac (Sample.zeros 32) (uint32BE n2))));
                    Question (AskNumber lc);
                    Log (KeyHex (toHex (Sample.zeros 32))); Log (ComputerNumber n2);
                    Log (ComputerRolled (Some y));
                    Log (if x >? y then YouWin
                         else if y >? x then ComputerWins else Tie) ])).
Proof.
  intros w.
  apply (rollDice_sessions_run Sample.mac Sample.threeDice (Fin 0) 0 1
           Sample.dieA Sample.dieB
           (Sample.zeros 32) [x00; x00; x01; x05] (Sample.zeros 32) [x00; x00; x00; x02] []
           "3" "4" ["5"%string] w);
    try reflexivity; try discriminate; evaluate.
Defined.

Lemma printProbabilityTable_cells_at_AB :
  printProbabilityTable Sample.threeDice (Sample.quiet [])
  = (Done tt, emits (tableLines Sample.threeDice) (Sample.quiet []))
  /\ List.length (tableLines Sample.threeDice) = (List.length Sample.threeDice + 3)%nat
  /\ exists row,
       nth_error (tableLines Sample.threeDice) (2 + 0) = Some (Log (TableRow 0 row))
       /\ List.length row = List.length Sample.threeDice
       /\ nth_error row 1
          = Some (if Nat.eqb 0 1 then None else Some (winProb Sample.dieA Sample.dieB)).
Proof.
  apply (printProbabilityTable_cells Sample.threeDice 0 1 Sample.dieA Sample.dieB
           (Sample.quiet [])); reflexivity.
Defined.
